(** * VoxAnalyze: field-level confidentiality pipeline

    A shallow embedding of the PII maskers (services/piiMasking.ts), of the
    summary redaction and storage steps of the upload Edge Function, of the
    storage encryption helpers and of the record read / delete handlers,
    together with the properties stated about them. *)

From Stdlib Require Import String Ascii List NArith ZArith QArith Bool Lia.
Import ListNotations.
Close Scope Q_scope.

Set Implicit Arguments.

(** ** JavaScript strings

    A JavaScript string is a sequence of UTF-16 code units; regular
    expressions without the [u] flag work on code units. *)

Definition jsstring := list N.

Fixpoint js (s : string) : jsstring :=
  match s with
  | EmptyString => []
  | String a s' => N_of_ascii a :: js s'
  end.

Definition inRange (lo hi c : N) : bool := ((lo <=? c) && (c <=? hi))%N.

Definition isChar (a : ascii) (c : N) : bool := (c =? N_of_ascii a)%N.

Definition isDigit (c : N) : bool := inRange 48 57 c.
Definition isUpper (c : N) : bool := inRange 65 90 c.
Definition isLower (c : N) : bool := inRange 97 122 c.

(** [\w]: ASCII letters, digits and underscore. *)
Definition isWordChar (c : N) : bool :=
  isUpper c || isLower c || isDigit c || (c =? 95)%N.

(** Line terminators: LF, CR, LS, PS. *)
Definition isLineTerminator (c : N) : bool :=
  (c =? 10)%N || (c =? 13)%N || (c =? 8232)%N || (c =? 8233)%N.

(** [\s] and the characters removed by [trim]: WhiteSpace and LineTerminator. *)
Definition isSpace (c : N) : bool :=
  inRange 9 13 c || (c =? 32)%N || (c =? 160)%N || (c =? 5760)%N
  || inRange 8192 8202 c || (c =? 8232)%N || (c =? 8233)%N
  || (c =? 8239)%N || (c =? 8287)%N || (c =? 12288)%N || (c =? 65279)%N.

Definition jsstring_eqb (a b : jsstring) : bool :=
  if list_eq_dec N.eq_dec a b then true else false.

Fixpoint dropWhile (p : N -> bool) (s : jsstring) : jsstring :=
  match s with
  | [] => []
  | c :: s' => if p c then dropWhile p s' else s
  end.

(** [String.prototype.trim] *)
Definition trim (s : jsstring) : jsstring :=
  rev (dropWhile isSpace (rev (dropWhile isSpace s))).

Fixpoint isPrefix (p s : jsstring) : bool :=
  match p, s with
  | [], _ => true
  | a :: p', b :: s' => (a =? b)%N && isPrefix p' s'
  | _ :: _, [] => false
  end.

(** [String.prototype.indexOf], [None] standing for -1. *)
Fixpoint indexOf (s needle : jsstring) : option nat :=
  if isPrefix needle s then Some 0
  else match s with
       | [] => None
       | _ :: s' => option_map S (indexOf s' needle)
       end.

(** [String.prototype.substring] with [0 <= from <= to]. *)
Definition substring (s : jsstring) (from to : nat) : jsstring :=
  firstn (to - from) (skipn from s).

(** ** Regular expressions

    The fragment of ECMAScript patterns the sources use, with the
    backtracking semantics of the language: alternatives are tried left to
    right, quantifiers are greedy. *)

Inductive regex : Type :=
| Empty
| Char (p : N -> bool)
| Seq (r1 r2 : regex)
| Alt (r1 r2 : regex)
| Rep (lo : nat) (hi : option nat) (r : regex)
| WordB
| Bol
| Eol.

Definition star := Rep 0 None.
Definition plus := Rep 1 None.
Definition opt := Rep 0 (Some 1).
Definition chr (a : ascii) : regex := Char (isChar a).

Fixpoint seqs (rs : list regex) : regex :=
  match rs with
  | [] => Empty
  | [r] => r
  | r :: rs' => Seq r (seqs rs')
  end.

Fixpoint lit (s : string) : regex :=
  match s with
  | EmptyString => Empty
  | String a EmptyString => chr a
  | String a s' => Seq (chr a) (lit s')
  end.

Section Matcher.
Variable A : Type.

(** A continuation receives the code unit before the current position
    (if any) and the rest of the input. *)
Definition cont := option N -> jsstring -> option A.
Definition matcher := option N -> jsstring -> cont -> option A.

(** RepeatMatcher: [hi = Some 0] stops; while [lo > 0] an iteration is
    mandatory; afterwards an iteration that consumes nothing is rejected
    and the greedy choice falls back to the continuation. *)
Fixpoint repeat_match (m : matcher) (fuel lo : nat) (hi : option nat)
         (prev : option N) (s : jsstring) (k : cont) : option A :=
  match fuel with
  | O => None
  | S fuel' =>
    match hi with
    | Some O => k prev s
    | _ =>
      let hi' := option_map pred hi in
      match lo with
      | S lo' =>
          m prev s (fun p' s' => repeat_match m fuel' lo' hi' p' s' k)
      | O =>
          match m prev s (fun p' s' =>
                  if length s' <? length s
                  then repeat_match m fuel' 0 hi' p' s' k
                  else None) with
          | Some x => Some x
          | None => k prev s
          end
      end
    end
  end.

Definition isWordOpt (c : option N) : bool :=
  match c with Some c => isWordChar c | None => false end.

Fixpoint rmatch (r : regex) (prev : option N) (s : jsstring) (k : cont)
  : option A :=
  match r with
  | Empty => k prev s
  | Char p =>
      match s with
      | c :: s' => if p c then k (Some c) s' else None
      | [] => None
      end
  | Seq r1 r2 => rmatch r1 prev s (fun p' s' => rmatch r2 p' s' k)
  | Alt r1 r2 =>
      match rmatch r1 prev s k with
      | Some x => Some x
      | None => rmatch r2 prev s k
      end
  | Rep lo hi r1 =>
      repeat_match (rmatch r1) (S (lo + length s)) lo hi prev s k
  | WordB =>
      if xorb (isWordOpt prev) (isWordOpt (hd_error s)) then k prev s
      else None
  | Bol => match prev with None => k prev s | Some _ => None end
  | Eol => match s with [] => k prev s | _ :: _ => None end
  end.
End Matcher.

(** The length of the match of [r] that starts at the current position. *)
Definition exec (r : regex) (prev : option N) (s : jsstring) : option nat :=
  rmatch r prev s (fun _ rest => Some (length s - length rest)).

(** [String.prototype.replace] with a global pattern and a replacement
    computed from the matched text.  [skip] counts the code units of the
    current match that are still to be dropped. *)
Fixpoint replace_from (r : regex) (f : jsstring -> jsstring)
         (prev : option N) (s : jsstring) (skip : nat) : jsstring :=
  match skip with
  | S n =>
      match s with
      | [] => []
      | c :: s' => replace_from r f (Some c) s' n
      end
  | O =>
      match exec r prev s with
      | Some len =>
          match s with
          | [] => f []
          | c :: s' =>
              match len with
              | O => f [] ++ c :: replace_from r f (Some c) s' 0
              | S n => f (firstn len s) ++ replace_from r f (Some c) s' n
              end
          end
      | None =>
          match s with
          | [] => []
          | c :: s' => c :: replace_from r f (Some c) s' 0
          end
      end
  end.

Definition replaceAllWith (r : regex) (f : jsstring -> jsstring)
           (s : jsstring) : jsstring :=
  replace_from r f None s 0.

Definition replaceAll (r : regex) (by_ : jsstring) (s : jsstring) : jsstring :=
  replaceAllWith r (fun _ => by_) s.

(** ** Regex PII masker (services/piiMasking.ts) *)

Definition digit := Char isDigit.
Definition space := Char isSpace.

Definition isEmailLocal (c : N) : bool :=
  isUpper c || isLower c || isDigit c
  || isChar "." c || isChar "_" c || isChar "%" c || isChar "+" c
  || isChar "-" c.

Definition isEmailDomain (c : N) : bool :=
  isUpper c || isLower c || isDigit c || isChar "." c || isChar "-" c.

(** The class [[A-Z|a-z]] also contains the vertical bar. *)
Definition isEmailTld (c : N) : bool :=
  isUpper c || isChar "|" c || isLower c.

Definition isDashOrSpace (c : N) : bool := isChar "-" c || isSpace c.

(** [/\b[A-Za-z0-9._%+-]+@[A-Za-z0-9.-]+\.[A-Z|a-z]{2,}\b/g] *)
Definition reEmail : regex :=
  seqs [WordB; plus (Char isEmailLocal); chr "@"; plus (Char isEmailDomain);
        chr "."; Rep 2 None (Char isEmailTld); WordB].

(** [/(?:\+370|8)?\s*(?:\(\d+\))?\s*\d{1,3}\s*\d{2,3}\s*\d{3,4}\s*\d{0,4}/g] *)
Definition rePhone : regex :=
  seqs [opt (Alt (lit "+370") (lit "8")); star space;
        opt (seqs [chr "("; plus digit; chr ")"]); star space;
        Rep 1 (Some 3) digit; star space; Rep 2 (Some 3) digit; star space;
        Rep 3 (Some 4) digit; star space; Rep 0 (Some 4) digit].

(** [/\b\d{3}\s*\d{3}\s*\d{4}\b/g] *)
Definition rePhoneAlt : regex :=
  seqs [WordB; Rep 3 (Some 3) digit; star space; Rep 3 (Some 3) digit;
        star space; Rep 4 (Some 4) digit; WordB].

(** [/\b\d{8,10}\b/g] *)
Definition rePhoneDigits : regex := seqs [WordB; Rep 8 (Some 10) digit; WordB].

(** [/\b\d{6}-?\d{5}\b/g] *)
Definition rePersonCode : regex :=
  seqs [WordB; Rep 6 (Some 6) digit; opt (chr "-"); Rep 5 (Some 5) digit; WordB].

(** [/\b\d{4}[-\s]?\d{4}[-\s]?\d{4}[-\s]?\d{4}\b/g] *)
Definition reCard : regex :=
  seqs [WordB; Rep 4 (Some 4) digit; opt (Char isDashOrSpace);
        Rep 4 (Some 4) digit; opt (Char isDashOrSpace);
        Rep 4 (Some 4) digit; opt (Char isDashOrSpace);
        Rep 4 (Some 4) digit; WordB].

(** [/\bLT\d{2}\d{5}\d{11}\b/g] *)
Definition reAccountLT : regex :=
  seqs [WordB; lit "LT"; Rep 2 (Some 2) digit; Rep 5 (Some 5) digit;
        Rep 11 (Some 11) digit; WordB].

(** [/\b\d{16,20}\b/g] *)
Definition reAccountDigits : regex :=
  seqs [WordB; Rep 16 (Some 20) digit; WordB].

Definition EMAIL := js "[EMAIL]".
Definition PHONE := js "[PHONE]".
Definition PERSON_CODE := js "[PERSON_CODE]".
Definition CARD_NUMBER := js "[CARD_NUMBER]".
Definition ACCOUNT_NUMBER := js "[ACCOUNT_NUMBER]".

(** [(match) => match.length >= n ? token : match] *)
Definition ifLongEnough (n : nat) (token : jsstring) (m : jsstring) : jsstring :=
  if n <=? length m then token else m.

(** The eight replacements shared by [maskWithRegex] (on [text]) and
    [maskSegmentText], in source order. *)
Definition maskSegmentText (text : jsstring) : jsstring :=
  let masked := text in
  let masked := replaceAll reEmail EMAIL masked in
  let masked := replaceAll rePhone PHONE masked in
  let masked := replaceAll rePhoneAlt PHONE masked in
  let masked := replaceAllWith rePhoneDigits (ifLongEnough 8 PHONE) masked in
  let masked := replaceAll rePersonCode PERSON_CODE masked in
  let masked := replaceAll reCard CARD_NUMBER masked in
  let masked := replaceAll reAccountLT ACCOUNT_NUMBER masked in
  let masked := replaceAllWith reAccountDigits (ifLongEnough 16 ACCOUNT_NUMBER) masked in
  masked.


(** ** Numbers

    The numbers of the program: a finite value, an infinity ([JSON.parse]
    yields one when a literal overflows), or NaN, which the conversion to
    a number yields for a value that is not numeric.  Comparisons of
    finite values are exact, so rationals stand for them. *)

Inductive number : Type :=
| Finite (q : Q)
| PosInfinity
| NegInfinity
| NaN.

(** [Math.min] and [Math.max] on two numbers: NaN when one of them is. *)
Definition mathMin (a b : number) : number :=
  match a, b with
  | NaN, _ | _, NaN => NaN
  | NegInfinity, _ | _, NegInfinity => NegInfinity
  | PosInfinity, x | x, PosInfinity => x
  | Finite p, Finite q => if Qle_bool p q then a else b
  end.

Definition mathMax (a b : number) : number :=
  match a, b with
  | NaN, _ | _, NaN => NaN
  | PosInfinity, _ | _, PosInfinity => PosInfinity
  | NegInfinity, x | x, NegInfinity => x
  | Finite p, Finite q => if Qle_bool p q then b else a
  end.

(** A property value of a parsed JSON document as arithmetic reads it: a
    JSON number, or any other value ([null] apart) - a string, a boolean,
    an array, an object - with the number [Math.min] and [Math.max]
    convert it to, which is NaN for a text that is not numeric and for an
    object. *)
Inductive jsonValue : Type :=
| JsonNumber (n : number)
| JsonOther (converted : number).

Definition toNumber (v : jsonValue) : number :=
  match v with
  | JsonNumber n => n
  | JsonOther converted => converted
  end.

(** ** Transcriptions (types.ts) *)

Record TranscriptionSegment : Type := {
  speaker : jsstring;
  seg_text : jsstring;
  startTime : number;
  endTime : number
}.

(** [timestamp] is a [Date] on the client and its ISO string in the Edge
    Functions; it is only ever copied. *)
Record Transcription : Type := {
  id : jsstring;
  text : jsstring;
  timestamp : jsstring;
  language : jsstring;
  segments : list TranscriptionSegment
}.

(** [{ ...segment, text: t }] *)
Definition withSegText (seg : TranscriptionSegment) (t : jsstring)
  : TranscriptionSegment :=
  {| speaker := speaker seg; seg_text := t;
     startTime := startTime seg; endTime := endTime seg |}.

(** [{ ...transcription, text: t, segments: segs }] *)
Definition withTextAndSegments (tr : Transcription) (t : jsstring)
           (segs : list TranscriptionSegment) : Transcription :=
  {| id := id tr; text := t; timestamp := timestamp tr;
     language := language tr; segments := segs |}.

(** Fallback regex-based PII masking. *)
Definition maskWithRegex (transcription : Transcription) : Transcription :=
  let maskedText := text transcription in
  let maskedText := replaceAll reEmail EMAIL maskedText in
  let maskedText := replaceAll rePhone PHONE maskedText in
  let maskedText := replaceAll rePhoneAlt PHONE maskedText in
  let maskedText := replaceAllWith rePhoneDigits (ifLongEnough 8 PHONE) maskedText in
  let maskedText := replaceAll rePersonCode PERSON_CODE maskedText in
  let maskedText := replaceAll reCard CARD_NUMBER maskedText in
  let maskedText := replaceAll reAccountLT ACCOUNT_NUMBER maskedText in
  let maskedText :=
    replaceAllWith reAccountDigits (ifLongEnough 16 ACCOUNT_NUMBER) maskedText in
  let maskedSegments :=
    map (fun segment => withSegText segment (maskSegmentText (seg_text segment)))
        (segments transcription) in
  withTextAndSegments transcription maskedText maskedSegments.

(** [s.includes(sub)] *)
Definition includes (s sub : jsstring) : bool :=
  match indexOf s sub with Some _ => true | None => false end.

(** ** AI-assisted PII masker (services/piiMasking.ts) *)

Inductive result (E A : Type) : Type :=
| Ok (a : A)
| Throw (e : E).
Arguments Ok {E A} a.
Arguments Throw {E A} e.

(** The shapes of a generation response the masker looks at:
    [response.text] (absent, a string, or a method), the text of the first
    part of the first candidate, or a bare string. *)
Inductive textField : Type :=
| TextAbsent
| TextString (s : jsstring)
| TextMethod (returns : jsstring).

Inductive response : Type :=
| RespObject (text_ : textField) (candidateText : option jsstring)
| RespString (s : jsstring).

(** What [Promise.race([apiPromise, timeoutPromise])] settles to. *)
Inductive genOutcome : Type :=
| GenRejects (message : jsstring)
| GenTimeout
| GenResolves (r : response).

Definition nonEmpty (s : jsstring) : bool :=
  match s with [] => false | _ :: _ => true end.

(** The double and the single quote. *)
Definition isQuote (c : N) : bool := (c =? 34)%N || (c =? 39)%N.

(** [/^["']|["']$/g] *)
Definition reSurroundingQuote : regex :=
  Alt (Seq Bol (Char isQuote)) (Seq (Char isQuote) Eol).

(** What [getAI] reads.  [processDeclared]: whether the global [process]
    exists where the module runs (Node, or a bundler that defines it); in
    a browser bundle without it, evaluating [process.env] throws a
    ReferenceError.  [API_KEY] is [process.env.API_KEY] and [VITE_API_KEY]
    is [import.meta.env.VITE_API_KEY], [None] when the property or the
    object it is read from is undefined. *)
Record ClientEnv : Type := {
  processDeclared : bool;
  API_KEY : option jsstring;
  VITE_API_KEY : option jsstring
}.

(** [a || b] on optional strings: the empty string is falsy. *)
Definition orElse (a : option jsstring) (b : jsstring) : jsstring :=
  match a with
  | Some s => if nonEmpty s then s else b
  | None => b
  end.

(** "API_KEY nerastas. Prašome sukurti .env.local failą su jūsų Gemini API
    raktu." *)
Definition apiKeyMissing : jsstring :=
  js "API_KEY nerastas. Pra" ++ [353%N] ++ js "ome sukurti .env.local fail"
  ++ [261%N] ++ js " su j" ++ [363%N; 115%N; 371%N] ++ js " Gemini API raktu.".

(** The message of the ReferenceError for an undeclared [process]. *)
Definition processNotDefined : jsstring := js "process is not defined".

(** [getAI]: the key the client is built with, or the message of the
    thrown error.  [process.env] is the first operand evaluated. *)
Definition getAI (env : ClientEnv) : result jsstring jsstring :=
  if negb (processDeclared env) then Throw processNotDefined
  else
    let apiKey := orElse (API_KEY env) (orElse (VITE_API_KEY env) []) in
    if nonEmpty apiKey then Ok apiKey else Throw apiKeyMissing.

Definition modelNames : list jsstring :=
  [js "gemini-2.5-flash-preview-native-audio-dialog"; js "gemini-2.5-pro"].

(** The masked text read off a response, before clean-up. *)
Definition responseText (r : response) : jsstring :=
  match r with
  | RespObject tf cand =>
      let fromCandidate :=
        match cand with
        | Some t => if nonEmpty t then t else []
        | None => []
        end in
      match tf with
      | TextMethod s => s
      | TextString s => if nonEmpty s then s else fromCandidate
      | TextAbsent => fromCandidate
      end
  | RespString s => s
  end.

(** [maskedText.trim().replace(/^["']|["']$/g, '')] *)
Definition cleanResponse (maskedText : jsstring) : jsstring :=
  replaceAll reSurroundingQuote [] (trim maskedText).

(** Best-effort masked text of one segment, sliced out of the masked blob
    at the offset the segment has in the original text. *)
Definition reconcileSegment (transcription : Transcription)
           (maskedText : jsstring) (segment : TranscriptionSegment)
  : TranscriptionSegment :=
  let maskedSegmentText :=
    match indexOf (text transcription) (seg_text segment) with
    | Some segmentIndex =>
        let beforeSegment := substring (text transcription) 0 segmentIndex in
        let maskedBefore :=
          substring maskedText 0
                    (Nat.min (length beforeSegment) (length maskedText)) in
        let remainingLength :=
          Nat.min (length (seg_text segment))
                  (length maskedText - length maskedBefore) in
        if 0 <? remainingLength
        then substring maskedText (length maskedBefore)
                       (length maskedBefore + remainingLength)
        else seg_text segment
    | None => maskSegmentText (seg_text segment)
    end in
  withSegText segment maskedSegmentText.

Section MaskPII.
(** The instruction text around the interpolated transcript. *)
Variables promptHead promptTail : jsstring.

(** [ai.models.generateContent] raced against the 90 s timer, for a
    client built with the given key. *)
Variable generateContent :
  forall (apiKey modelName prompt : jsstring), genOutcome.

Definition buildPrompt (transcription : Transcription) : jsstring :=
  promptHead ++ text transcription ++ promptTail.

(** One turn of the model loop: [Some] is the [return] of a successful
    attempt, [None] the [continue] of the [catch]. *)
Definition attempt (apiKey : jsstring) (transcription : Transcription)
           (modelName : jsstring) : option Transcription :=
  match generateContent apiKey modelName (buildPrompt transcription) with
  | GenRejects _ => None
  | GenTimeout => None
  | GenResolves response =>
      let maskedText := cleanResponse (responseText response) in
      if nonEmpty maskedText
      then Some (withTextAndSegments transcription maskedText
                   (map (reconcileSegment transcription maskedText)
                        (segments transcription)))
      else None
  end.

Fixpoint tryModels (apiKey : jsstring) (transcription : Transcription)
         (names : list jsstring) : option Transcription :=
  match names with
  | [] => None
  | modelName :: rest =>
      match attempt apiKey transcription modelName with
      | Some masked => Some masked
      | None => tryModels apiKey transcription rest
      end
  end.

(** [getAI()] runs before the [try]; inside it every failure of an
    attempt is caught and the loop falls through to the regex masker. *)
Definition maskPII (env : ClientEnv) (transcription : Transcription)
  : result jsstring Transcription :=
  match getAI env with
  | Throw e => Throw e
  | Ok apiKey =>
      match tryModels apiKey transcription modelNames with
      | Some masked => Ok masked
      | None => Ok (maskWithRegex transcription)
      end
  end.

(** A candidate model fails: the call rejects, the timer wins, or the
    cleaned response text is empty. *)
Definition modelFails (o : genOutcome) : Prop :=
  match o with
  | GenRejects _ => True
  | GenTimeout => True
  | GenResolves r => cleanResponse (responseText r) = []
  end.
End MaskPII.


(** ** Bytes, UTF-8 and base64 (platform functions) *)

Definition bytes := list Byte.byte.

Definition byteOfN (n : N) : Byte.byte :=
  match Byte.of_N (n mod 256) with
  | Some b => b
  | None => Byte.x00
  end.

Definition isHighSurrogate (c : N) : bool := inRange 55296 56319 c.
Definition isLowSurrogate (c : N) : bool := inRange 56320 57343 c.

(** The UTF-8 bytes of a scalar value. *)
Definition utf8OfCodePoint (cp : N) : bytes :=
  (if cp <? 128 then [byteOfN cp]
   else if cp <? 2048 then [byteOfN (192 + cp / 64); byteOfN (128 + cp mod 64)]
   else if cp <? 65536 then
     [byteOfN (224 + cp / 4096); byteOfN (128 + (cp / 64) mod 64);
      byteOfN (128 + cp mod 64)]
   else
     [byteOfN (240 + cp / 262144); byteOfN (128 + (cp / 4096) mod 64);
      byteOfN (128 + (cp / 64) mod 64); byteOfN (128 + cp mod 64)])%N.

Definition REPLACEMENT : N := 65533.

(** [new TextEncoder().encode(s)]: surrogate pairs are combined, an
    unpaired surrogate is encoded as U+FFFD. *)
Fixpoint textEncode (s : jsstring) : bytes :=
  match s with
  | [] => []
  | c :: s' =>
      if isHighSurrogate c then
        match s' with
        | d :: s'' =>
            if isLowSurrogate d
            then utf8OfCodePoint (65536 + (c - 55296) * 1024 + (d - 56320))
                   ++ textEncode s''
            else utf8OfCodePoint REPLACEMENT ++ textEncode s'
        | [] => utf8OfCodePoint REPLACEMENT
        end
      else if isLowSurrogate c then utf8OfCodePoint REPLACEMENT ++ textEncode s'
      else utf8OfCodePoint c ++ textEncode s'
  end.

Definition byteIn (lo hi : N) (b : Byte.byte) : bool :=
  inRange lo hi (Byte.to_N b).

Definition contBits (b : Byte.byte) : N := (Byte.to_N b - 128)%N.

(** The UTF-8 decoder of the Encoding standard in replacement mode: a
    byte that cannot continue a sequence ends it with U+FFFD and is
    decoded again as the start of the next one. *)
Fixpoint utf8Decode (bs : bytes) : list N :=
  match bs with
  | [] => []
  | b :: r1 =>
      let n := Byte.to_N b in
      if (n <? 128)%N then n :: utf8Decode r1
      else if inRange 194 223 n then
        match r1 with
        | [] => [REPLACEMENT]
        | b2 :: r2 =>
            if byteIn 128 191 b2
            then ((n - 192) * 64 + contBits b2)%N :: utf8Decode r2
            else REPLACEMENT :: utf8Decode r1
        end
      else if inRange 224 239 n then
        let lo := if (n =? 224)%N then 160%N else 128%N in
        let hi := if (n =? 237)%N then 159%N else 191%N in
        match r1 with
        | [] => [REPLACEMENT]
        | b2 :: r2 =>
            if byteIn lo hi b2 then
              match r2 with
              | [] => [REPLACEMENT]
              | b3 :: r3 =>
                  if byteIn 128 191 b3
                  then ((n - 224) * 4096 + contBits b2 * 64 + contBits b3)%N
                         :: utf8Decode r3
                  else REPLACEMENT :: utf8Decode r2
              end
            else REPLACEMENT :: utf8Decode r1
        end
      else if inRange 240 244 n then
        let lo := if (n =? 240)%N then 144%N else 128%N in
        let hi := if (n =? 244)%N then 143%N else 191%N in
        match r1 with
        | [] => [REPLACEMENT]
        | b2 :: r2 =>
            if byteIn lo hi b2 then
              match r2 with
              | [] => [REPLACEMENT]
              | b3 :: r3 =>
                  if byteIn 128 191 b3 then
                    match r3 with
                    | [] => [REPLACEMENT]
                    | b4 :: r4 =>
                        if byteIn 128 191 b4
                        then ((n - 240) * 262144 + contBits b2 * 4096
                              + contBits b3 * 64 + contBits b4)%N
                               :: utf8Decode r4
                        else REPLACEMENT :: utf8Decode r3
                    end
                  else REPLACEMENT :: utf8Decode r2
              end
            else REPLACEMENT :: utf8Decode r1
        end
      else REPLACEMENT :: utf8Decode r1
  end.

(** The code units of a scalar value. *)
Definition utf16OfCodePoint (cp : N) : jsstring :=
  (if cp <? 65536 then [cp]
   else [55296 + (cp - 65536) / 1024; 56320 + (cp - 65536) mod 1024])%N.

(** The byte order mark is EF BB BF. *)
Definition stripBOM (bs : bytes) : bytes :=
  match bs with
  | b1 :: b2 :: b3 :: rest =>
      if ((Byte.to_N b1 =? 239) && (Byte.to_N b2 =? 187)
          && (Byte.to_N b3 =? 191))%N
      then rest else bs
  | _ => bs
  end.

(** [new TextDecoder().decode(bs)]: UTF-8, not fatal, and with the default
    [ignoreBOM = false] a leading byte order mark is dropped. *)
Definition textDecode (bs : bytes) : jsstring :=
  flat_map utf16OfCodePoint (utf8Decode (stripBOM bs)).

(** Well-formed UTF-16: code units below 2^16, every surrogate paired. *)
Fixpoint wellFormed (s : jsstring) : bool :=
  match s with
  | [] => true
  | c :: s' =>
      if isHighSurrogate c then
        match s' with
        | d :: s'' => isLowSurrogate d && wellFormed s''
        | [] => false
        end
      else negb (isLowSurrogate c) && (c <? 65536)%N && wellFormed s'
  end.

Definition BOM : N := 65279.

Definition startsWithBOM (s : jsstring) : bool :=
  match s with
  | c :: _ => (c =? BOM)%N
  | [] => false
  end.

(** The base64 alphabet. *)
Definition b64char (v : N) : N :=
  (if v <? 26 then 65 + v
   else if v <? 52 then 97 + (v - 26)
   else if v <? 62 then 48 + (v - 52)
   else if v =? 62 then 43 else 47)%N.

Definition b64val (c : N) : option N :=
  (if inRange 65 90 c then Some (c - 65)
   else if inRange 97 122 c then Some (c - 97 + 26)
   else if inRange 48 57 c then Some (c - 48 + 52)
   else if c =? 43 then Some 62
   else if c =? 47 then Some 63
   else None)%N.

Definition PAD : N := 61.

(** [encode] of std/encoding/base64.ts: RFC 4648 with padding. *)
Fixpoint encodeBase64 (bs : bytes) : jsstring :=
  match bs with
  | [] => []
  | [a] =>
      let a := Byte.to_N a in
      [b64char (a / 4); b64char ((a mod 4) * 16); PAD; PAD]%N
  | [a; b] =>
      let a := Byte.to_N a in
      let b := Byte.to_N b in
      [b64char (a / 4); b64char ((a mod 4) * 16 + b / 16);
       b64char ((b mod 16) * 4); PAD]%N
  | a :: b :: c :: rest =>
      let a := Byte.to_N a in
      let b := Byte.to_N b in
      let c := Byte.to_N c in
      [b64char (a / 4); b64char ((a mod 4) * 16 + b / 16);
       b64char ((b mod 16) * 4 + c / 64); b64char (c mod 64)]%N
      ++ encodeBase64 rest
  end.

Definition isAsciiWhitespace (c : N) : bool :=
  (c =? 9)%N || (c =? 10)%N || (c =? 12)%N || (c =? 13)%N || (c =? 32)%N.

Definition stripPadding (d : jsstring) : jsstring :=
  if (length d mod 4 =? 0)%nat then
    match rev d with
    | p1 :: p2 :: r =>
        if (p1 =? PAD)%N then
          if (p2 =? PAD)%N then rev r else rev (p2 :: r)
        else d
    | [p1] => if (p1 =? PAD)%N then [] else d
    | [] => d
    end
  else d.

Fixpoint b64vals (d : jsstring) : option (list N) :=
  match d with
  | [] => Some []
  | c :: d' =>
      match b64val c, b64vals d' with
      | Some v, Some vs => Some (v :: vs)
      | _, _ => None
      end
  end.

Fixpoint b64groups (vs : list N) : bytes :=
  match vs with
  | a :: b :: c :: d :: rest =>
      [byteOfN (a * 4 + b / 16); byteOfN ((b mod 16) * 16 + c / 4);
       byteOfN ((c mod 4) * 64 + d)]%N ++ b64groups rest
  | [a; b; c] => [byteOfN (a * 4 + b / 16); byteOfN ((b mod 16) * 16 + c / 4)]%N
  | [a; b] => [byteOfN (a * 4 + b / 16)%N]
  | _ => []
  end.

(** [atob] followed by [charCodeAt] on every character (forgiving base64
    decoding); [None] is the thrown [InvalidCharacterError]. *)
Definition decodeBase64 (b64 : jsstring) : option bytes :=
  let d := stripPadding (filter (fun c => negb (isAsciiWhitespace c)) b64) in
  if (length d mod 4 =? 1)%nat then None
  else option_map b64groups (b64vals d).


(** ** Storage encryption (upload/index.ts, transcription/index.ts,
       analysis/index.ts) *)

(** [String.prototype.match] with a global pattern: the matched texts. *)
Fixpoint match_from (r : regex) (prev : option N) (s : jsstring) (skip : nat)
  : list jsstring :=
  match skip with
  | S n =>
      match s with
      | [] => []
      | c :: s' => match_from r (Some c) s' n
      end
  | O =>
      match exec r prev s with
      | Some len =>
          firstn len s ::
          match s with
          | [] => []
          | c :: s' => match_from r (Some c) s' (pred len)
          end
      | None =>
          match s with
          | [] => []
          | c :: s' => match_from r (Some c) s' 0
          end
      end
  end.

Definition matchAll (r : regex) (s : jsstring) : list jsstring :=
  match_from r None s 0.

(** [/.{1,2}/g] *)
Definition reOneOrTwo : regex :=
  Rep 1 (Some 2) (Char (fun c => negb (isLineTerminator c))).

Definition hexDigitVal (c : N) : option N :=
  (if inRange 48 57 c then Some (c - 48)
   else if inRange 97 102 c then Some (c - 87)
   else if inRange 65 70 c then Some (c - 55)
   else None)%N.

Fixpoint hexPrefixValue (acc : option N) (s : jsstring) : option N :=
  match s with
  | [] => acc
  | c :: s' =>
      match hexDigitVal c with
      | Some v =>
          hexPrefixValue
            (Some (16 * match acc with Some a => a | None => 0 end + v)%N) s'
      | None => acc
      end
  end.

(** [parseInt(s, 16)], with [None] for NaN: leading white space and a sign
    are skipped, then an optional 0x prefix, then the longest run of
    hexadecimal digits is read. *)
Definition parseInt16 (s : jsstring) : option Z :=
  let s := dropWhile isSpace s in
  let signed :=
    match s with
    | c :: s' =>
        if isChar "-" c then (true, s')
        else if isChar "+" c then (false, s')
        else (false, s)
    | [] => (false, [])
    end in
  let digits :=
    match snd signed with
    | z :: x :: s' =>
        if isChar "0" z && (isChar "x" x || isChar "X" x) then s'
        else snd signed
    | _ => snd signed
    end in
  match hexPrefixValue None digits with
  | None => None
  | Some v => Some (if fst signed then (- Z.of_N v)%Z else Z.of_N v)
  end.

(** The element conversion of [Uint8Array.from]: NaN becomes 0, integers
    wrap modulo 256. *)
Definition toUint8 (n : option Z) : Byte.byte :=
  match n with
  | None => Byte.x00
  | Some z => byteOfN (Z.to_N (z mod 256))
  end.

(** [Uint8Array.from(key.match(/.{1,2}/g)?.map(b => parseInt(b, 16)) || [])] *)
Definition keyBuffer (encryptionKey : jsstring) : bytes :=
  map (fun byte => toUint8 (parseInt16 byte)) (matchAll reOneOrTwo encryptionKey).

(** Raw AES keys have 128, 192 or 256 bits. *)
Definition validKeyLength (raw : bytes) : bool :=
  (length raw =? 16) || (length raw =? 24) || (length raw =? 32).

Inductive platformError : Type :=
| KeyImportFailed
| InvalidBase64
| DecryptionFailed.

(** AES-GCM of Web Crypto with the default 128-bit tag, as an interface:
    the ciphertext carries the tag, decryption of what encryption produced
    gives the data back, and anything shorter than a tag is refused. *)
Record AesGcm : Type := {
  gcmEncrypt : bytes -> bytes -> bytes -> bytes;
  gcmDecrypt : bytes -> bytes -> bytes -> option bytes;
  errorMessage : platformError -> jsstring;
  gcm_roundtrip : forall key iv data,
      validKeyLength key = true -> length iv = 12 ->
      gcmDecrypt key iv (gcmEncrypt key iv data) = Some data;
  gcm_tag : forall key iv data,
      length data < 16 -> gcmDecrypt key iv data = None
}.

(** What [decryptFromStorage] returns for an envelope: the envelope as it
    is, or [JSON.parse] of the decrypted text. *)
Inductive decryptedPayload : Type :=
| PayloadItself
| ParsedFrom (text_ : jsstring).

(** Calls into [crypto.subtle], in the order they are made. *)
Inductive cryptoCall : Type :=
| ImportKey (raw : bytes)
| SubtleEncrypt (iv data : bytes)
| SubtleDecrypt (iv data : bytes).

Record EdgeEnv : Type := {
  ENCRYPTION_KEY : option jsstring
}.

Section Crypto.
Variable aes : AesGcm.

(** upload/index.ts.  [iv] is what [crypto.getRandomValues] filled in.
    Without a key, and when anything inside the [try] throws, the text
    comes back unchanged. *)
Definition encryptForStorage (env : EdgeEnv) (iv : bytes) (text_ : jsstring)
  : jsstring :=
  match ENCRYPTION_KEY env with
  | None => text_
  | Some encryptionKey =>
      if negb (nonEmpty encryptionKey) then text_
      else
        let keyBuffer := keyBuffer encryptionKey in
        if validKeyLength keyBuffer then
          let data := textEncode text_ in
          let encrypted := gcmEncrypt aes keyBuffer iv data in
          let combined := iv ++ encrypted in
          encodeBase64 combined
        else text_
  end.

Definition failedToDecrypt (e : platformError) : jsstring :=
  js "Failed to decrypt data: " ++ errorMessage aes e.

(** transcription/index.ts *)
Definition decryptForStorage (ciphertext encryptionKey : jsstring)
  : list cryptoCall * result jsstring jsstring :=
  let keyBuffer := keyBuffer encryptionKey in
  if validKeyLength keyBuffer then
    match decodeBase64 ciphertext with
    | None => ([ImportKey keyBuffer], Throw (failedToDecrypt InvalidBase64))
    | Some combined =>
        let iv := firstn 12 combined in
        let encrypted := skipn 12 combined in
        ([ImportKey keyBuffer; SubtleDecrypt iv encrypted],
         match gcmDecrypt aes keyBuffer iv encrypted with
         | Some decrypted => Ok (textDecode decrypted)
         | None => Throw (failedToDecrypt DecryptionFailed)
         end)
    end
  else ([ImportKey keyBuffer], Throw (failedToDecrypt KeyImportFailed)).

Definition invalidPayload : jsstring := js "Invalid encrypted payload.".
Definition keyNotSet : jsstring :=
  js "ENCRYPTION_KEY not set on server; cannot decrypt transcription.".

(** analysis/index.ts, [decryptFromStorage] on an envelope
    [{ encrypted: true, data }] whose [data] is a string (a null payload
    and one without [encrypted] are returned before).  An envelope with
    empty [data] is returned as it is; otherwise the decoded envelope is
    measured before the cipher is called. *)
Definition decryptFromStorage (env : EdgeEnv) (data : jsstring)
  : list cryptoCall * result jsstring decryptedPayload :=
  if negb (nonEmpty data) then ([], Ok PayloadItself)
  else
  match ENCRYPTION_KEY env with
  | None => ([], Throw keyNotSet)
  | Some encryptionKey =>
      if negb (nonEmpty encryptionKey) then ([], Throw keyNotSet)
      else
        let keyBuffer := keyBuffer encryptionKey in
        if validKeyLength keyBuffer then
          match decodeBase64 data with
          | None => ([ImportKey keyBuffer], Throw (errorMessage aes InvalidBase64))
          | Some combined =>
              if length combined <? 13
              then ([ImportKey keyBuffer], Throw invalidPayload)
              else
                let iv := firstn 12 combined in
                let ciphertext := skipn 12 combined in
                ([ImportKey keyBuffer; SubtleDecrypt iv ciphertext],
                 match gcmDecrypt aes keyBuffer iv ciphertext with
                 | Some decrypted => Ok (ParsedFrom (textDecode decrypted))
                 | None => Throw (errorMessage aes DecryptionFailed)
                 end)
          end
        else ([ImportKey keyBuffer], Throw (errorMessage aes KeyImportFailed))
  end.
End Crypto.


(** ** Summary redaction (upload/index.ts) *)

Definition isAlnumPunctI (c : N) : bool :=
  isUpper c || isLower c || isDigit c
  || isChar "." c || isChar "_" c || isChar "%" c || isChar "+" c
  || isChar "-" c.

Definition isAlpha (c : N) : bool := isUpper c || isLower c.
Definition isAlnum (c : N) : bool := isUpper c || isLower c || isDigit c.

(** With the [i] flag and no [u] flag a class of ASCII letters matches
    both cases and nothing else. *)
(** [/\b[A-Z0-9._%+-]+@[A-Z0-9.-]+\.[A-Z]{2,}\b/gi] *)
Definition reSummaryEmail : regex :=
  seqs [WordB; plus (Char isAlnumPunctI); chr "@"; plus (Char isEmailDomain);
        chr "."; Rep 2 None (Char isAlpha); WordB].

Definition isPhoneBody (c : N) : bool :=
  isDigit c || isSpace c || isChar "(" c || isChar ")" c || isChar "." c
  || isChar "-" c.

(** [/(\+?\d[\d\s().-]{6,}\d)/g] *)
Definition reSummaryPhone : regex :=
  seqs [opt (chr "+"); digit; Rep 6 None (Char isPhoneBody); digit].

(** [/\b\d{11}\b/g] *)
Definition reSummaryCode : regex := seqs [WordB; Rep 11 (Some 11) digit; WordB].

(** [/\bLT\d{2}[A-Z0-9]{10,30}\b/gi] *)
Definition reSummaryIban : regex :=
  seqs [WordB; Char (fun c => isChar "L" c || isChar "l" c);
        Char (fun c => isChar "T" c || isChar "t" c);
        Rep 2 (Some 2) digit; Rep 10 (Some 30) (Char isAlnum); WordB].

(** A-Z and the capital letters with Lithuanian diacritics. *)
Definition isCapitalLt (c : N) : bool :=
  isUpper c
  || existsb (N.eqb c) [260; 268; 280; 278; 302; 352; 370; 362; 381]%N.

Definition isSmallLt (c : N) : bool :=
  isLower c
  || existsb (N.eqb c) [261; 269; 281; 279; 303; 353; 371; 363; 382]%N.

(** Two title-case words separated by one space. *)
Definition reSummaryName : regex :=
  seqs [WordB; Char isCapitalLt; plus (Char isSmallLt); chr " ";
        Char isCapitalLt; plus (Char isSmallLt); WordB].

(** [/\s{2,}/g] *)
Definition reSpaces : regex := Rep 2 None space.

Definition EL_PASTAS : jsstring := js "[EL. PA" ++ [352%N] ++ js "TAS]".
Definition TEL_NR : jsstring := js "[TEL. NR.]".
Definition ASMENS_KODAS : jsstring := js "[ASMENS KODAS]".
Definition IBAN : jsstring := js "[IBAN]".
Definition VARDAS_PAVARDE : jsstring := js "[VARDAS PAVARD" ++ [278%N] ++ js "]".

Definition redactSensitiveSummary (text_ : jsstring) : jsstring :=
  if negb (nonEmpty text_) then text_
  else
    let out := text_ in
    let out := replaceAll reSummaryEmail EL_PASTAS out in
    let out := replaceAll reSummaryPhone TEL_NR out in
    let out := replaceAll reSummaryCode ASMENS_KODAS out in
    let out := replaceAll reSummaryIban IBAN out in
    let out := replaceAll reSummaryName VARDAS_PAVARDE out in
    let out := trim (replaceAll reSpaces (js " ") out) in
    out.

(** ** Upload pipeline: what is stored and returned (upload/index.ts) *)

(** The value of the [transcription] column: the plaintext-shaped object
    or the envelope [{ encrypted: true, data }]. *)
Inductive StoredTranscription : Type :=
| Plain (t : Transcription)
| Envelope (data : jsstring).

(** The parsed analysis document.  A missing or null property is [None];
    a score is whatever value the model put there, the summary a
    string. *)
Record GeneratedAnalysis : Type := {
  gen_sentimentScore : option jsonValue;
  gen_customerSatisfaction : option jsonValue;
  gen_agentPerformance : option jsonValue;
  gen_warnings : option (list jsstring);
  gen_summary : option jsstring;
  gen_metrics : option (list (jsstring * number * jsstring))
}.

Record AnalysisResult : Type := {
  analysis_id : jsstring;
  sentimentScore : number;
  customerSatisfaction : number;
  agentPerformance : number;
  warnings : list jsstring;
  summary : jsstring;
  metrics : list (jsstring * number * jsstring);
  complianceChecked : bool
}.

(** [x ?? 50] *)
Definition orFifty (x : option jsonValue) : jsonValue :=
  match x with
  | Some v => v
  | None => JsonNumber (Finite 50)
  end.

(** [Math.max(0, Math.min(100, x ?? 50))] *)
Definition normalizeScore (x : option jsonValue) : number :=
  mathMax (Finite 0) (mathMin (Finite 100) (toNumber (orFifty x))).

Definition orEmptyList {T : Type} (x : option (list T)) : list T :=
  match x with
  | Some l => l
  | None => []
  end.

Definition buildAnalysisResult (newId : jsstring) (analysis : GeneratedAnalysis)
  : AnalysisResult :=
  let sentimentScore := normalizeScore (gen_sentimentScore analysis) in
  let customerSatisfaction := normalizeScore (gen_customerSatisfaction analysis) in
  let agentPerformance := normalizeScore (gen_agentPerformance analysis) in
  let safeSummary := redactSensitiveSummary (orElse (gen_summary analysis) []) in
  {| analysis_id := newId;
     sentimentScore := sentimentScore;
     customerSatisfaction := customerSatisfaction;
     agentPerformance := agentPerformance;
     warnings := orEmptyList (gen_warnings analysis);
     summary := safeSummary;
     metrics := orEmptyList (gen_metrics analysis);
     complianceChecked := true |}.

(** The columns written by the two updates of the record. *)
Inductive recordStatus : Type :=
| Pending | Transcribing | Analyzing | Completed | Failed.

Record RecordUpdate : Type := {
  upd_transcription : StoredTranscription;
  upd_analysis : option AnalysisResult;
  upd_status : recordStatus
}.

(** The body of the 200 response: the full payload, or the metadata-only
    payload [safeJsonResponse] falls back to. *)
Record FallbackAnalysis : Type := {
  fb_id : jsstring;
  fb_sentimentScore : number;
  fb_customerSatisfaction : number;
  fb_agentPerformance : number;
  fb_warningsCount : nat;
  fb_summaryLength : nat
}.

Inductive UploadResponse : Type :=
| FullPayload (recordId : jsstring) (transcription : Transcription)
              (analysis : AnalysisResult)
| FallbackPayload (recordId : jsstring) (textLength segmentsCount : nat)
                  (analysis : FallbackAnalysis).

Section Upload.
Variable aes : AesGcm.

(** [JSON.stringify] of a transcription object, and of the full response
    payload ([None] when it throws). *)
Variable stringifyTranscription : Transcription -> jsstring.
Variable stringifyPayload :
  jsstring -> Transcription -> AnalysisResult -> option jsstring.

(** From the assembled raw result to the first update of the record. *)
Definition storeTranscription (env : EdgeEnv) (iv : bytes)
           (rawTranscriptionResult : Transcription)
  : Transcription * RecordUpdate :=
  let fullText := text rawTranscriptionResult in
  let segments_ := segments rawTranscriptionResult in
  let rawTranscriptionForStorage :=
    withTextAndSegments rawTranscriptionResult fullText segments_ in
  let transcriptionToEncrypt :=
    stringifyTranscription rawTranscriptionForStorage in
  let encryptedTranscriptionData :=
    encryptForStorage aes env iv transcriptionToEncrypt in
  let transcriptionResultForDB :=
    if negb (jsstring_eqb encryptedTranscriptionData transcriptionToEncrypt)
    then Envelope encryptedTranscriptionData
    else Plain rawTranscriptionForStorage in
  (rawTranscriptionForStorage,
   {| upd_transcription := transcriptionResultForDB;
      upd_analysis := None;
      upd_status := Analyzing |}).

(** [safeJsonResponse] *)
Definition safeJsonResponse (recordId : jsstring) (t : Transcription)
           (a : AnalysisResult) : UploadResponse :=
  let fallback :=
    FallbackPayload recordId (length (text t)) (length (segments t))
      {| fb_id := analysis_id a;
         fb_sentimentScore := sentimentScore a;
         fb_customerSatisfaction := customerSatisfaction a;
         fb_agentPerformance := agentPerformance a;
         fb_warningsCount := length (warnings a);
         fb_summaryLength := length (summary a) |} in
  match stringifyPayload recordId t a with
  | None => fallback
  | Some fullJson =>
      if negb (nonEmpty fullJson) then fallback
      else if (250000 <? N.of_nat (length fullJson))%N then fallback
      else FullPayload recordId t a
  end.

(** From the parsed analysis to the second update and the response. *)
Definition finishAnalysis (recordId newId : jsstring)
           (transcriptionResultForDB : StoredTranscription)
           (rawTranscriptionForStorage : Transcription)
           (analysis : GeneratedAnalysis)
  : RecordUpdate * UploadResponse :=
  let analysisResult := buildAnalysisResult newId analysis in
  ({| upd_transcription := transcriptionResultForDB;
      upd_analysis := Some analysisResult;
      upd_status := Completed |},
   safeJsonResponse recordId rawTranscriptionForStorage analysisResult).
End Upload.


(** ** Tables, row-level security and the Edge Function handlers *)

Inductive userRole : Type := RoleUser | RoleAdmin.

Record CallRecord : Type := {
  user_id : option jsstring;
  audio_id : jsstring;
  file_name : jsstring;
  transcription : option StoredTranscription;
  analysis : option AnalysisResult;
  status : recordStatus
}.

(** A table is keyed by its primary key [id]. *)
Definition table (V : Type) : Type := jsstring -> option V.

Definition remove {V : Type} (t : table V) (key : jsstring) : table V :=
  fun k => if jsstring_eqb k key then None else t k.

Record Database : Type := {
  call_records : table CallRecord;
  user_profiles : table userRole
}.

(** A client carries the caller's session, or the service role key, which
    bypasses row-level security. *)
Inductive client : Type :=
| AsUser (uid : jsstring)
| ServiceRole.

Definition isAdminUser (db : Database) (uid : jsstring) : bool :=
  match user_profiles db uid with
  | Some RoleAdmin => true
  | _ => false
  end.

Definition ownedBy (row : CallRecord) (uid : jsstring) : bool :=
  match user_id row with
  | Some owner => jsstring_eqb owner uid
  | None => false
  end.

(** The SELECT, UPDATE and DELETE policies on [call_records]:
    [auth.uid() = user_id OR EXISTS (admin profile of auth.uid())]. *)
Definition policyAllows (db : Database) (c : client) (row : CallRecord) : bool :=
  match c with
  | ServiceRole => true
  | AsUser uid => ownedBy row uid || isAdminUser db uid
  end.

(** [.from('call_records').select(..).eq('id', id).single()] *)
Definition selectRecord (db : Database) (c : client) (recordId : jsstring)
  : option CallRecord :=
  match call_records db recordId with
  | Some row => if policyAllows db c row then Some row else None
  | None => None
  end.

(** [.from('user_profiles').select('role').eq('id', uid).single()]; a
    session may read its own profile only. *)
Definition selectRole (db : Database) (c : client) (uid : jsstring)
  : option userRole :=
  match c with
  | ServiceRole => user_profiles db uid
  | AsUser me => if jsstring_eqb me uid then user_profiles db uid else None
  end.

(** [.from('call_records').delete().eq('id', id).select()]: the deleted
    rows and the table afterwards. *)
Definition deleteRecord (db : Database) (c : client) (recordId : jsstring)
  : list CallRecord * Database :=
  match selectRecord db c recordId with
  | Some row =>
      ([row], {| call_records := remove (call_records db) recordId;
                 user_profiles := user_profiles db |})
  | None => ([], db)
  end.

Inductive method : Type := GET | POST | OPTIONS | OtherMethod.

Inductive body : Type :=
| NoBody
| ErrorJson (error : jsstring)
| TranscriptionJson (t : option Transcription)
| OkJson.

Record Response : Type := {
  resp_status : nat;
  resp_body : body
}.

Definition respond (st : nat) (b : body) : Response :=
  {| resp_status := st; resp_body := b |}.

(** [req_recordId] is the last segment of the URL path for the read
    functions and the [id] string of the JSON body for delete-record
    ([None] when there is none, or when it is not a string);
    [req_bodyNull] says that the body is the JSON text [null], which only
    delete-record reads. *)
Record Request : Type := {
  req_method : method;
  req_authorization : option jsstring;
  req_recordId : option jsstring;
  req_bodyNull : bool
}.

(** What [JSON.parse] makes of a decrypted text, as far as the handler
    reads it: it throws; it yields [null], and reading a property of
    [null] throws a TypeError with the given message; it yields a value
    without the properties of a transcription (a number, a string, an
    array); or it yields an object, read as a transcription. *)
Inductive parsedDocument : Type :=
| ParseThrows
| ParsedNull (typeError : jsstring)
| ParsedBare
| ParsedObject (t : Transcription).

Section Handlers.
Variable aes : AesGcm.

(** [supabase.auth.getUser()] for an Authorization header: the user id,
    or the message of the authentication error. *)
Variable getUser : jsstring -> result jsstring jsstring.

(** [JSON.parse] of a decrypted transcription. *)
Variable parseTranscription : jsstring -> parsedDocument.

(** The POST branch that transcribes a record without transcription: the
    transcript it stores and returns, or the message of the error it
    throws, and the tables afterwards. *)
Variable generateMissing :
  Database -> jsstring -> CallRecord -> result jsstring Transcription * Database.

(** transcription/index.ts.  [req_recordId] is the last segment of the
    URL path.  The query runs with the caller's session, so row-level
    security decides which rows it sees. *)
Definition serveTranscription (env : EdgeEnv) (db : Database) (req : Request)
  : Response * Database :=
  match req_method req with
  | OPTIONS => (respond 204 NoBody, db)
  | OtherMethod => (respond 405 (ErrorJson (js "Method not allowed")), db)
  | _ =>
    let authHeader := orElse (req_authorization req) [] in
    if negb (nonEmpty authHeader) then
      (respond 401 (ErrorJson (js "Authorization header required")), db)
    else
      match getUser authHeader with
      | Throw _ =>
          (respond 401 (ErrorJson (js "Unauthorized. Please log in.")), db)
      | Ok uid =>
        let recordId := orElse (req_recordId req) [] in
        if negb (nonEmpty recordId) || jsstring_eqb recordId (js "transcription")
        then (respond 400 (ErrorJson (js "Record ID is required")), db)
        else
          match selectRecord db (AsUser uid) recordId with
          | None =>
              (respond 404 (ErrorJson (js "Transcription not found")), db)
          | Some data =>
            match transcription data with
            | None =>
                match req_method req with
                | GET =>
                    (respond 404 (ErrorJson
                       (js "Transcription not available for this record")), db)
                | _ =>
                    let generated := generateMissing db recordId data in
                    (match fst generated with
                     | Ok transcriptionObj =>
                         respond 200 (TranscriptionJson (Some transcriptionObj))
                     | Throw message =>
                         respond 500 (ErrorJson
                           (orElse (Some message)
                                   (js "Failed to retrieve transcription")))
                     end, snd generated)
                end
            | Some (Plain t) => (respond 200 (TranscriptionJson (Some t)), db)
            | Some (Envelope data_) =>
                let encryptionKey := orElse (ENCRYPTION_KEY env) [] in
                if nonEmpty data_ && nonEmpty encryptionKey then
                  match snd (decryptForStorage aes data_ encryptionKey) with
                  | Ok decrypted =>
                      match parseTranscription decrypted with
                      | ParsedObject t =>
                          (respond 200 (TranscriptionJson (Some t)), db)
                      | ParsedBare => (respond 200 (TranscriptionJson None), db)
                      | ParsedNull typeError =>
                          (respond 500 (ErrorJson
                             (orElse (Some typeError)
                                     (js "Failed to retrieve transcription"))),
                           db)
                      | ParseThrows =>
                          (respond 500 (ErrorJson
                             (js "Failed to decrypt transcription")), db)
                      end
                  | Throw _ =>
                      (respond 500 (ErrorJson
                         (js "Failed to decrypt transcription")), db)
                  end
                else (respond 200 (TranscriptionJson None), db)
            end
          end
      end
  end.

Record DeleteEnv : Type := {
  SUPABASE_URL : option jsstring;
  SUPABASE_ANON_KEY : option jsstring;
  SUPABASE_SERVICE_ROLE_KEY : option jsstring
}.

(** The audio bucket.  [listObjects st search] is
    [storage.from('audio-files').list('audio-files', { limit: 100, search })]:
    the names of the objects found, or [None] when the call reports an
    error or throws.  [removeObjects st paths] is the bucket after
    [storage.from('audio-files').remove(paths)]; an error of that call is
    only logged. *)
Variable Storage : Type.
Variable listObjects : Storage -> jsstring -> option (list jsstring).
Variable removeObjects : Storage -> list jsstring -> Storage.

(** The message of the TypeError the engine throws when [null] is
    destructured. *)
Variable destructureMessage : jsstring.

(** Storage objects of a record: upload stores them under
    [audio-files/<audioId>-<timestamp>.<ext>]. *)
Definition removeAudio (st : Storage) (audioId : jsstring) : Storage :=
  match listObjects st (audioId ++ js "-") with
  | Some (f :: files) =>
      let paths := map (fun name => js "audio-files/" ++ name) (f :: files) in
      removeObjects st paths
  | _ => st
  end.

(** What other requests did to the tables between the lookup of the
    record and the DELETE. *)
Variable meanwhile : Database -> Database.

(** delete-record/index.ts.  [req_recordId] is the [id] of the JSON
    body; a body that is not JSON counts as [{ id: "" }], and the body
    [null] makes the destructuring throw, which the outer [catch] turns
    into a 500. *)
Definition serveDelete (env : DeleteEnv) (db : Database) (st : Storage)
           (req : Request) : Response * Database * Storage :=
  match req_method req with
  | OPTIONS => (respond 204 NoBody, db, st)
  | POST =>
    let authHeader := orElse (req_authorization req) [] in
    if negb (nonEmpty authHeader) then
      (respond 401 (ErrorJson (js "Authorization header required")), db, st)
    else
      let supabaseUrl := orElse (SUPABASE_URL env) [] in
      let anonKey := orElse (SUPABASE_ANON_KEY env) [] in
      let serviceRoleKey := orElse (SUPABASE_SERVICE_ROLE_KEY env) [] in
      if negb (nonEmpty supabaseUrl) || negb (nonEmpty anonKey) then
        (respond 500 (ErrorJson (js
           "Server misconfigured (missing SUPABASE_URL or SUPABASE_ANON_KEY)")),
         db, st)
      else
        match getUser authHeader with
        | Throw message =>
            (respond 401 (ErrorJson
               (js "Unauthorized. Please log in. " ++ message)), db, st)
        | Ok uid =>
          if req_bodyNull req then
            (respond 500 (ErrorJson
               (if nonEmpty destructureMessage
                then firstn 500 destructureMessage
                else js "Failed to delete")), db, st)
          else
          let id_ := orElse (req_recordId req) [] in
          if negb (nonEmpty id_) then
            (respond 400 (ErrorJson (js "Record id is required")), db, st)
          else
            let userClient := AsUser uid in
            let admin := if nonEmpty serviceRoleKey then ServiceRole
                         else AsUser uid in
            match selectRecord db admin id_ with
            | None => (respond 404 (ErrorJson (js "Record not found")), db, st)
            | Some record =>
              let isAdmin :=
                match selectRole db admin uid with
                | Some RoleAdmin => true
                | _ => false
                end in
              if negb (ownedBy record uid) && negb isAdmin then
                (respond 403 (ErrorJson (js "Forbidden")), db, st)
              else
                let st' :=
                  if nonEmpty serviceRoleKey && nonEmpty (audio_id record)
                  then removeAudio st (audio_id record) else st in
                let deleteClient := if nonEmpty serviceRoleKey then admin
                                    else userClient in
                let deleted := deleteRecord (meanwhile db) deleteClient id_ in
                match fst deleted with
                | [] =>
                    match selectRecord (snd deleted) admin id_ with
                    | Some _ =>
                        (respond 500 (ErrorJson (js
                           "Record exists but deletion was blocked. Check RLS policies.")),
                         snd deleted, st')
                    | None => (respond 200 OkJson, snd deleted, st')
                    end
                | _ :: _ => (respond 200 OkJson, snd deleted, st')
                end
            end
        end
  | _ => (respond 405 (ErrorJson (js "Method not allowed")), db, st)
  end.
End Handlers.

(** ** CORS headers (getCorsHeaders of the Edge Functions) *)

(** [String.prototype.split] with a separator of one code unit. *)
Fixpoint split (sep : N) (s : jsstring) : list jsstring :=
  match s with
  | [] => [[]]
  | c :: s' =>
      if (c =? sep)%N then [] :: split sep s'
      else match split sep s' with
           | w :: ws => (c :: w) :: ws
           | [] => [[c]]
           end
  end.

Definition COMMA : N := 44.

(** [Array.prototype.includes] on strings. *)
Definition arrayIncludes (l : list jsstring) (x : jsstring) : bool :=
  existsb (jsstring_eqb x) l.

(** An object literal with string values, in the order of its keys. *)
Definition headers := list (jsstring * jsstring).

Fixpoint getHeader (name : jsstring) (h : headers) : option jsstring :=
  match h with
  | [] => None
  | (k, v) :: h' => if jsstring_eqb k name then Some v else getHeader name h'
  end.

Definition ALLOW_ORIGIN := js "Access-Control-Allow-Origin".
Definition ALLOW_METHODS := js "Access-Control-Allow-Methods".
Definition ALLOW_HEADERS := js "Access-Control-Allow-Headers".
Definition ALLOW_CREDENTIALS := js "Access-Control-Allow-Credentials".
Definition allowedRequestHeaders :=
  js "authorization, x-client-info, apikey, content-type".

Record OriginEnv : Type := {
  ALLOWED_ORIGINS : option jsstring
}.

(** [origin && (origin.startsWith('http://localhost:') || ...)], [origin]
    being [req.headers.get('Origin')]. *)
Definition isLocalhost (origin : option jsstring) : bool :=
  match origin with
  | Some o =>
      nonEmpty o
      && (isPrefix (js "http://localhost:") o
          || isPrefix (js "http://127.0.0.1:") o
          || isPrefix (js "http://0.0.0.0:") o)
  | None => false
  end.

(** [origin && allowedOrigins.includes(origin)] *)
Definition isListed (allowedOrigins : list jsstring) (origin : option jsstring)
  : bool :=
  match origin with
  | Some o => nonEmpty o && arrayIncludes allowedOrigins o
  | None => false
  end.

(** upload/index.ts and delete-record/index.ts:
    [Deno.env.get('ALLOWED_ORIGINS')?.split(',') || []]. *)
Module UploadCors.
Definition getCorsHeaders (env : OriginEnv) (origin : option jsstring) : headers :=
  let allowedOrigins :=
    match ALLOWED_ORIGINS env with
    | Some v => split COMMA v
    | None => []
    end in
  if (length allowedOrigins =? 0)%nat then
    [(ALLOW_ORIGIN, js "*");
     (ALLOW_METHODS, js "POST, OPTIONS");
     (ALLOW_HEADERS, allowedRequestHeaders)]
  else if isLocalhost origin then
    [(ALLOW_ORIGIN, orElse origin (js "*"));
     (ALLOW_METHODS, js "POST, OPTIONS");
     (ALLOW_HEADERS, allowedRequestHeaders);
     (ALLOW_CREDENTIALS, js "true")]
  else if isListed allowedOrigins origin then
    [(ALLOW_ORIGIN, orElse origin []);
     (ALLOW_METHODS, js "POST, OPTIONS");
     (ALLOW_HEADERS, allowedRequestHeaders);
     (ALLOW_CREDENTIALS, js "true")]
  else
    [(ALLOW_METHODS, js "POST, OPTIONS");
     (ALLOW_HEADERS, allowedRequestHeaders)].
End UploadCors.

(** transcription/index.ts and analysis/index.ts:
    [(Deno.env.get('ALLOWED_ORIGINS') || '').split(',').map((o) => o.trim())
     .filter(Boolean)]. *)
Module TranscriptionCors.
Definition getCorsHeaders (env : OriginEnv) (origin : option jsstring) : headers :=
  let allowedOrigins :=
    filter nonEmpty (map trim (split COMMA (orElse (ALLOWED_ORIGINS env) []))) in
  if (length allowedOrigins =? 0)%nat then
    [(ALLOW_ORIGIN, js "*");
     (ALLOW_METHODS, js "GET, POST, OPTIONS");
     (ALLOW_HEADERS, allowedRequestHeaders)]
  else if isLocalhost origin then
    [(ALLOW_ORIGIN, orElse origin (js "*"));
     (ALLOW_METHODS, js "GET, POST, OPTIONS");
     (ALLOW_HEADERS, allowedRequestHeaders);
     (ALLOW_CREDENTIALS, js "true")]
  else if isListed allowedOrigins origin then
    [(ALLOW_ORIGIN, orElse origin []);
     (ALLOW_METHODS, js "GET, POST, OPTIONS");
     (ALLOW_HEADERS, allowedRequestHeaders);
     (ALLOW_CREDENTIALS, js "true")]
  else
    [(ALLOW_METHODS, js "GET, POST, OPTIONS");
     (ALLOW_HEADERS, allowedRequestHeaders)].
End TranscriptionCors.

(** security-audit/index.ts: no localhost rule, no credentials, and the
    first configured origin for a caller that is not listed. *)
Module AuditCors.
Definition getCorsHeaders (env : OriginEnv) (origin : option jsstring) : headers :=
  let allowedOrigins :=
    match ALLOWED_ORIGINS env with
    | Some v => split COMMA v
    | None => []
    end in
  match allowedOrigins with
  | [] =>
    [(ALLOW_ORIGIN, js "*");
     (ALLOW_METHODS, js "GET, OPTIONS");
     (ALLOW_HEADERS, allowedRequestHeaders)]
  | first :: _ =>
    if isListed allowedOrigins origin then
      [(ALLOW_ORIGIN, orElse origin []);
       (ALLOW_METHODS, js "GET, OPTIONS");
       (ALLOW_HEADERS, allowedRequestHeaders)]
    else
      [(ALLOW_ORIGIN, first);
       (ALLOW_METHODS, js "GET, OPTIONS");
       (ALLOW_HEADERS, allowedRequestHeaders)]
  end.
End AuditCors.

(** ** Key generation (services/encryptionService.ts) *)

(** A digit of [Number.prototype.toString(16)]. *)
Definition hexDigit (v : N) : N := (if v <? 10 then 48 + v else 87 + v)%N.

(** [byte.toString(16)] for a byte. *)
Definition toString16 (n : N) : jsstring :=
  (if n <? 16 then [hexDigit n] else [hexDigit (n / 16); hexDigit (n mod 16)])%N.

(** [s.padStart(2, '0')] *)
Definition padStart2 (s : jsstring) : jsstring :=
  match s with
  | [] => [48; 48]%N
  | [c] => [48%N; c]
  | _ => s
  end.

(** [generateEncryptionKey], [exported] being the raw key that
    [crypto.subtle.exportKey] returns. *)
Definition generateEncryptionKey (exported : bytes) : jsstring :=
  concat (map (fun byte => padStart2 (toString16 (Byte.to_N byte))) exported).

(** ** Client-side field encryption (services/encryptionService.ts) *)

Record BrowserEnv : Type := {
  VITE_ENCRYPTION_KEY : option jsstring
}.

Section EncryptionService.
Variable aes : AesGcm.

(** The largest number of arguments the engine accepts in one call, and
    the message of the [RangeError] it throws beyond:
    [String.fromCharCode(...combined)] passes one argument per byte. *)
Variable argumentLimit : nat.
Variable rangeErrorMessage : jsstring.

(** [getEncryptionKey]: no key ([null]), the imported raw key, or the
    rejection of [importKey]. *)
Definition getEncryptionKey (env : BrowserEnv)
  : result platformError (option bytes) :=
  let masterKeyString := orElse (VITE_ENCRYPTION_KEY env) [] in
  if negb (nonEmpty masterKeyString) then Ok None
  else
    let keyBuffer := keyBuffer masterKeyString in
    if validKeyLength keyBuffer then Ok (Some keyBuffer)
    else Throw KeyImportFailed.

Definition failedToEncrypt (message : jsstring) : jsstring :=
  js "Failed to encrypt data: " ++ message.

(** [encryptData]; [iv] is what [crypto.getRandomValues] filled in. *)
Definition encryptData (env : BrowserEnv) (iv : bytes) (plaintext : jsstring)
  : result jsstring jsstring :=
  match getEncryptionKey env with
  | Throw e => Throw (failedToEncrypt (errorMessage aes e))
  | Ok None => Ok plaintext
  | Ok (Some key) =>
      let data := textEncode plaintext in
      let encrypted := gcmEncrypt aes key iv data in
      let combined := iv ++ encrypted in
      if argumentLimit <? length combined
      then Throw (failedToEncrypt rangeErrorMessage)
      else Ok (encodeBase64 combined)
  end.

(** [decryptData]: every failure is caught and answered with the input. *)
Definition decryptData (env : BrowserEnv) (ciphertext : jsstring) : jsstring :=
  match getEncryptionKey env with
  | Throw _ => ciphertext
  | Ok None => ciphertext
  | Ok (Some key) =>
      match decodeBase64 ciphertext with
      | None => ciphertext
      | Some combined =>
          let iv := firstn 12 combined in
          let encrypted := skipn 12 combined in
          match gcmDecrypt aes key iv encrypted with
          | Some decrypted => textDecode decrypted
          | None => ciphertext
          end
      end
  end.
End EncryptionService.

(** ** Storage path of the audio file (transcription/index.ts) *)

(** [[\w.\-]] *)
Definition isFileNameChar (c : N) : bool :=
  isWordChar c || isChar "." c || isChar "-" c.

(** [/[^\w.\-]+/g] *)
Definition reUnsafeName : regex :=
  plus (Char (fun c => negb (isFileNameChar c))).

(** [String(data.file_name || 'audio').replace(/[^\w.\-]+/g, '_').slice(0, 120)] *)
Definition safeName (file_name : option jsstring) : jsstring :=
  firstn 120 (replaceAll reUnsafeName (js "_") (orElse file_name (js "audio"))).

(** [`audio-files/${recordId}-${safeName}`] *)
Definition filePath (recordId : jsstring) (file_name : option jsstring) : jsstring :=
  js "audio-files/" ++ recordId ++ js "-" ++ safeName file_name.

(** ** Retry delay (upload/index.ts) *)

(** [backoffMs(attempt)], [jitter] being the integer that
    [Math.floor(Math.random() * 250)] gave. *)
Definition backoffMs (jitter : Z) (attempt : nat) : Z :=
  let base := (1000 * 2 ^ Z.of_nat attempt)%Z in
  Z.min 10000 (base + jitter).

(** ** Security audit (security-audit/index.ts) *)

Inductive auditStatus : Type := AuditPassed | AuditFailed | AuditWarning.

Record AuditResult : Type := {
  check : jsstring;
  audit_status : auditStatus;
  message : jsstring;
  details : option (list jsstring)
}.

(** The environment the audit reads. *)
Record AuditEnv : Type := {
  audit_edge : EdgeEnv;
  audit_supabase : DeleteEnv;
  audit_origins : OriginEnv;
  GEMINI_API_KEY : option jsstring
}.

(** [Array.prototype.join] *)
Fixpoint join (sep : jsstring) (l : list jsstring) : jsstring :=
  match l with
  | [] => []
  | [x] => x
  | x :: l' => x ++ sep ++ join sep l'
  end.

(** [!Deno.env.get(key)] *)
Definition unset (v : option jsstring) : bool := negb (nonEmpty (orElse v [])).

Definition checkSecrets (env : AuditEnv) : AuditResult :=
  let requiredSecrets :=
    [(js "ENCRYPTION_KEY", ENCRYPTION_KEY (audit_edge env));
     (js "GEMINI_API_KEY", GEMINI_API_KEY env);
     (js "SUPABASE_SERVICE_ROLE_KEY",
      SUPABASE_SERVICE_ROLE_KEY (audit_supabase env))] in
  let missingSecrets := map fst (filter (fun kv => unset (snd kv)) requiredSecrets) in
  if (0 <? length missingSecrets)%nat then
    {| check := js "Environment Secrets"; audit_status := AuditFailed;
       message := js "Missing required secrets: " ++ join (js ", ") missingSecrets;
       details := Some missingSecrets |}
  else
    {| check := js "Environment Secrets"; audit_status := AuditPassed;
       message := js "All required secrets are configured";
       details := None |}.

Definition checkCors (env : AuditEnv) : AuditResult :=
  let allowedOrigins := ALLOWED_ORIGINS (audit_origins env) in
  if unset allowedOrigins then
    {| check := js "CORS Configuration"; audit_status := AuditWarning;
       message :=
         js "Wildcard CORS enabled (OK for development, restrict for production)";
       details := None |}
  else
    {| check := js "CORS Configuration"; audit_status := AuditPassed;
       message := js "CORS restricted to: " ++ orElse allowedOrigins [];
       details := None |}.

Definition checkEdgeFunctions : AuditResult :=
  {| check := js "Edge Functions Authentication"; audit_status := AuditPassed;
     message := js "4 Edge Functions configured";
     details := Some [js "upload"; js "transcription"; js "analysis";
                      js "delete-record"] |}.

Definition checkKeyStrength (env : AuditEnv) : AuditResult :=
  let encryptionKey := ENCRYPTION_KEY (audit_edge env) in
  if negb (unset encryptionKey) && (length (orElse encryptionKey []) <? 32)%nat then
    {| check := js "Encryption Key Strength"; audit_status := AuditWarning;
       message := js "Encryption key may be too short (recommended: 32+ characters)";
       details := None |}
  else if negb (unset encryptionKey) then
    {| check := js "Encryption Key Strength"; audit_status := AuditPassed;
       message := js "Encryption key length is adequate";
       details := None |}
  else
    {| check := js "Encryption Key Strength"; audit_status := AuditFailed;
       message := js "Encryption key not configured";
       details := None |}.

(** [profileCheckError] is the error of the probe query, if any. *)
Definition checkRls (profileCheckError : option jsstring) : AuditResult :=
  match profileCheckError with
  | Some errorMessage_ =>
    {| check := js "Database RLS"; audit_status := AuditFailed;
       message := js "Cannot verify RLS policies - database error";
       details := Some [errorMessage_] |}
  | None =>
    {| check := js "Database RLS"; audit_status := AuditPassed;
       message := js "RLS policies are active";
       details := None |}
  end.

Definition checkGeminiKey (env : AuditEnv) : AuditResult :=
  let geminiKey := GEMINI_API_KEY env in
  if negb (unset geminiKey) then
    if isPrefix (js "AIza") (orElse geminiKey []) then
      {| check := js "Gemini API Key Format"; audit_status := AuditPassed;
         message := js "Gemini API key format is valid";
         details := None |}
    else
      {| check := js "Gemini API Key Format"; audit_status := AuditWarning;
         message :=
           js "Gemini API key format may be incorrect (should start with "
           ++ [34%N] ++ js "AIza" ++ [34%N] ++ js ")";
         details := None |}
  else
    {| check := js "Gemini API Key Format"; audit_status := AuditFailed;
       message := js "Gemini API key not configured";
       details := None |}.

Definition checkServiceRoleKey (env : AuditEnv) : AuditResult :=
  let serviceRoleKey := SUPABASE_SERVICE_ROLE_KEY (audit_supabase env) in
  if negb (unset serviceRoleKey) then
    if (100 <? length (orElse serviceRoleKey []))%nat then
      {| check := js "Service Role Key"; audit_status := AuditPassed;
         message := js "Service role key is configured";
         details := None |}
    else
      {| check := js "Service Role Key"; audit_status := AuditWarning;
         message := js "Service role key may be too short";
         details := None |}
  else
    {| check := js "Service Role Key"; audit_status := AuditFailed;
       message := js "Service role key not configured";
       details := None |}.

(** The seven entries pushed on [results], in order. *)
Definition runAudit (env : AuditEnv) (profileCheckError : option jsstring)
  : list AuditResult :=
  [checkSecrets env; checkCors env; checkEdgeFunctions; checkKeyStrength env;
   checkRls profileCheckError; checkGeminiKey env; checkServiceRoleKey env].

Definition auditStatus_eqb (a b : auditStatus) : bool :=
  match a, b with
  | AuditPassed, AuditPassed | AuditFailed, AuditFailed
  | AuditWarning, AuditWarning => true
  | _, _ => false
  end.

Definition countStatus (s : auditStatus) (results : list AuditResult) : nat :=
  length (filter (fun r => auditStatus_eqb (audit_status r) s) results).

Record AuditReport : Type := {
  total : nat;
  passed : nat;
  failed : nat;
  warnings_ : nat;
  results : list AuditResult;
  overall : auditStatus
}.

Definition auditReport (env : AuditEnv) (profileCheckError : option jsstring)
  : AuditReport :=
  let results := runAudit env profileCheckError in
  let passed := countStatus AuditPassed results in
  let failed := countStatus AuditFailed results in
  let warnings := countStatus AuditWarning results in
  {| total := length results;
     passed := passed;
     failed := failed;
     warnings_ := warnings;
     results := results;
     overall := if (0 <? failed)%nat then AuditFailed
                else if (0 <? warnings)%nat then AuditWarning
                else AuditPassed |}.

Inductive auditBody : Type :=
| AuditNoBody
| AuditError (error : jsstring)
| AuditJson (report : AuditReport).

Record AuditRequest : Type := {
  audit_method : method;
  audit_authorization : option jsstring
}.

Section AuditHandler.
(** [supabase.auth.getUser()]: an error, or the user if there is one. *)
Variable getUser : jsstring -> result jsstring (option jsstring).

Definition serveAudit (env : AuditEnv) (profileCheckError : option jsstring)
           (db : Database) (req : AuditRequest) : nat * auditBody :=
  match audit_method req with
  | OPTIONS => (204, AuditNoBody)
  | _ =>
    let authHeader := orElse (audit_authorization req) [] in
    if negb (nonEmpty authHeader) then
      (401, AuditError (js "Missing authorization header"))
    else
      let supabaseUrl := orElse (SUPABASE_URL (audit_supabase env)) [] in
      let supabaseAnonKey := orElse (SUPABASE_ANON_KEY (audit_supabase env)) [] in
      if negb (nonEmpty supabaseUrl) || negb (nonEmpty supabaseAnonKey) then
        (500, AuditError (js "Server configuration error"))
      else
        match getUser authHeader with
        | Throw _ => (401, AuditError (js "Unauthorized"))
        | Ok None => (401, AuditError (js "Unauthorized - no user found"))
        | Ok (Some uid) =>
            match selectRole db (AsUser uid) uid with
            | Some RoleAdmin => (200, AuditJson (auditReport env profileCheckError))
            | _ => (403, AuditError (js "Admin access required"))
            end
        end
  end.
End AuditHandler.

(** ** Reading an analysis (analysis/index.ts) *)

Inductive analysisBody : Type :=
| AnalysisNoBody
| AnalysisError (error : jsstring)
| AnalysisJson (a : AnalysisResult).

Section AnalysisHandler.
Variable getUser : jsstring -> result jsstring jsstring.

(** The POST branch that analyses a record with a transcript and without
    analysis, from the update to [status: 'analyzing'] on. *)
Variable generateAnalysis :
  Database -> jsstring -> CallRecord -> nat * analysisBody * Database.

(** analysis/index.ts.  [req_recordId] is the last segment of the URL
    path; the query runs with the caller's session. *)
Definition serveAnalysis (db : Database) (req : Request)
  : nat * analysisBody * Database :=
  match req_method req with
  | OPTIONS => (204, AnalysisNoBody, db)
  | OtherMethod => (405, AnalysisError (js "Method not allowed"), db)
  | _ =>
    let authHeader := orElse (req_authorization req) [] in
    if negb (nonEmpty authHeader) then
      (401, AnalysisError (js "Authorization header required"), db)
    else
      match getUser authHeader with
      | Throw _ => (401, AnalysisError (js "Unauthorized. Please log in."), db)
      | Ok uid =>
        let recordId := orElse (req_recordId req) [] in
        if negb (nonEmpty recordId) || jsstring_eqb recordId (js "analysis")
        then (400, AnalysisError (js "Record ID is required"), db)
        else
          match selectRecord db (AsUser uid) recordId with
          | None => (404, AnalysisError (js "Analysis not found"), db)
          | Some data =>
            match analysis data with
            | Some a => (200, AnalysisJson a, db)
            | None =>
                match req_method req with
                | GET =>
                    (404, AnalysisError
                            (js "Analysis not available for this record"), db)
                | _ =>
                    match transcription data with
                    | None =>
                        (409, AnalysisError
                                (js "Transcription not available for this record"),
                         db)
                    | Some _ => generateAnalysis db recordId data
                    end
                end
            end
          end
      end
  end.
End AnalysisHandler.


(** * Definitions for the statements and the examples *)

(** Two continuations that agree on every rest of at most [n] code
    units, and matchers that look at their continuation only on rests no
    longer than their input. *)
Definition agreeUpTo (A : Type) (n : nat) (k k' : cont A) : Prop :=
  forall p s', length s' <= n -> k p s' = k' p s'.

Definition localMatcher (A : Type) (m : matcher A) : Prop :=
  forall prev s k k', agreeUpTo (length s) k k' -> m prev s k = m prev s k'.

(** [needs D r]: every text matched by [r] contains a code unit of [D]. *)
Inductive needs (D : N -> bool) : regex -> Prop :=
| needs_char p : (forall c, p c = true -> D c = true) -> needs D (Char p)
| needs_seq_l r1 r2 : needs D r1 -> needs D (Seq r1 r2)
| needs_seq_r r1 r2 : needs D r2 -> needs D (Seq r1 r2)
| needs_alt r1 r2 : needs D r1 -> needs D r2 -> needs D (Alt r1 r2)
| needs_rep_bounded lo hi r : needs D r -> needs D (Rep (S lo) (Some (S hi)) r)
| needs_rep_unbounded lo r : needs D r -> needs D (Rep (S lo) None r).

Definition lacks (D : N -> bool) (s : jsstring) : Prop :=
  Forall (fun c => D c = false) s.

Definition isAt (c : N) : bool := isChar "@" c.

Definition digitAndAtFree (s : jsstring) : bool :=
  forallb (fun c => negb (isDigit c) && negb (isAt c)) s.

Definition transcriptDigitAndAtFree (t : Transcription) : bool :=
  digitAndAtFree (text t)
  && forallb (fun seg => digitAndAtFree (seg_text seg)) (segments t).

Definition atFree (s : jsstring) : bool := forallb (fun c => negb (isAt c)) s.

Definition transcriptAtFree (t : Transcription) : bool :=
  atFree (text t) && forallb (fun seg => atFree (seg_text seg)) (segments t).

(** *** What the regular expressions match

    A declarative reading of the regular expressions, against which the
    backtracking matcher is proved sound and complete. *)

(** The code unit before the position reached after [m]. *)
Fixpoint lastOr (p : option N) (m : jsstring) : option N :=
  match m with
  | [] => p
  | x :: m' => lastOr (Some x) m'
  end.

(** [matches r p m rt]: [r] matches the text [m] when [p] is the code unit
    before it and [rt] the text after it. *)
Inductive matches : regex -> option N -> jsstring -> jsstring -> Prop :=
| M_Empty p rt : matches Empty p [] rt
| M_Char c p x rt : c x = true -> matches (Char c) p [x] rt
| M_Seq r1 r2 p m1 m2 rt :
    matches r1 p m1 (m2 ++ rt) -> matches r2 (lastOr p m1) m2 rt ->
    matches (Seq r1 r2) p (m1 ++ m2) rt
| M_AltL r1 r2 p m rt : matches r1 p m rt -> matches (Alt r1 r2) p m rt
| M_AltR r1 r2 p m rt : matches r2 p m rt -> matches (Alt r1 r2) p m rt
| M_RepNone lo r p rt : matches (Rep lo (Some 0) r) p [] rt
| M_RepStop hi r p rt : matches (Rep 0 hi r) p [] rt
| M_RepStep lo hi r p m1 m2 rt :
    hi <> Some 0 ->
    matches r p m1 (m2 ++ rt) ->
    matches (Rep (pred lo) (option_map pred hi) r) (lastOr p m1) m2 rt ->
    matches (Rep lo hi r) p (m1 ++ m2) rt
| M_WordB p rt :
    xorb (isWordOpt p) (isWordOpt (hd_error rt)) = true -> matches WordB p [] rt
| M_Bol rt : matches Bol None [] rt
| M_Eol p : matches Eol p [] [].

(** Every match of [r] is non-empty. *)
Fixpoint consumes (r : regex) : bool :=
  match r with
  | Char _ => true
  | Seq r1 r2 => consumes r1 || consumes r2
  | Alt r1 r2 => consumes r1 && consumes r2
  | Rep (S _) (Some (S _)) r1 => consumes r1
  | Rep (S _) None r1 => consumes r1
  | _ => false
  end.

(** The body of every quantifier consumes. *)
Fixpoint productive (r : regex) : bool :=
  match r with
  | Seq r1 r2 => productive r1 && productive r2
  | Alt r1 r2 => productive r1 && productive r2
  | Rep _ _ r1 => consumes r1 && productive r1
  | _ => true
  end.

(** No assertion occurs in [r]. *)
Fixpoint free (r : regex) : bool :=
  match r with
  | Empty | Char _ => true
  | Seq r1 r2 | Alt r1 r2 => free r1 && free r2
  | Rep _ _ r1 => free r1
  | WordB | Bol | Eol => false
  end.

(** Every code unit [r] can match satisfies [C]. *)
Fixpoint within (C : N -> bool) (r : regex) : Prop :=
  match r with
  | Char p => forall c, p c = true -> C c = true
  | Seq r1 r2 | Alt r1 r2 => within C r1 /\ within C r2
  | Rep _ _ r1 => within C r1
  | _ => True
  end.

(** [L] occurs nowhere in [s]. *)
Definition avoids (L : jsstring -> Prop) (s : jsstring) : Prop :=
  forall a m rest, s = a ++ m ++ rest -> L m -> False.

(** [r] matches at no position of [s], [prev] being the code unit before [s]. *)
Definition quiet (r : regex) (prev : option N) (s : jsstring) : Prop :=
  forall a b, s = a ++ b -> exec r (lastOr prev a) b = None.

(** Every occurrence of [L] in [s] is the start of a match of [r]. *)
Definition caught (r : regex) (L : jsstring -> Prop) (prev : option N)
           (s : jsstring) : Prop :=
  forall a m rest, s = a ++ m ++ rest -> L m ->
    exec r (lastOr prev a) (m ++ rest) <> None.

Definition bounded (lo : nat) (hi : option nat) : Prop :=
  match hi with Some h => lo <= h | None => True end.

(** [r] is a sequence one of whose items is [\d{lo,hi}] with [n <= lo]. *)
Fixpoint hasDigits (n : nat) (r : regex) : Prop :=
  match r with
  | Rep lo hi (Char P) => P = isDigit /\ n <= lo /\ bounded lo hi
  | Seq r1 r2 => hasDigits n r1 \/ hasDigits n r2
  | _ => False
  end.

Definition isPhoneText (m : jsstring) : Prop := matches rePhone None m [].

(** Every match of [r] contains a text the phone rule matches. *)
Definition covered (r : regex) : Prop :=
  forall p m rt, matches r p m rt ->
    exists a m' rest, m = a ++ m' ++ rest /\ isPhoneText m'.

Definition isPhoneChar (c : N) : bool :=
  isDigit c || isSpace c || isChar "+" c || isChar "(" c || isChar ")" c.

Definition isCardChar (c : N) : bool := isDigit c || isDashOrSpace c.

(** The card rule without its two [\b]. *)
Definition reCardCore : regex :=
  seqs [Rep 4 (Some 4) digit; opt (Char isDashOrSpace);
        Rep 4 (Some 4) digit; opt (Char isDashOrSpace);
        Rep 4 (Some 4) digit; opt (Char isDashOrSpace);
        Rep 4 (Some 4) digit].

(** The rules that can change a text: the e-mail rule, the first phone
    rule and the card rule. *)
Definition effectiveRules (s : jsstring) : jsstring :=
  replaceAll reCard CARD_NUMBER (replaceAll rePhone PHONE (replaceAll reEmail EMAIL s)).

Definition sample (text_ : jsstring) (segs : list TranscriptionSegment)
  : Transcription :=
  {| id := js "t1"; text := text_; timestamp := js "2026-01-01T00:00:00.000Z";
     language := js "lt"; segments := segs |}.

Definition sampleSegment (who text_ : jsstring) : TranscriptionSegment :=
  {| speaker := who; seg_text := text_;
     startTime := Finite 0; endTime := Finite 1 |}.

(** [r] matches at no position of [s], [prev] being the code unit before
    [s]: the scan of [replace] finds nothing to replace. *)
Fixpoint matchesNowhere (r : regex) (prev : option N) (s : jsstring) : bool :=
  match exec r prev s with
  | Some _ => false
  | None =>
      match s with
      | [] => true
      | c :: s' => matchesNowhere r (Some c) s'
      end
  end.

(** The e-mail rule matches nowhere in the text and in the segment texts. *)
Definition noEmailLeft (t : Transcription) : bool :=
  matchesNowhere reEmail None (text t)
  && forallb (fun seg => matchesNowhere reEmail None (seg_text seg)) (segments t).

Definition maskingRules : list regex :=
  [reEmail; rePhone; rePhoneAlt; rePhoneDigits; rePersonCode; reCard;
   reAccountLT; reAccountDigits].

Definition placeholders : list jsstring :=
  [EMAIL; PHONE; PERSON_CODE; CARD_NUMBER; ACCOUNT_NUMBER].

Definition isBracket (c : N) : bool := isChar "[" c || isChar "]" c.

Definition isAtOrDigit (c : N) : bool := isAt c || isDigit c.

(** The number of code units of [s] that satisfy [D]. *)
Definition countOf (D : N -> bool) (s : jsstring) : nat := length (filter D s).

(** "rasykite @jonas arba a@b, tel. 861234567" *)
Definition atWithoutEmailInput : jsstring :=
  js "rasykite @jonas arba a@b, tel. 861234567".

(** "mano asmens kodas 12345678901" *)
Definition personCodeInput : jsstring := js "mano asmens kodas 12345678901".
(** "el. paštas jonas@example.com" *)
Definition emailInput : jsstring :=
  js "el. pa" ++ [353%N] ++ js "tas jonas@example.com".
(** "kortelė 4111 1111 1111 1111" *)
Definition cardInput : jsstring :=
  js "kortel" ++ [279%N] ++ js " 4111 1111 1111 1111".

Definition sampleClientEnv : ClientEnv :=
  {| processDeclared := true; API_KEY := Some (js "key");
     VITE_API_KEY := None |}.

(** A client environment with [process] declared and no key in it. *)
Definition keylessClientEnv : ClientEnv :=
  {| processDeclared := true; API_KEY := None; VITE_API_KEY := None |}.

(** A browser bundle: the key is there, the global [process] is not. *)
Definition browserClientEnv : ClientEnv :=
  {| processDeclared := false; API_KEY := None;
     VITE_API_KEY := Some (js "key") |}.

(** The first model rejects, the second answers with quotes only. *)
Definition failingGeneration (apiKey modelName prompt : jsstring) : genOutcome :=
  if jsstring_eqb modelName (js "gemini-2.5-pro")
  then GenResolves (RespObject (TextString (js " '' ")) None)
  else GenRejects (js "503").

(** The 6-bit digits of an encoding, and the number of padding signs. *)
Fixpoint b64digits (bs : bytes) : list N :=
  match bs with
  | [] => []
  | [a] =>
      let a := Byte.to_N a in
      [a / 4; (a mod 4) * 16]%N
  | [a; b] =>
      let a := Byte.to_N a in
      let b := Byte.to_N b in
      [a / 4; (a mod 4) * 16 + b / 16; (b mod 16) * 4]%N
  | a :: b :: c :: rest =>
      let a := Byte.to_N a in
      let b := Byte.to_N b in
      let c := Byte.to_N c in
      [a / 4; (a mod 4) * 16 + b / 16; (b mod 16) * 4 + c / 64; c mod 64]%N
      ++ b64digits rest
  end.

Fixpoint padLength (bs : bytes) : nat :=
  match bs with
  | [] => 0
  | [_] => 2
  | [_; _] => 1
  | _ :: _ :: _ :: rest => padLength rest
  end.

(** Scalar values: code points that are not surrogates. *)
Definition isScalar (cp : N) : Prop :=
  (cp < 1114112 /\ ~ (55296 <= cp <= 57343))%N.

(** *** A reference cipher

    An instance of the [AesGcm] interface, which shows that its laws can be
    met and on which the examples run.  It reverses the data and appends a
    16-byte tag made of the nonce and the key; it stands for no real
    cipher. *)

Definition referenceTag (key iv : bytes) : bytes :=
  firstn 16 (iv ++ key ++ repeat Byte.x00 16).

Definition bytes_eqb (a b : bytes) : bool :=
  if list_eq_dec Byte.byte_eq_dec a b then true else false.

Definition referenceEncrypt (key iv data : bytes) : bytes :=
  rev data ++ referenceTag key iv.

Definition referenceDecrypt (key iv data : bytes) : option bytes :=
  if length data <? 16 then None
  else
    let n := length data - 16 in
    if bytes_eqb (skipn n data) (referenceTag key iv)
    then Some (rev (firstn n data))
    else None.

Definition referenceMessage (e : platformError) : jsstring :=
  match e with
  | KeyImportFailed => js "Invalid key length"
  | InvalidBase64 => js "Failed to decode base64"
  | DecryptionFailed => js "Decryption failed"
  end.

Definition referenceGcm : AesGcm.
Proof.
  refine {| gcmEncrypt := referenceEncrypt;
            gcmDecrypt := referenceDecrypt;
            errorMessage := referenceMessage |}.
  - abstract
      (intros key iv data _ _; unfold referenceDecrypt, referenceEncrypt;
       assert (Ht : length (referenceTag key iv) = 16)
         by (unfold referenceTag;
             rewrite length_firstn, !length_app, repeat_length; lia);
       rewrite length_app, length_rev, Ht;
       destruct (length data + 16 <? 16) eqn:E;
       [apply Nat.ltb_lt in E; lia|];
       replace (length data + 16 - 16) with (length (rev data))
         by (rewrite length_rev; lia);
       rewrite skipn_app, skipn_all, Nat.sub_diag, firstn_app, firstn_all,
         Nat.sub_diag;
       cbn [skipn firstn app]; rewrite app_nil_r;
       unfold bytes_eqb; destruct (list_eq_dec _ _ _) as [_|n];
       [now rewrite rev_involutive | contradiction]).
  - abstract
      (intros key iv data H; unfold referenceDecrypt;
       apply Nat.ltb_lt in H; now rewrite H).
Defined.

Definition sampleKey : jsstring :=
  js "000102030405060708090a0b0c0d0e0f101112131415161718191a1b1c1d1e1f".

Definition sampleIv : bytes :=
  [Byte.x10; Byte.x11; Byte.x12; Byte.x13; Byte.x14; Byte.x15;
   Byte.x16; Byte.x17; Byte.x18; Byte.x19; Byte.x1a; Byte.x1b].

Definition withKey (key : jsstring) : EdgeEnv := {| ENCRYPTION_KEY := Some key |}.
Definition withoutKey : EdgeEnv := {| ENCRYPTION_KEY := None |}.

(** A JSON text with a letter outside ASCII and a surrogate pair. *)
Definition samplePlaintext : jsstring :=
  [123; 34]%N ++ js "text" ++ [34; 58; 34]%N ++ js "Laba diena, "
  ++ [269%N] ++ js "ia " ++ [55357; 56832; 34; 125]%N.

(** In the examples [JSON.stringify] is stood for by the text between
    braces. *)
Definition sampleStringify (t : Transcription) : jsstring :=
  js "{" ++ text t ++ js "}".

Definition rawWithPersonCode : Transcription :=
  sample personCodeInput [sampleSegment (js "Klientas") personCodeInput].

(** The JSON text of an object starts with an opening brace. *)
Definition startsWithBrace (s : jsstring) : bool :=
  match s with
  | c :: _ => isChar "{" c
  | [] => false
  end.





Definition validRecordId (recordId : jsstring) : bool :=
  nonEmpty recordId && negb (jsstring_eqb recordId (js "transcription")).

Definition notFound : Response :=
  respond 404 (ErrorJson (js "Transcription not found")).

Definition readRequest (m : method) (header recordId : jsstring) : Request :=
  {| req_method := m; req_authorization := Some header;
     req_recordId := Some recordId; req_bodyNull := false |}.

Definition userA : jsstring := js "user-a".
Definition userB : jsstring := js "user-b".
Definition adminC : jsstring := js "admin-c".

Definition sampleRecord : CallRecord :=
  {| user_id := Some userA;
     audio_id := js "SKAMB-ABC123";
     file_name := js "call.mp3";
     transcription := Some (Plain rawWithPersonCode);
     analysis := None;
     status := Completed |}.

Definition sampleDb : Database :=
  {| call_records := fun k =>
       if jsstring_eqb k (js "rec-1") then Some sampleRecord else None;
     user_profiles := fun uid =>
       if jsstring_eqb uid adminC then Some RoleAdmin
       else if jsstring_eqb uid userA || jsstring_eqb uid userB then Some RoleUser
       else None |}.

Definition sampleGetUser (header : jsstring) : result jsstring jsstring :=
  if jsstring_eqb header (js "Bearer a") then Ok userA
  else if jsstring_eqb header (js "Bearer b") then Ok userB
  else if jsstring_eqb header (js "Bearer c") then Ok adminC
  else Throw (js "invalid JWT").


Definition noGeneration (db : Database) (recordId : jsstring) (r : CallRecord)
  : result jsstring Transcription * Database :=
  (Throw (js "GEMINI_API_KEY not set"), db).



Definition recordNotFound : Response :=
  respond 404 (ErrorJson (js "Record not found")).

Definition deleteRequest (header recordId : jsstring) : Request :=
  {| req_method := POST; req_authorization := Some header;
     req_recordId := Some recordId; req_bodyNull := false |}.

Definition configured (env : DeleteEnv) : bool :=
  nonEmpty (orElse (SUPABASE_URL env) [])
  && nonEmpty (orElse (SUPABASE_ANON_KEY env) []).

Definition sampleDeleteEnv : DeleteEnv :=
  {| SUPABASE_URL := Some (js "https://project.supabase.co");
     SUPABASE_ANON_KEY := Some (js "anon");
     SUPABASE_SERVICE_ROLE_KEY := Some (js "service") |}.

(** The bucket as the list of its object names: the listing finds the
    names that start with the search text, 100 of them at most, and the
    removal takes the named objects out. *)
Definition sampleListObjects (st : list jsstring) (search : jsstring)
  : option (list jsstring) :=
  Some (firstn 100 (filter (isPrefix search) st)).

Definition sampleRemoveObjects (st paths : list jsstring) : list jsstring :=
  filter (fun name =>
            negb (existsb (jsstring_eqb (js "audio-files/" ++ name)) paths)) st.

(** A bucket whose listing fails. *)
Definition failingListObjects (st : list jsstring) (search : jsstring)
  : option (list jsstring) := None.

Definition sampleDestructureMessage : jsstring :=
  js "Cannot destructure property 'id' of '(intermediate value)' as it is null.".

Definition sampleBucket : list jsstring := [js "SKAMB-ABC123-1700000000000.mp3"].

Definition sampleDelete (db : Database) (st : list jsstring)
           (header recordId : jsstring) : Response * Database * list jsstring :=
  serveDelete sampleGetUser sampleListObjects sampleRemoveObjects
              sampleDestructureMessage (fun db => db) sampleDeleteEnv
              db st (deleteRequest header recordId).

(** The record of the examples, removed by someone else in between. *)
Definition removedMeanwhile (db : Database) : Database :=
  {| call_records := remove (call_records db) (js "rec-1");
     user_profiles := user_profiles db |}.

(** ** Definitions for the further properties *)

Definition withOrigins (v : jsstring) : OriginEnv := {| ALLOWED_ORIGINS := Some v |}.

(** The entries of ALLOWED_ORIGINS as upload and delete-record read them,
    and as transcription and analysis do. *)
Definition uploadOrigins (env : OriginEnv) : list jsstring :=
  match ALLOWED_ORIGINS env with
  | Some v => split COMMA v
  | None => []
  end.

Definition transcriptionOrigins (env : OriginEnv) : list jsstring :=
  filter nonEmpty (map trim (split COMMA (orElse (ALLOWED_ORIGINS env) []))).

Definition developmentHeaders (methods : jsstring) : headers :=
  [(ALLOW_ORIGIN, js "*"); (ALLOW_METHODS, methods);
   (ALLOW_HEADERS, allowedRequestHeaders)].

Definition isDot (c : N) : bool := negb (isLineTerminator c).
Definition noHexDigit (c : N) : bool :=
  match hexDigitVal c with Some _ => false | None => true end.

Definition hexPairOk (b : Byte.byte) : bool :=
  match padStart2 (toString16 (Byte.to_N b)) with
  | [h; l] => isDot h && isDot l && Byte.eqb (toUint8 (parseInt16 [h; l])) b
  | _ => false
  end.

Definition browserKey (key : jsstring) : BrowserEnv :=
  {| VITE_ENCRYPTION_KEY := Some key |}.

(** A code unit that is neither a base64 digit, nor padding, nor ASCII
    white space. *)
Definition outsideBase64 (c : N) : bool :=
  match b64val c with
  | Some _ => false
  | None => negb (c =? PAD)%N && negb (isAsciiWhitespace c)
  end.

(** Everything of a segment but its text. *)
Definition segmentFrame (seg : TranscriptionSegment) : jsstring * number * number :=
  (speaker seg, startTime seg, endTime seg).

(** Everything of a transcript but its text and the texts of its
    segments. *)
Definition transcriptFrame (t : Transcription)
  : jsstring * jsstring * jsstring * list (jsstring * number * number) :=
  (id t, timestamp t, language t, map segmentFrame (segments t)).

Definition withoutRecord (db : Database) (id_ : jsstring) : Database :=
  {| call_records := remove (call_records db) id_;
     user_profiles := user_profiles db |}.

Definition serviceKeySet (env : DeleteEnv) : bool :=
  nonEmpty (orElse (SUPABASE_SERVICE_ROLE_KEY env) []).

(** The key as the read path and the upload path see it. *)
Definition configuredKey (env : EdgeEnv) : jsstring := orElse (ENCRYPTION_KEY env) [].

Definition usableKey (env : EdgeEnv) : bool :=
  nonEmpty (configuredKey env) && validKeyLength (keyBuffer (configuredKey env)).

Definition sampleParse (s : jsstring) : parsedDocument :=
  if jsstring_eqb s (sampleStringify rawWithPersonCode)
  then ParsedObject rawWithPersonCode else ParseThrows.

Definition uploadedRecord : CallRecord :=
  {| user_id := Some userA;
     audio_id := js "SKAMB-ABC123";
     file_name := js "call.mp3";
     transcription :=
       Some (upd_transcription
               (snd (storeTranscription referenceGcm sampleStringify
                       (withKey sampleKey) sampleIv rawWithPersonCode)));
     analysis := None;
     status := Analyzing |}.

Definition uploadedDb : Database :=
  {| call_records := fun k =>
       if jsstring_eqb k (js "rec-2") then Some uploadedRecord else None;
     user_profiles := user_profiles sampleDb |}.

Definition isSpaceOpt (c : option N) : bool :=
  match c with Some c => isSpace c | None => false end.

(** No two white-space code units in a row. *)
Fixpoint noDoubleSpace (s : jsstring) : bool :=
  match s with
  | [] => true
  | a :: s' => negb (isSpace a && isSpaceOpt (hd_error s')) && noDoubleSpace s'
  end.

(** [n] decimal digits in a row somewhere in [s]. *)
Fixpoint hasDigitRun (n : nat) (s : jsstring) : bool :=
  ((n <=? length s) && forallb isDigit (firstn n s))
  || match s with
     | [] => false
     | _ :: s' => hasDigitRun n s'
     end.

Definition constantPayload (recordId : jsstring) (t : Transcription)
           (a : AnalysisResult) : option jsstring :=
  Some (js "{}").

Definition auditEnvWithKey (key : jsstring) : AuditEnv :=
  {| audit_edge := withKey key;
     audit_supabase := sampleDeleteEnv;
     audit_origins := withOrigins (js "https://app.example");
     GEMINI_API_KEY := Some (js "AIzaSample") |}.

Definition sampleAuditUser (header : jsstring) : result jsstring (option jsstring) :=
  match sampleGetUser header with
  | Ok uid => Ok (Some uid)
  | Throw e => Throw e
  end.

Definition validAnalysisId (recordId : jsstring) : bool :=
  nonEmpty recordId && negb (jsstring_eqb recordId (js "analysis")).

Definition analysisNotFound (db : Database) : nat * analysisBody * Database :=
  (404, AnalysisError (js "Analysis not found"), db).

Definition sampleAnalysis : AnalysisResult :=
  buildAnalysisResult (js "an-1")
    {| gen_sentimentScore := None; gen_customerSatisfaction := None;
       gen_agentPerformance := None; gen_warnings := None;
       gen_summary := None; gen_metrics := None |}.

Definition analysedDb : Database :=
  {| call_records := fun k =>
       if jsstring_eqb k (js "rec-3")
       then Some {| user_id := Some userA;
                    audio_id := js "SKAMB-ABC123";
                    file_name := js "call.mp3";
                    transcription := Some (Plain rawWithPersonCode);
                    analysis := Some sampleAnalysis;
                    status := Completed |}
       else None;
     user_profiles := user_profiles sampleDb |}.

Definition noAnalysisGeneration (db : Database) (recordId : jsstring)
           (r : CallRecord) : nat * analysisBody * Database :=
  (500, AnalysisError (js "GEMINI_API_KEY not set"), db).

(** Eight decimal digits. *)
Definition eightDigits (m : jsstring) : Prop :=
  length m = 8 /\ Forall (fun c => isDigit c = true) m.

(** * Properties *)

Lemma jsstring_eqb_eq (a b : jsstring) : jsstring_eqb a b = true <-> a = b.
Proof.
  unfold jsstring_eqb. destruct (list_eq_dec N.eq_dec a b); split; congruence.
Qed.

(** ** The matcher *)

Section MatcherFacts.
Variable A : Type.
Variable Q : N -> Prop.

(** A match ends by calling its continuation on a suffix of the input:
    when the continuation refuses every text over [Q], so does the
    match. *)
Lemma repeat_match_refuses (m : matcher A) :
  (forall prev s k, Forall Q s ->
      (forall p' s', Forall Q s' -> k p' s' = None) -> m prev s k = None) ->
  forall fuel lo hi prev s k, Forall Q s ->
    (forall p' s', Forall Q s' -> k p' s' = None) ->
    repeat_match m fuel lo hi prev s k = None.
Proof.
  intros Hm fuel. induction fuel as [|fuel IH]; intros lo hi prev s k Hs Hk.
  - reflexivity.
  - simpl. destruct hi as [[|h]|].
    + apply Hk, Hs.
    + destruct lo as [|lo].
      * rewrite Hm; [apply Hk, Hs | exact Hs |].
        intros p' s' Hs'. destruct (length s' <? length s); [|reflexivity].
        apply IH; assumption.
      * apply Hm; [exact Hs|]. intros p' s' Hs'. apply IH; assumption.
    + destruct lo as [|lo].
      * rewrite Hm; [apply Hk, Hs | exact Hs |].
        intros p' s' Hs'. destruct (length s' <? length s); [|reflexivity].
        apply IH; assumption.
      * apply Hm; [exact Hs|]. intros p' s' Hs'. apply IH; assumption.
Qed.

Lemma rmatch_refuses (r : regex) :
  forall prev s (k : cont A), Forall Q s ->
    (forall p' s', Forall Q s' -> k p' s' = None) ->
    rmatch r prev s k = None.
Proof.
  induction r as [|p|r1 IH1 r2 IH2|r1 IH1 r2 IH2|lo hi r IH| | |];
    intros prev s k Hs Hk; cbn [rmatch].
  - apply Hk, Hs.
  - destruct s as [|c s']; [reflexivity|].
    destruct (p c); [|reflexivity]. apply Hk. now inversion Hs.
  - apply IH1; [exact Hs|]. intros p' s' Hs'. now apply IH2.
  - rewrite IH1 by assumption. now apply IH2.
  - apply repeat_match_refuses; assumption.
  - destruct (xorb _ _); [apply Hk, Hs | reflexivity].
  - destruct prev; [reflexivity | apply Hk, Hs].
  - destruct s; [apply Hk, Hs | reflexivity].
Qed.
End MatcherFacts.

(** *** The fuel of the quantifier loop

    Every turn of [repeat_match] lowers [lo] or shortens the input, so the
    fuel [S (lo + length s)] that [rmatch] gives it is never used up: more
    fuel changes no result. *)

Section MatcherFuel.
Variable A : Type.

Lemma repeat_match_local (m : matcher A) :
  localMatcher m ->
  forall fuel lo hi, localMatcher (repeat_match m fuel lo hi).
Proof.
  intros Hm fuel. induction fuel as [|fuel IH]; intros lo hi prev s k k' Hk.
  - reflexivity.
  - cbn [repeat_match].
    assert (Hin : forall lo' hi' n, n <= length s ->
              agreeUpTo n (fun p' s' => repeat_match m fuel lo' hi' p' s' k)
                          (fun p' s' => repeat_match m fuel lo' hi' p' s' k')).
    { intros lo' hi' n Hn p' s' Hs'. apply IH.
      intros p'' s'' Hs''. apply Hk. lia. }
    destruct hi as [[|h]|]; [apply Hk; lia | |];
      (destruct lo as [|lo];
       [ rewrite (Hk prev s (le_n _));
         erewrite Hm; [reflexivity|];
         intros p' s' Hs'; destruct (length s' <? length s); [|reflexivity];
         now apply (Hin 0 _ (length s) (le_n _))
       | apply Hm; now apply Hin ]).
Qed.

Lemma rmatch_local (r : regex) : localMatcher (rmatch (A := A) r).
Proof.
  induction r as [|p|r1 IH1 r2 IH2|r1 IH1 r2 IH2|lo hi r IH| | |];
    intros prev s k k' Hk; cbn [rmatch].
  - apply Hk. lia.
  - destruct s as [|c s']; [reflexivity|].
    destruct (p c); [|reflexivity]. apply Hk. cbn [length]. lia.
  - apply IH1. intros p' s' Hs'. apply IH2.
    intros p'' s'' Hs''. apply Hk. lia.
  - rewrite (IH1 prev s k k' Hk). destruct (rmatch r1 prev s k'); [reflexivity|].
    now apply IH2.
  - now apply repeat_match_local.
  - destruct (xorb _ _); [apply Hk; lia | reflexivity].
  - destruct prev; [reflexivity | apply Hk; lia].
  - destruct s; [apply Hk; lia | reflexivity].
Qed.

Lemma repeat_match_fuel (m : matcher A) :
  localMatcher m ->
  forall fuel fuel' lo hi prev s k,
    lo + length s < fuel -> lo + length s < fuel' ->
    repeat_match m fuel lo hi prev s k = repeat_match m fuel' lo hi prev s k.
Proof.
  intros Hm fuel. induction fuel as [|fuel IH];
    intros fuel' lo hi prev s k Hf Hf'; [lia|].
  destruct fuel' as [|fuel']; [lia|]. cbn [repeat_match].
  destruct hi as [[|h]|]; [reflexivity | |];
    (destruct lo as [|lo];
     [ erewrite Hm; [reflexivity|];
       intros p' s' Hs'; destruct (Nat.ltb_spec (length s') (length s));
       [apply IH; lia | reflexivity]
     | apply Hm; intros p' s' Hs'; apply IH; lia ]).
Qed.

(** The quantifier with any amount of additional fuel. *)
Lemma quantifier_fuel_suffices (r : regex) (lo : nat) (hi : option nat)
      (extra : nat) prev s (k : cont A) :
  repeat_match (rmatch r) (S (lo + length s) + extra) lo hi prev s k
  = rmatch (Rep lo hi r) prev s k.
Proof.
  cbn [rmatch]. apply repeat_match_fuel; [apply rmatch_local | lia | lia].
Qed.
End MatcherFuel.

Lemma needs_no_match (A : Type) (D : N -> bool) (r : regex) :
  needs D r ->
  forall prev s (k : cont A), lacks D s -> rmatch r prev s k = None.
Proof.
  induction 1 as [p Hp|r1 r2 _ IH|r1 r2 _ IH|r1 r2 _ IH1 _ IH2|lo hi r _ IH|lo r _ IH];
    intros prev s k Hs; cbn [rmatch].
  - destruct s as [|c s']; [reflexivity|].
    destruct (p c) eqn:E; [|reflexivity].
    apply Hp in E. inversion Hs; subst. congruence.
  - now apply IH.
  - apply rmatch_refuses with (Q := fun c => D c = false); [exact Hs|].
    intros p' s' Hs'. now apply IH.
  - rewrite IH1 by assumption. now apply IH2.
  - cbn [repeat_match]. now apply IH.
  - cbn [repeat_match option_map]. now apply IH.
Qed.

Lemma exec_lacks (D : N -> bool) (r : regex) prev s :
  needs D r -> lacks D s -> exec r prev s = None.
Proof. intros Hr Hs. unfold exec. now apply needs_no_match with (D := D). Qed.

Lemma replace_from_lacks (D : N -> bool) (r : regex) f :
  needs D r ->
  forall s prev, lacks D s -> replace_from r f prev s 0 = s.
Proof.
  intros Hr s. induction s as [|c s IH]; intros prev Hs; simpl.
  - now rewrite (exec_lacks prev Hr Hs).
  - rewrite (exec_lacks prev Hr Hs). f_equal. apply IH. now inversion Hs.
Qed.

Lemma replaceAllWith_lacks (D : N -> bool) (r : regex) f s :
  needs D r -> lacks D s -> replaceAllWith r f s = s.
Proof. intros. unfold replaceAllWith. now apply replace_from_lacks with (D := D). Qed.

Ltac needs_tac :=
  first
    [ apply needs_char; intros ? E; exact E
    | apply needs_rep_bounded; needs_tac
    | apply needs_rep_unbounded; needs_tac
    | apply needs_alt; needs_tac
    | apply needs_seq_l; needs_tac
    | apply needs_seq_r; needs_tac ].

Lemma reEmail_needs_at : needs isAt reEmail.
Proof. unfold reEmail, plus, chr, isAt; simpl. needs_tac. Qed.

Lemma rePhone_needs_digit : needs isDigit rePhone.
Proof. unfold rePhone, digit; simpl. needs_tac. Qed.

Lemma rePhoneAlt_needs_digit : needs isDigit rePhoneAlt.
Proof. unfold rePhoneAlt, digit; simpl. needs_tac. Qed.

Lemma rePhoneDigits_needs_digit : needs isDigit rePhoneDigits.
Proof. unfold rePhoneDigits, digit; simpl. needs_tac. Qed.

Lemma rePersonCode_needs_digit : needs isDigit rePersonCode.
Proof. unfold rePersonCode, digit; simpl. needs_tac. Qed.

Lemma reCard_needs_digit : needs isDigit reCard.
Proof. unfold reCard, digit; simpl. needs_tac. Qed.

Lemma reAccountLT_needs_digit : needs isDigit reAccountLT.
Proof. unfold reAccountLT, digit; simpl. needs_tac. Qed.

Lemma reAccountDigits_needs_digit : needs isDigit reAccountDigits.
Proof. unfold reAccountDigits, digit; simpl. needs_tac. Qed.

(** ** The matcher and the declarative semantics *)

Lemma lastOr_app p m1 m2 : lastOr p (m1 ++ m2) = lastOr (lastOr p m1) m2.
Proof. revert p. induction m1 as [|x m1 IH]; intros p; simpl; [reflexivity | apply IH]. Qed.

Section Soundness.
Variable A : Type.

Lemma repeat_match_sound (r : regex) :
  (forall prev s (k : cont A) a, rmatch r prev s k = Some a ->
     exists m rest, s = m ++ rest /\ matches r prev m rest
                    /\ k (lastOr prev m) rest = Some a) ->
  forall fuel lo hi prev s (k : cont A) a,
    repeat_match (rmatch r) fuel lo hi prev s k = Some a ->
    exists m rest, s = m ++ rest /\ matches (Rep lo hi r) prev m rest
                   /\ k (lastOr prev m) rest = Some a.
Proof.
  intros Hr fuel. induction fuel as [|fuel IH]; intros lo hi prev s k a H.
  - discriminate.
  - cbn [repeat_match] in H.
    assert (Hstep : forall lo' , lo' = pred lo -> hi <> Some 0 ->
              rmatch r prev s
                (fun p' s' => repeat_match (rmatch r) fuel lo' (option_map pred hi) p' s' k)
              = Some a ->
              exists m rest, s = m ++ rest /\ matches (Rep lo hi r) prev m rest
                             /\ k (lastOr prev m) rest = Some a).
    { intros lo' -> Hhi E. apply Hr in E. destruct E as (m1 & rest1 & -> & Hm1 & E).
      apply IH in E. destruct E as (m2 & rest & -> & Hm2 & E).
      exists (m1 ++ m2), rest. rewrite <- app_assoc, lastOr_app.
      repeat split; try assumption. now apply M_RepStep. }
    assert (Hstop : lo = 0 -> k prev s = Some a ->
              exists m rest, s = m ++ rest /\ matches (Rep lo hi r) prev m rest
                             /\ k (lastOr prev m) rest = Some a).
    { intros -> E. exists [], s. repeat split; [constructor | exact E]. }
    assert (Hgreedy : hi <> Some 0 ->
              match rmatch r prev s
                      (fun p' s' => if length s' <? length s
                                    then repeat_match (rmatch r) fuel 0 (option_map pred hi) p' s' k
                                    else None) with
              | Some x => Some x
              | None => k prev s
              end = Some a -> lo = 0 ->
              exists m rest, s = m ++ rest /\ matches (Rep lo hi r) prev m rest
                             /\ k (lastOr prev m) rest = Some a).
    { intros Hhi E Hlo.
      destruct (rmatch r prev s _) as [x|] eqn:E1.
      - injection E as ->. apply Hr in E1.
        destruct E1 as (m1 & rest1 & -> & Hm1 & E).
        destruct (length rest1 <? length (m1 ++ rest1)); [|discriminate].
        apply IH in E. destruct E as (m2 & rest & -> & Hm2 & E).
        exists (m1 ++ m2), rest. rewrite <- app_assoc, lastOr_app.
        repeat split; try assumption. subst lo. now apply M_RepStep.
      - now apply Hstop. }
    destruct hi as [[|h]|].
    + exists [], s. repeat split; [constructor | exact H].
    + destruct lo as [|lo]; [apply Hgreedy | apply (Hstep lo)]; try easy.
    + destruct lo as [|lo]; [apply Hgreedy | apply (Hstep lo)]; try easy.
Qed.

Lemma rmatch_sound (r : regex) :
  forall prev s (k : cont A) a, rmatch r prev s k = Some a ->
    exists m rest, s = m ++ rest /\ matches r prev m rest
                   /\ k (lastOr prev m) rest = Some a.
Proof.
  induction r as [|p|r1 IH1 r2 IH2|r1 IH1 r2 IH2|lo hi r IH| | |];
    intros prev s k a H; cbn [rmatch] in H.
  - exists [], s. repeat split; [constructor | exact H].
  - destruct s as [|c s']; [discriminate|].
    destruct (p c) eqn:E; [|discriminate].
    exists [c], s'. repeat split; [now constructor | exact H].
  - apply IH1 in H. destruct H as (m1 & rest1 & -> & Hm1 & H).
    apply IH2 in H. destruct H as (m2 & rest & -> & Hm2 & H).
    exists (m1 ++ m2), rest. rewrite <- app_assoc, lastOr_app.
    repeat split; try assumption. now constructor.
  - destruct (rmatch r1 prev s k) as [x|] eqn:E.
    + injection H as ->. apply IH1 in E. destruct E as (m & rest & -> & Hm & E).
      exists m, rest. repeat split; [now apply M_AltL | exact E].
    + apply IH2 in H. destruct H as (m & rest & -> & Hm & E').
      exists m, rest. repeat split; [now apply M_AltR | exact E'].
  - now apply repeat_match_sound in H.
  - destruct (xorb _ _) eqn:E; [|discriminate].
    exists [], s. repeat split; [now constructor | exact H].
  - destruct prev; [discriminate|].
    exists [], s. repeat split; [constructor | exact H].
  - destruct s; [|discriminate].
    exists [], []. repeat split; [constructor | exact H].
Qed.
End Soundness.

Lemma consumes_nonempty r p m rt :
  matches r p m rt -> consumes r = true -> m <> [].
Proof.
  induction 1 as [p rt|c p x rt Hc|r1 r2 p m1 m2 rt _ IH1 _ IH2|r1 r2 p m rt _ IH
                 |r1 r2 p m rt _ IH|lo r p rt|hi r p rt
                 |lo hi r p m1 m2 rt Hhi _ IH1 _ IH2|p rt Hb|rt|p];
    cbn [consumes]; intros Hc'; try discriminate.
  - destruct (consumes r1) eqn:E1.
    + intros E. apply app_eq_nil in E. destruct E as [E _]. now apply IH1.
    + intros E. apply app_eq_nil in E. destruct E as [_ E]. now apply IH2.
  - apply andb_prop in Hc'. now apply IH.
  - apply andb_prop in Hc'. now apply IH.
  - destruct lo; discriminate.
  - intros E. apply app_eq_nil in E. destruct E as [E _].
    destruct lo as [|lo]; [discriminate|].
    destruct hi as [[|h]|]; try discriminate; now apply IH1.
Qed.

Lemma exec_complete_aux (A : Type) r p m rt :
  matches r p m rt -> productive r = true ->
  forall (k : cont A), k (lastOr p m) rt <> None -> rmatch r p (m ++ rt) k <> None.
Proof.
  induction 1 as [p rt|c p x rt Hc|r1 r2 p m1 m2 rt _ IH1 _ IH2|r1 r2 p m rt _ IH
                 |r1 r2 p m rt _ IH|lo r p rt|hi r p rt
                 |lo hi r p m1 m2 rt Hhi Hm1 IH1 _ IH2|p rt Hb|rt|p];
    cbn [productive]; intros Hp k Hk; cbn [rmatch].
  - exact Hk.
  - cbn. now rewrite Hc.
  - apply andb_prop in Hp. destruct Hp as [Hp1 Hp2].
    rewrite <- app_assoc. apply IH1; [exact Hp1|].
    apply IH2; [exact Hp2|]. now rewrite <- lastOr_app.
  - apply andb_prop in Hp. destruct Hp as [Hp1 Hp2].
    specialize (IH Hp1 k Hk). now destruct (rmatch r1 p (m ++ rt) k).
  - apply andb_prop in Hp. destruct Hp as [Hp1 Hp2].
    destruct (rmatch r1 p (m ++ rt) k); [discriminate | now apply IH].
  - cbn [repeat_match app]. exact Hk.
  - cbn [repeat_match app]. destruct hi as [[|h]|]; try exact Hk.
    + destruct (rmatch r p rt _); [discriminate | exact Hk].
    + destruct (rmatch r p rt _); [discriminate | exact Hk].
  - apply andb_prop in Hp. destruct Hp as [Hc Hp].
    assert (Hne : m1 <> []) by (eapply consumes_nonempty; eassumption).
    assert (Hp' : productive (Rep (pred lo) (option_map pred hi) r) = true).
    { cbn [productive]. now rewrite Hc, Hp. }
    specialize (IH2 Hp' k). rewrite <- lastOr_app in IH2. specialize (IH2 Hk).
    cbn [rmatch] in IH2.
    assert (Hfuel : forall fuel, pred lo + length (m2 ++ rt) < fuel ->
              repeat_match (rmatch r) fuel (pred lo) (option_map pred hi)
                           (lastOr p m1) (m2 ++ rt) k <> None).
    { intros fuel Hf.
      rewrite (@repeat_match_fuel A (rmatch r) (@rmatch_local A r) fuel
                 (S (pred lo + length (m2 ++ rt)))); [exact IH2 | exact Hf | lia]. }
    assert (Hlen : length (m2 ++ rt) < length ((m1 ++ m2) ++ rt)).
    { rewrite <- app_assoc, (length_app m1). destruct m1; [contradiction|]. cbn. lia. }
    cbn [repeat_match].
    destruct hi as [[|h]|]; [contradiction | |];
      (destruct lo as [|lo];
       [ match goal with
         | |- match ?X with _ => _ end <> None =>
             assert (HX : X <> None);
             [ rewrite <- app_assoc; apply IH1; [exact Hp|];
               rewrite app_assoc;
               apply Nat.ltb_lt in Hlen; rewrite Hlen; apply Hfuel;
               cbn [pred]; apply Nat.ltb_lt in Hlen; lia
             | destruct X; [discriminate | contradiction] ]
         end
       | rewrite <- app_assoc; apply IH1; [exact Hp|];
         apply Hfuel; cbn [pred]; rewrite app_assoc; lia ]).
  - cbn [app]. now rewrite Hb.
  - exact Hk.
  - exact Hk.
Qed.

(** The matcher finds a match exactly when one exists. *)
Lemma exec_sound r prev s n :
  exec r prev s = Some n ->
  exists m rest, s = m ++ rest /\ matches r prev m rest /\ n = length m.
Proof.
  unfold exec. intros H. apply rmatch_sound in H.
  destruct H as (m & rest & -> & Hm & E). exists m, rest.
  repeat split; try assumption. injection E as <-.
  rewrite length_app. lia.
Qed.

Lemma exec_complete r prev m rest :
  productive r = true -> matches r prev m rest -> exec r prev (m ++ rest) <> None.
Proof.
  intros Hp Hm. unfold exec. apply exec_complete_aux with (1 := Hm); [exact Hp|].
  discriminate.
Qed.

Lemma matches_free r p m rt :
  matches r p m rt -> free r = true -> forall p' rt', matches r p' m rt'.
Proof.
  induction 1 as [p rt|c p x rt Hc|r1 r2 p m1 m2 rt _ IH1 _ IH2|r1 r2 p m rt _ IH
                 |r1 r2 p m rt _ IH|lo r p rt|hi r p rt
                 |lo hi r p m1 m2 rt Hhi _ IH1 _ IH2|p rt Hb|rt|p];
    cbn [free]; intros Hf p' rt'; try discriminate.
  - constructor.
  - now constructor.
  - apply andb_prop in Hf. destruct Hf. constructor; [now apply IH1 | now apply IH2].
  - apply andb_prop in Hf. destruct Hf. apply M_AltL. now apply IH.
  - apply andb_prop in Hf. destruct Hf. apply M_AltR. now apply IH.
  - constructor.
  - constructor.
  - apply M_RepStep; [exact Hhi | now apply IH1 | now apply IH2].
Qed.

Lemma matches_within C r p m rt :
  matches r p m rt -> within C r -> Forall (fun c => C c = true) m.
Proof.
  induction 1 as [p rt|c p x rt Hc|r1 r2 p m1 m2 rt _ IH1 _ IH2|r1 r2 p m rt _ IH
                 |r1 r2 p m rt _ IH|lo r p rt|hi r p rt
                 |lo hi r p m1 m2 rt Hhi _ IH1 _ IH2|p rt Hb|rt|p];
    cbn [within]; intros Hw; try constructor.
  - now apply Hw.
  - constructor.
  - apply Forall_app. destruct Hw. split; [now apply IH1 | now apply IH2].
  - destruct Hw. now apply IH.
  - destruct Hw. now apply IH.
  - apply Forall_app. split; [now apply IH1 | now apply IH2].
Qed.

Lemma replace_from_quiet r f s :
  forall prev, quiet r prev s -> replace_from r f prev s 0 = s.
Proof.
  induction s as [|c s IH]; intros prev Hq; cbn [replace_from].
  - pose proof (Hq [] [] eq_refl) as H. cbn [lastOr] in H. now rewrite H.
  - pose proof (Hq [] (c :: s) eq_refl) as H. cbn [lastOr] in H. rewrite H.
    f_equal. apply IH.
    intros a b ->. apply (Hq (c :: a) b). reflexivity.
Qed.

Lemma exec_not_zero r prev s :
  consumes r = true -> exec r prev s <> Some 0.
Proof.
  intros Hc H. apply exec_sound in H. destruct H as (m & rest & _ & Hm & Hlen).
  apply (consumes_nonempty Hm Hc). now destruct m.
Qed.

Lemma replace_from_skip r f n :
  forall s prev, n <= length s ->
    replace_from r f prev s n
    = replace_from r f (lastOr prev (firstn n s)) (skipn n s) 0.
Proof.
  induction n as [|n IH]; intros s prev Hn.
  - reflexivity.
  - destruct s as [|c s]; [cbn in Hn; lia|].
    cbn [replace_from firstn skipn lastOr]. apply IH. cbn in Hn. lia.
Qed.

Lemma exec_length r prev s n : exec r prev s = Some n -> n <= length s.
Proof.
  intros H. apply exec_sound in H. destruct H as (m & rest & -> & _ & ->).
  rewrite length_app. lia.
Qed.

(** One step of the scan: nothing matches here and the code unit is kept,
    or the match found here is replaced and the scan goes on after it. *)
Lemma replace_from_step r (tok : jsstring) prev s :
  consumes r = true ->
  (exec r prev s = None /\
   replace_from r (fun _ => tok) prev s 0
   = match s with
     | [] => []
     | c :: s1 => c :: replace_from r (fun _ => tok) (Some c) s1 0
     end)
  \/ (exists M s', s = M ++ s' /\ M <> [] /\ matches r prev M s'
        /\ exec r prev s <> None
        /\ replace_from r (fun _ => tok) prev s 0
           = tok ++ replace_from r (fun _ => tok) (lastOr prev M) s' 0).
Proof.
  intros Hc. destruct (exec r prev s) as [n|] eqn:E.
  - right. pose proof (exec_length _ _ _ E) as Hlen.
    pose proof (exec_sound _ _ _ E) as (M & s' & Hs & Hm & Hn).
    exists M, s'. pose proof (consumes_nonempty Hm Hc) as Hne.
    repeat split; try assumption; [congruence|].
    subst s n. destruct M as [|c M]; [contradiction|].
    cbn [app length] in *. cbn [replace_from]. rewrite E.
    rewrite replace_from_skip by (rewrite length_app; lia).
    replace (firstn (S (length M)) (c :: M ++ s')) with (c :: M)
      by (cbn [firstn]; now rewrite firstn_app, firstn_all, Nat.sub_diag, app_nil_r).
    rewrite firstn_app, firstn_all, Nat.sub_diag, skipn_app, skipn_all, Nat.sub_diag.
    cbn [firstn skipn app lastOr]. now rewrite app_nil_r.
  - left. split; [reflexivity|].
    destruct s; cbn [replace_from]; now rewrite E.
Qed.

Section Scan.
Variable r : regex.
Variable tok : jsstring.
Variable C : N -> bool.
Hypothesis r_consumes : consumes r = true.
Hypothesis tok_outside : Forall (fun c => C c = false) tok.
Hypothesis tok_nonempty : tok <> [].

(** A text over [C] cannot overlap the token. *)
Lemma token_not_overlapped (t W a m rest : jsstring) :
  Forall (fun c => C c = false) t ->
  t ++ W = a ++ m ++ rest -> Forall (fun c => C c = true) m -> m <> [] ->
  exists a', a = t ++ a' /\ W = a' ++ m ++ rest.
Proof.
  intros Ht. revert a. induction Ht as [|x t Hx Ht IH]; intros a E Hm Hne.
  - exists a. now split.
  - destruct a as [|y a].
    + destruct m as [|z m]; [contradiction|]. cbn in E. injection E as <- _.
      inversion Hm; subst. congruence.
    + cbn in E. injection E as <- E. destruct (IH a E Hm Hne) as (a' & -> & E').
      exists a'. now split.
Qed.

(** A prefix over [C] of the output is a prefix of the input, followed by
    the same code unit or by a match. *)
Lemma output_prefix s :
  forall prev m rest,
    replace_from r (fun _ => tok) prev s 0 = m ++ rest -> Forall (fun c => C c = true) m ->
    exists rest_s, s = m ++ rest_s
      /\ (hd_error rest_s = hd_error rest \/ exec r (lastOr prev m) rest_s <> None).
Proof.
  induction s as [|c s IH]; intros prev m rest E Hm.
  - destruct (@replace_from_step r tok prev [] r_consumes) as [[E0 E1]|(M & s' & Hs & Hne & _)].
    + rewrite E1 in E. destruct m; [|discriminate]. exists []. split; [reflexivity|].
      left. cbn in E. now subst.
    + destruct M; [contradiction | discriminate].
  - destruct (@replace_from_step r tok prev (c :: s) r_consumes)
      as [[E0 E1]|(M & s' & Hs & Hne & HM & Hex & E1)]; rewrite E1 in E.
    + destruct m as [|x m].
      * exists (c :: s). split; [reflexivity|]. left. cbn in E. now subst.
      * cbn in E. injection E as <- E. inversion Hm; subst.
        destruct (IH (Some c) m rest E H2) as (rest_s & -> & Hh).
        exists rest_s. split; [reflexivity | exact Hh].
    + destruct m as [|x m].
      * exists (c :: s). split; [reflexivity|]. right. cbn [lastOr]. exact Hex.
      * exfalso. destruct tok as [|t tok']; [contradiction|].
        cbn in E. injection E as -> _. inversion Hm; subst. inversion tok_outside; subst.
        congruence.
Qed.
End Scan.

Section ScanAvoids.
Variable r : regex.
Variable tok : jsstring.
Variable C : N -> bool.
Hypothesis r_consumes : consumes r = true.
Hypothesis tok_outside : Forall (fun c => C c = false) tok.
Hypothesis tok_nonempty : tok <> [].
Variable L : jsstring -> Prop.
Hypothesis L_inC : forall m, L m -> Forall (fun c => C c = true) m /\ m <> [].

Lemma scan_avoids (n : nat) :
  forall s prev, length s <= n -> caught r L prev s ->
    avoids L (replace_from r (fun _ => tok) prev s 0).
Proof.
  induction n as [|n IH]; intros s prev Hn Hc a m rest E HL;
    destruct (L_inC HL) as [HmC Hne];
    destruct (@replace_from_step r tok prev s r_consumes)
      as [[E0 E1]|(M & s' & Hs & HMne & HM & Hex & E1)].
  - destruct s; [|cbn in Hn; lia]. rewrite E1 in E.
    symmetry in E. apply app_eq_nil in E. destruct E as [_ E].
    apply app_eq_nil in E. now destruct E.
  - subst s. destruct M; [contradiction | cbn in Hn; lia].
  - destruct s as [|c s1].
    + rewrite E1 in E. symmetry in E. apply app_eq_nil in E. destruct E as [_ E].
      apply app_eq_nil in E. now destruct E.
    + destruct a as [|y a'].
      * cbn [app] in E.
        destruct (@output_prefix r tok C r_consumes tok_outside tok_nonempty
                    (c :: s1) prev m rest E HmC) as (rest_s & Hs & _).
        specialize (Hc [] m rest_s Hs HL). cbn [lastOr] in Hc.
        rewrite <- Hs in Hc. contradiction.
      * rewrite E1 in E. cbn [app] in E. injection E as <- E.
        apply (IH s1 (Some c)) with (a := a') (m := m) (rest := rest);
          [cbn in Hn; lia | | exact E | exact HL].
        intros a0 m0 rest0 -> HL0. apply (Hc (c :: a0) m0 rest0 eq_refl HL0).
  - rewrite E1 in E.
    destruct (@token_not_overlapped C tok _ a m rest tok_outside E HmC Hne)
      as (a' & -> & E').
    apply (IH s' (lastOr prev M)) with (a := a') (m := m) (rest := rest);
      [ subst s; rewrite length_app in Hn; destruct M; [contradiction|cbn in Hn; lia]
      | | exact E' | exact HL].
    intros a0 m0 rest0 -> HL0. rewrite <- lastOr_app.
    apply (Hc (M ++ a0) m0 rest0); [|exact HL0].
    rewrite Hs. now rewrite <- app_assoc.
Qed.
End ScanAvoids.

Section ScanGuarded.
Variable r : regex.
Variable tok : jsstring.
Variable C : N -> bool.
Hypothesis r_consumes : consumes r = true.
Hypothesis r_productive : productive r = true.
Hypothesis tok_outside : Forall (fun c => C c = false) tok.
Hypothesis tok_nonempty : tok <> [].
Hypothesis tok_last : forall q, isWordOpt (lastOr q tok) = false.
Hypothesis r_inC : forall p m rt, matches r p m rt -> Forall (fun c => C c = true) m.
Hypothesis r_edges : forall p m rt, matches r p m rt ->
  isWordOpt p = false /\ isWordOpt (hd_error rt) = false
  /\ isWordOpt (hd_error m) = true /\ (forall q, isWordOpt (lastOr q m) = true).
Hypothesis r_local : forall p m rt p' rt', matches r p m rt ->
  isWordOpt p' = false -> isWordOpt (hd_error rt') = false -> matches r p' m rt'.

(** After the scan [r] matches nowhere in the output.  [ps] is the code
    unit before [s] in the input, [pw] the one before it in the output:
    they differ after a replaced match, where the input goes on with a
    code unit that is not a word character. *)
Lemma scan_quiet_guarded (n : nat) :
  forall s ps pw, length s <= n ->
    (isWordOpt ps = isWordOpt pw
     \/ (isWordOpt pw = false /\ isWordOpt (hd_error s) = false)) ->
    forall a m rest,
      replace_from r (fun _ => tok) ps s 0 = a ++ m ++ rest ->
      matches r (lastOr pw a) m rest -> False.
Proof.
  induction n as [|n IH]; intros s ps pw Hn Hinv a m rest E Hm;
    pose proof (r_inC Hm) as HmC;
    pose proof (consumes_nonempty Hm r_consumes) as Hne;
    destruct (r_edges Hm) as (Hp & Hrt & Hhd & Hlast);
    destruct (@replace_from_step r tok ps s r_consumes)
      as [[E0 E1]|(M & s' & Hs & HMne & HM & Hex & E1)].
  - destruct s; [|cbn in Hn; lia]. rewrite E1 in E.
    symmetry in E. apply app_eq_nil in E. destruct E as [_ E].
    apply app_eq_nil in E. now destruct E.
  - subst s. destruct M; [contradiction | cbn in Hn; lia].
  - destruct s as [|c s1].
    + rewrite E1 in E. symmetry in E. apply app_eq_nil in E. destruct E as [_ E].
      apply app_eq_nil in E. now destruct E.
    + destruct a as [|y a'].
      * cbn [app lastOr] in *.
        destruct (@output_prefix r tok C r_consumes tok_outside tok_nonempty
                    (c :: s1) ps m rest E HmC) as (rest_s & Hs & Hh).
        assert (Hps : isWordOpt ps = false).
        { destruct Hinv as [Hi|[_ Hi]]; [congruence|].
          destruct m as [|x m']; [contradiction|].
          cbn in Hs. injection Hs as <- _. cbn in Hi, Hhd. congruence. }
        destruct Hh as [Hh|Hh].
        -- apply (exec_complete (prev := ps) (m := m) (rest := rest_s) r_productive).
           ++ apply (@r_local pw m rest ps rest_s Hm Hps). now rewrite Hh.
           ++ now rewrite <- Hs.
        -- destruct (exec r (lastOr ps m) rest_s) as [k|] eqn:Ek; [|contradiction].
           apply exec_sound in Ek. destruct Ek as (m' & rest' & _ & Hm' & _).
           destruct (r_edges Hm') as (Hp' & _). rewrite Hlast in Hp'. discriminate.
      * rewrite E1 in E. cbn [app] in E. injection E as <- E.
        apply (IH s1 (Some c) (Some c)) with (a := a') (m := m) (rest := rest);
          [cbn in Hn; lia | now left | exact E | exact Hm].
  - rewrite E1 in E.
    destruct (@token_not_overlapped C tok _ a m rest tok_outside E HmC Hne)
      as (a' & -> & E').
    rewrite lastOr_app in Hm.
    apply (IH s' (lastOr ps M) (lastOr pw tok)) with (a := a') (m := m) (rest := rest);
      [ subst s; rewrite length_app in Hn; destruct M; [contradiction|cbn in Hn; lia]
      | right; split; [apply tok_last | now destruct (r_edges HM) as (_ & ? & _)]
      | exact E' | exact Hm].
Qed.

Lemma scan_output_quiet (s : jsstring) :
  quiet r None (replace_from r (fun _ => tok) None s 0).
Proof.
  intros a b E. destruct (exec r (lastOr None a) b) as [k|] eqn:Ek; [|reflexivity].
  exfalso. apply exec_sound in Ek. destruct Ek as (m & rest & -> & Hm & _).
  apply (@scan_quiet_guarded (length s) s None None (le_n _) (or_introl eq_refl)
           a m rest E Hm).
Qed.
End ScanGuarded.

(** ** Regex masker *)

Lemma digitAndAtFree_lacks s :
  digitAndAtFree s = true -> lacks isDigit s /\ lacks isAt s.
Proof.
  unfold digitAndAtFree, lacks. rewrite forallb_forall, !Forall_forall.
  intros H; split; intros c Hc; specialize (H c Hc);
    apply andb_prop in H; destruct H as [H1 H2];
    [destruct (isDigit c) | destruct (isAt c)]; simpl in *; congruence.
Qed.

(** A text without digits and without [@] goes through the eight rules
    unchanged: each rule needs one of them. *)
Lemma maskSegmentText_fixed s :
  digitAndAtFree s = true -> maskSegmentText s = s.
Proof.
  intros H. apply digitAndAtFree_lacks in H. destruct H as [Hd Ha].
  unfold maskSegmentText, replaceAll.
  rewrite (replaceAllWith_lacks _ reEmail_needs_at Ha).
  rewrite (replaceAllWith_lacks _ rePhone_needs_digit Hd).
  rewrite (replaceAllWith_lacks _ rePhoneAlt_needs_digit Hd).
  rewrite (replaceAllWith_lacks _ rePhoneDigits_needs_digit Hd).
  rewrite (replaceAllWith_lacks _ rePersonCode_needs_digit Hd).
  rewrite (replaceAllWith_lacks _ reCard_needs_digit Hd).
  rewrite (replaceAllWith_lacks _ reAccountLT_needs_digit Hd).
  now rewrite (replaceAllWith_lacks _ reAccountDigits_needs_digit Hd).
Qed.

(** [maskWithRegex] applies to [text] the very rules of [maskSegmentText]. *)
Lemma maskWithRegex_text t :
  text (maskWithRegex t) = maskSegmentText (text t).
Proof. reflexivity. Qed.

Lemma maskWithRegex_segments t :
  segments (maskWithRegex t)
  = map (fun seg => withSegText seg (maskSegmentText (seg_text seg))) (segments t).
Proof. reflexivity. Qed.

Lemma maskWithRegex_fixed t :
  transcriptDigitAndAtFree t = true -> maskWithRegex t = t.
Proof.
  unfold transcriptDigitAndAtFree. intros H.
  apply andb_prop in H. destruct H as [Ht Hs].
  destruct t as [i tx ts lang segs]; simpl in *.
  unfold maskWithRegex, withTextAndSegments; simpl.
  change (replaceAllWith reAccountDigits _ _) with (maskSegmentText tx).
  rewrite (maskSegmentText_fixed _ Ht). f_equal.
  rewrite forallb_forall in Hs.
  rewrite <- (map_id segs) at 2. apply map_ext_in.
  intros seg Hin. rewrite (maskSegmentText_fixed _ (Hs seg Hin)).
  now destruct seg.
Qed.

(** C3.  On the three inputs of the category coverage property the regex
    masker returns "mano asmens kodas[PHONE]", "el. paštas [EMAIL]" and
    "kortelė[PHONE] 1111": the e-mail is covered, but the person code and
    the card number are taken by the phone rule, which runs first, so the
    output contains neither [PERSON_CODE] nor [CARD_NUMBER]. *)
Theorem category_coverage_outputs :
  text (maskWithRegex (sample personCodeInput [])) = js "mano asmens kodas[PHONE]"
  /\ includes (text (maskWithRegex (sample personCodeInput []))) PERSON_CODE = false
  /\ includes (text (maskWithRegex (sample personCodeInput []))) (js "12345678901") = false
  /\ text (maskWithRegex (sample emailInput [])) = js "el. pa" ++ [353%N] ++ js "tas [EMAIL]"
  /\ includes (text (maskWithRegex (sample emailInput []))) EMAIL = true
  /\ text (maskWithRegex (sample cardInput [])) = js "kortel" ++ [279%N] ++ js "[PHONE] 1111"
  /\ includes (text (maskWithRegex (sample cardInput []))) CARD_NUMBER = false.
Proof. repeat split; vm_compute; reflexivity. Qed.

(** Taken alone, the person code rule and the card rule do cover the two
    inputs. *)
Lemma person_code_rule_alone :
  replaceAll rePersonCode PERSON_CODE personCodeInput
  = js "mano asmens kodas [PERSON_CODE]".
Proof. vm_compute. reflexivity. Qed.

Lemma card_rule_alone :
  replaceAll reCard CARD_NUMBER cardInput
  = js "kortel" ++ [279%N] ++ js " [CARD_NUMBER]".
Proof. vm_compute. reflexivity. Qed.

(** The phone rule matches inside every run of eleven digits, whatever
    comes before, so after it the person code rule has nothing to match:
    segments behave like the text. *)
Lemma segment_person_code_becomes_phone :
  maskSegmentText personCodeInput = js "mano asmens kodas[PHONE]".
Proof. vm_compute. reflexivity. Qed.

(** *** What the rules leave behind *)

Lemma rep_char lo hi P p m rt :
  matches (Rep lo hi (Char P)) p m rt ->
  Forall (fun c => P c = true) m
  /\ (bounded lo hi -> lo <= length m)
  /\ bounded (length m) hi.
Proof.
  remember (Rep lo hi (Char P)) as r eqn:Er. intros H. revert lo hi Er.
  induction H as [p rt|c p x rt Hc|r1 r2 p m1 m2 rt _ IH1 _ IH2|r1 r2 p m rt _ IH
                 |r1 r2 p m rt _ IH|lo r p rt|hi r p rt
                 |lo hi r p m1 m2 rt Hhi H1 _ _ IH2|p rt Hb|rt|p];
    intros lo0 hi0 Er; try discriminate.
  - injection Er as -> <- ->. cbn. repeat split; [constructor | lia | lia].
  - injection Er as <- -> ->. cbn. repeat split; [constructor | lia |].
    destruct hi0; cbn; [lia | exact I].
  - injection Er as -> -> ->.
    destruct (IH2 _ _ eq_refl) as (F2 & Hlo & Hup).
    inversion H1; subst. cbn [app length]. repeat split.
    + now constructor.
    + intros Hb. destruct hi0 as [h|]; cbn in *; [|lia].
      destruct h; [congruence|]. cbn in *. lia.
    + destruct hi0 as [h|]; cbn in *; [|exact I]. destruct h; [congruence|].
      cbn in *. lia.
Qed.

Lemma rep_char_intro (P : N -> bool) m :
  Forall (fun c => P c = true) m ->
  forall lo hi p rt, lo <= length m -> bounded (length m) hi ->
    matches (Rep lo hi (Char P)) p m rt.
Proof.
  induction 1 as [|c m Hc _ IH]; intros lo hi p rt Hlo Hhi.
  - cbn in Hlo. replace lo with 0 by lia. apply M_RepStop.
  - change (c :: m) with ([c] ++ m). apply M_RepStep.
    + intros ->. cbn in Hhi. lia.
    + now constructor.
    + apply IH; [cbn in Hlo; lia|]. destruct hi as [h|]; cbn in *; [lia | exact I].
Qed.

Lemma seq_inv r1 r2 p m rt :
  matches (Seq r1 r2) p m rt ->
  exists m1 m2, m = m1 ++ m2 /\ matches r1 p m1 (m2 ++ rt)
                /\ matches r2 (lastOr p m1) m2 rt.
Proof. inversion 1; subst. eauto. Qed.

Lemma wordb_inv p m rt :
  matches WordB p m rt ->
  m = [] /\ xorb (isWordOpt p) (isWordOpt (hd_error rt)) = true.
Proof. inversion 1; subst. auto. Qed.

Lemma digits_inside n r :
  hasDigits n r -> forall p m rt, matches r p m rt ->
  exists x d y, m = x ++ d ++ y /\ Forall (fun c => isDigit c = true) d /\ n <= length d.
Proof.
  induction r as [|P|r1 IH1 r2 IH2|r1 IH1 r2 IH2|lo hi r1 IH| | |];
    cbn [hasDigits]; try contradiction.
  - intros [H|H] p m rt Hm; apply seq_inv in Hm;
      destruct Hm as (m1 & m2 & -> & Hm1 & Hm2).
    + destruct (IH1 H _ _ _ Hm1) as (x & d & y & -> & Hd & Hn).
      exists x, d, (y ++ m2). now rewrite <- !app_assoc.
    + destruct (IH2 H _ _ _ Hm2) as (x & d & y & -> & Hd & Hn).
      exists (m1 ++ x), d, y. now rewrite <- !app_assoc.
  - destruct r1 as [|P| | | | | |]; try contradiction. intros (-> & Hn & Hb) p m rt Hm.
    apply rep_char in Hm. destruct Hm as (Hd & Hlo & _).
    exists [], m, []. rewrite app_nil_r. repeat split; [exact Hd | ]. specialize (Hlo Hb). lia.
Qed.

Lemma seq_nil_l r1 r2 p m rt :
  matches r1 p [] (m ++ rt) -> matches r2 p m rt -> matches (Seq r1 r2) p m rt.
Proof. intros H1 H2. change m with ([] ++ m). now apply M_Seq. Qed.

Lemma seq_nil_r r1 r2 p m rt :
  matches r1 p m rt -> matches r2 (lastOr p m) [] rt -> matches (Seq r1 r2) p m rt.
Proof.
  intros H1 H2. rewrite <- (app_nil_r m). apply M_Seq; [|exact H2]. exact H1.
Qed.

Lemma phone_blocks d1 s1 d2 s2 d3 p rt :
  Forall (fun c => isDigit c = true) d1 -> 1 <= length d1 <= 3 ->
  Forall (fun c => isSpace c = true) s1 ->
  Forall (fun c => isDigit c = true) d2 -> 2 <= length d2 <= 3 ->
  Forall (fun c => isSpace c = true) s2 ->
  Forall (fun c => isDigit c = true) d3 -> 3 <= length d3 <= 4 ->
  matches rePhone p (d1 ++ s1 ++ d2 ++ s2 ++ d3) rt.
Proof.
  intros D1 L1 S1 D2 L2 S2 D3 L3. unfold rePhone. cbn [seqs].
  apply seq_nil_l; [apply M_RepStop|].
  apply seq_nil_l; [apply M_RepStop|].
  apply seq_nil_l; [apply M_RepStop|].
  apply seq_nil_l; [apply M_RepStop|].
  apply M_Seq; [apply rep_char_intro; cbn; (exact D1 || lia)|].
  apply M_Seq; [apply rep_char_intro; cbn; (exact S1 || lia || exact I)|].
  apply M_Seq; [apply rep_char_intro; cbn; (exact D2 || lia)|].
  apply M_Seq; [apply rep_char_intro; cbn; (exact S2 || lia || exact I)|].
  apply seq_nil_r; [apply rep_char_intro; cbn; (exact D3 || lia)|].
  apply seq_nil_l; apply M_RepStop.
Qed.

Lemma six_digits d :
  Forall (fun c => isDigit c = true) d -> 6 <= length d ->
  exists a m rest, d = a ++ m ++ rest /\ isPhoneText m.
Proof.
  intros Hd Hn.
  destruct d as [|x1 [|x2 [|x3 [|x4 [|x5 [|x6 rest]]]]]]; cbn in Hn; try lia.
  exists [], [x1; x2; x3; x4; x5; x6], rest. split; [reflexivity|].
  repeat match goal with H : Forall _ (_ :: _) |- _ => inversion H; subst; clear H end.
  apply (@phone_blocks [x1] [] [x2; x3] [] [x4; x5; x6]);
    repeat constructor; cbn; auto; lia.
Qed.

Lemma hasDigits_covered r : hasDigits 6 r -> covered r.
Proof.
  intros H p m rt Hm.
  destruct (digits_inside _ H Hm) as (x & d & y & -> & Hd & Hn).
  destruct (six_digits Hd Hn) as (a & m' & rest & -> & Hp).
  exists (x ++ a), m', (rest ++ y). split; [|exact Hp].
  now rewrite <- !app_assoc.
Qed.

Lemma rePhone_free : free rePhone = true.
Proof. reflexivity. Qed.

Lemma rePhone_covered : covered rePhone.
Proof.
  intros p m rt Hm. exists [], m, []. rewrite app_nil_r. split; [reflexivity|].
  apply (matches_free Hm rePhone_free).
Qed.

Lemma rePhoneDigits_covered : covered rePhoneDigits.
Proof. apply hasDigits_covered. cbn. right. left. repeat split; cbn; lia. Qed.

Lemma rePersonCode_covered : covered rePersonCode.
Proof. apply hasDigits_covered. cbn. right. left. repeat split; cbn; lia. Qed.

Lemma reAccountLT_covered : covered reAccountLT.
Proof.
  apply hasDigits_covered. cbn. right. right. right. right. left.
  repeat split; cbn; lia.
Qed.

Lemma reAccountDigits_covered : covered reAccountDigits.
Proof. apply hasDigits_covered. cbn. right. left. repeat split; cbn; lia. Qed.

Lemma rePhoneAlt_covered : covered rePhoneAlt.
Proof.
  intros p m rt Hm. unfold rePhoneAlt in Hm. cbn [seqs] in Hm.
  apply seq_inv in Hm. destruct Hm as (m0 & m' & -> & H0 & Hm).
  apply wordb_inv in H0. destruct H0 as [-> _].
  apply seq_inv in Hm. destruct Hm as (d1 & m1 & -> & Hd1 & Hm).
  apply seq_inv in Hm. destruct Hm as (s1 & m2 & -> & Hs1 & Hm).
  apply seq_inv in Hm. destruct Hm as (d2 & m3 & -> & Hd2 & Hm).
  apply seq_inv in Hm. destruct Hm as (s2 & m4 & -> & Hs2 & Hm).
  apply seq_inv in Hm. destruct Hm as (d3 & m5 & -> & Hd3 & Hm).
  apply wordb_inv in Hm. destruct Hm as [-> _].
  apply rep_char in Hd1, Hs1, Hd2, Hs2, Hd3. cbn [bounded] in *.
  destruct Hd1 as (D1 & L1 & U1), Hs1 as (S1 & _), Hd2 as (D2 & L2 & U2),
    Hs2 as (S2 & _), Hd3 as (D3 & L3 & U3).
  exists [], (d1 ++ s1 ++ d2 ++ s2 ++ d3), []. split.
  - cbn [app]. now rewrite !app_nil_r.
  - apply phone_blocks; auto; lia.
Qed.

Lemma covered_quiet r s prev :
  covered r -> avoids isPhoneText s -> quiet r prev s.
Proof.
  intros Hc Ha a b E. destruct (exec r (lastOr prev a) b) as [k|] eqn:Ek; [|reflexivity].
  exfalso. apply exec_sound in Ek. destruct Ek as (m & rest & -> & Hm & _).
  destruct (Hc _ _ _ Hm) as (a' & m' & rest' & -> & Hp).
  apply (Ha (a ++ a') m' (rest' ++ rest)); [|exact Hp].
  rewrite E. now rewrite <- !app_assoc.
Qed.

Lemma covered_identity r f s :
  covered r -> avoids isPhoneText s -> replaceAllWith r f s = s.
Proof.
  intros Hc Ha. unfold replaceAllWith. apply replace_from_quiet.
  now apply covered_quiet.
Qed.

Lemma forallb_outside (C : N -> bool) (t : jsstring) :
  forallb (fun c => negb (C c)) t = true -> Forall (fun c => C c = false) t.
Proof.
  rewrite forallb_forall, Forall_forall. intros H c Hc.
  specialize (H c Hc). now destruct (C c).
Qed.

Lemma isChar_eq a c : isChar a c = true -> c = N_of_ascii a.
Proof. unfold isChar. apply N.eqb_eq. Qed.

Lemma rePhone_within : within isPhoneChar rePhone.
Proof.
  unfold rePhone, digit, space, chr. cbn.
  repeat split; intros c H; try (apply isChar_eq in H; subst c; reflexivity);
    unfold isPhoneChar; rewrite H; cbn; now rewrite ?orb_true_r.
Qed.

Lemma isPhoneText_chars m :
  isPhoneText m -> Forall (fun c => isPhoneChar c = true) m /\ m <> [].
Proof.
  intros H. split.
  - apply (@matches_within isPhoneChar _ _ _ _ H rePhone_within).
  - apply (consumes_nonempty H). reflexivity.
Qed.

(** After the phone rule has run, no text it matches is left. *)
Lemma phone_output_avoids s : avoids isPhoneText (replaceAll rePhone PHONE s).
Proof.
  unfold replaceAll, replaceAllWith.
  apply (@scan_avoids rePhone PHONE isPhoneChar eq_refl) with (n := length s).
  - apply forallb_outside. reflexivity.
  - discriminate.
  - exact isPhoneText_chars.
  - apply le_n.
  - intros a m rest _ Hm. apply exec_complete; [reflexivity|].
    apply (matches_free Hm rePhone_free).
Qed.

(** A later rule whose placeholder has no code unit of a phone number
    leaves none behind either. *)
Lemma avoids_kept r tok s :
  consumes r = true -> forallb (fun c => negb (isPhoneChar c)) tok = true ->
  tok <> [] -> avoids isPhoneText s -> avoids isPhoneText (replaceAll r tok s).
Proof.
  intros Hr Ht Hne Ha. unfold replaceAll, replaceAllWith.
  apply (@scan_avoids r tok isPhoneChar Hr (forallb_outside _ _ Ht) Hne
           isPhoneText isPhoneText_chars (length s) s None (le_n _)).
  intros a m rest E Hm. destruct (Ha a m rest E Hm).
Qed.

Lemma digit_is_word c : isDigit c = true -> isWordChar c = true.
Proof. unfold isWordChar. intros ->. now rewrite !orb_true_r. Qed.

Lemma lastOr_digits a :
  Forall (fun c => isDigit c = true) a -> a <> [] ->
  forall q, isWordOpt (lastOr q a) = true.
Proof.
  induction 1 as [|c a Hc Ha IH]; intros Hne q; [contradiction|].
  cbn [lastOr]. destruct a as [|c' a'].
  - cbn. now apply digit_is_word.
  - apply IH. discriminate.
Qed.

Lemma four_digits lo p a rt :
  matches (Rep (S lo) (Some 4) digit) p a rt -> bounded (S lo) (Some 4) ->
  Forall (fun c => isDigit c = true) a /\ a <> [].
Proof.
  intros H Hb. apply rep_char in H. destruct H as (Hd & Hlo & _).
  split; [exact Hd|]. specialize (Hlo Hb). destruct a; [cbn in Hlo; lia | discriminate].
Qed.

Lemma reCardCore_within : within isCardChar reCardCore.
Proof.
  unfold reCardCore, digit. cbn.
  repeat split; intros c H; unfold isCardChar; rewrite H; now rewrite ?orb_true_r.
Qed.

Lemma reCardCore_edges p m rt :
  matches reCardCore p m rt ->
  isWordOpt (hd_error m) = true /\ forall q, isWordOpt (lastOr q m) = true.
Proof.
  unfold reCardCore. cbn [seqs]. intros Hm.
  apply seq_inv in Hm. destruct Hm as (a1 & m1 & -> & Ha1 & Hm).
  apply seq_inv in Hm. destruct Hm as (b1 & m2 & -> & _ & Hm).
  apply seq_inv in Hm. destruct Hm as (a2 & m3 & -> & _ & Hm).
  apply seq_inv in Hm. destruct Hm as (b2 & m4 & -> & _ & Hm).
  apply seq_inv in Hm. destruct Hm as (a3 & m5 & -> & _ & Hm).
  apply seq_inv in Hm. destruct Hm as (b3 & a4 & -> & _ & Ha4).
  apply four_digits in Ha1; [|cbn; lia]. apply four_digits in Ha4; [|cbn; lia].
  destruct Ha1 as [D1 N1], Ha4 as [D4 N4]. split.
  - destruct a1 as [|c a1]; [contradiction|]. cbn. apply digit_is_word. now inversion D1.
  - intros q. rewrite !lastOr_app. now apply lastOr_digits.
Qed.

(** The card rule is its core between two word boundaries. *)
Lemma reCard_iff p m rt :
  matches reCard p m rt <->
  matches reCardCore p m rt
  /\ xorb (isWordOpt p) (isWordOpt (hd_error (m ++ rt))) = true
  /\ xorb (isWordOpt (lastOr p m)) (isWordOpt (hd_error rt)) = true.
Proof.
  unfold reCard, reCardCore. cbn [seqs]. split.
  - intros Hm.
    apply seq_inv in Hm. destruct Hm as (m0 & m' & -> & H0 & Hm).
    apply wordb_inv in H0. destruct H0 as [-> Hb1]. cbn [app lastOr] in *.
    apply seq_inv in Hm. destruct Hm as (a1 & m1 & -> & Ha1 & Hm).
    apply seq_inv in Hm. destruct Hm as (b1 & m2 & -> & Hb1' & Hm).
    apply seq_inv in Hm. destruct Hm as (a2 & m3 & -> & Ha2 & Hm).
    apply seq_inv in Hm. destruct Hm as (b2 & m4 & -> & Hb2' & Hm).
    apply seq_inv in Hm. destruct Hm as (a3 & m5 & -> & Ha3 & Hm).
    apply seq_inv in Hm. destruct Hm as (b3 & m6 & -> & Hb3' & Hm).
    apply seq_inv in Hm. destruct Hm as (a4 & m7 & -> & Ha4 & Hm).
    apply wordb_inv in Hm. destruct Hm as [-> Hb2].
    rewrite app_nil_r in *. repeat split.
    + repeat (apply M_Seq; [eapply matches_free; [eassumption | reflexivity]|]).
      eapply matches_free; [eassumption | reflexivity].
    + exact Hb1.
    + rewrite !lastOr_app. exact Hb2.
  - intros (Hm & Hb1 & Hb2).
    apply seq_nil_l; [now constructor|].
    apply seq_inv in Hm. destruct Hm as (a1 & m1 & -> & Ha1 & Hm).
    apply seq_inv in Hm. destruct Hm as (b1 & m2 & -> & Hb1' & Hm).
    apply seq_inv in Hm. destruct Hm as (a2 & m3 & -> & Ha2 & Hm).
    apply seq_inv in Hm. destruct Hm as (b2 & m4 & -> & Hb2' & Hm).
    apply seq_inv in Hm. destruct Hm as (a3 & m5 & -> & Ha3 & Hm).
    apply seq_inv in Hm. destruct Hm as (b3 & a4 & -> & Hb3' & Ha4).
    repeat (apply M_Seq; [eapply matches_free; [eassumption | reflexivity]|]).
    apply seq_nil_r; [eapply matches_free; [eassumption | reflexivity]|].
    constructor. rewrite !lastOr_app in Hb2. exact Hb2.
Qed.

Lemma reCard_edges p m rt :
  matches reCard p m rt ->
  isWordOpt p = false /\ isWordOpt (hd_error rt) = false
  /\ isWordOpt (hd_error m) = true /\ (forall q, isWordOpt (lastOr q m) = true).
Proof.
  intros H. apply reCard_iff in H. destruct H as (Hm & Hb1 & Hb2).
  destruct (reCardCore_edges Hm) as [Hhd Hlast].
  rewrite Hlast in Hb2.
  assert (Hh : hd_error (m ++ rt) = hd_error m).
  { destruct m; [discriminate Hhd | reflexivity]. }
  rewrite Hh, Hhd in Hb1.
  repeat split; auto.
  - now destruct (isWordOpt p).
  - now destruct (isWordOpt (hd_error rt)).
Qed.

Lemma reCard_local p m rt p' rt' :
  matches reCard p m rt -> isWordOpt p' = false ->
  isWordOpt (hd_error rt') = false -> matches reCard p' m rt'.
Proof.
  intros H Hp Hrt. apply reCard_iff in H. destruct H as (Hm & _ & _).
  destruct (reCardCore_edges Hm) as [Hhd Hlast].
  apply reCard_iff. split; [apply (matches_free Hm eq_refl)|].
  assert (Hh : hd_error (m ++ rt') = hd_error m).
  { destruct m; [discriminate Hhd | reflexivity]. }
  rewrite Hh, Hhd, Hp, Hlast, Hrt. split; reflexivity.
Qed.

(** After the card rule has run it matches nowhere in its output. *)
Lemma card_output_quiet s : quiet reCard None (replaceAll reCard CARD_NUMBER s).
Proof.
  unfold replaceAll, replaceAllWith.
  apply (@scan_output_quiet reCard CARD_NUMBER isCardChar eq_refl eq_refl).
  - apply forallb_outside. reflexivity.
  - discriminate.
  - intros q. reflexivity.
  - intros p m rt H. apply reCard_iff in H. destruct H as (H & _).
    apply (@matches_within isCardChar _ _ _ _ H reCardCore_within).
  - exact reCard_edges.
  - exact reCard_local.
Qed.

Lemma covered_identity_token r tok s :
  covered r -> avoids isPhoneText s -> replaceAll r tok s = s.
Proof. intros. unfold replaceAll. now apply covered_identity. Qed.

Lemma effectiveRules_avoids s : avoids isPhoneText (effectiveRules s).
Proof.
  unfold effectiveRules. apply avoids_kept; try reflexivity; [discriminate|].
  apply phone_output_avoids.
Qed.

(** Five of the eight rules never replace anything: whatever they could
    match contains a text the first phone rule has already replaced. *)
Lemma maskSegmentText_effective s : maskSegmentText s = effectiveRules s.
Proof.
  unfold maskSegmentText, effectiveRules. cbv zeta.
  pose proof (phone_output_avoids (replaceAll reEmail EMAIL s)) as Hp.
  rewrite (covered_identity_token PHONE rePhoneAlt_covered Hp).
  rewrite (covered_identity _ rePhoneDigits_covered Hp).
  rewrite (covered_identity_token PERSON_CODE rePersonCode_covered Hp).
  assert (Hc : avoids isPhoneText
                 (replaceAll reCard CARD_NUMBER
                    (replaceAll rePhone PHONE (replaceAll reEmail EMAIL s)))).
  { apply avoids_kept; try reflexivity; [discriminate | exact Hp]. }
  rewrite (covered_identity_token ACCOUNT_NUMBER reAccountLT_covered Hc).
  apply (covered_identity _ reAccountDigits_covered Hc).
Qed.

Lemma maskSegmentText_twice s :
  lacks isAt (maskSegmentText s) ->
  maskSegmentText (maskSegmentText s) = maskSegmentText s.
Proof.
  rewrite (maskSegmentText_effective (maskSegmentText s)).
  rewrite (maskSegmentText_effective s). intros Hat.
  unfold effectiveRules at 1.
  change (replaceAll reEmail EMAIL (effectiveRules s))
    with (replaceAllWith reEmail (fun _ => EMAIL) (effectiveRules s)).
  rewrite (@replaceAllWith_lacks isAt reEmail _ _ reEmail_needs_at Hat).
  rewrite (covered_identity_token PHONE rePhone_covered (effectiveRules_avoids s)).
  unfold replaceAll at 1, replaceAllWith. apply replace_from_quiet.
  apply card_output_quiet.
Qed.

Lemma replace_from_keeps (P : N -> Prop) r tok s :
  Forall P tok -> Forall P s ->
  forall prev skip, Forall P (replace_from r (fun _ => tok) prev s skip).
Proof.
  intros Ht. induction 1 as [|c s Hc Hs IH]; intros prev skip; cbn [replace_from].
  - destruct skip; [|constructor]. destruct (exec r prev []); [exact Ht | constructor].
  - destruct skip as [|k]; [|apply IH].
    destruct (exec r prev (c :: s)) as [[|n]|].
    + apply Forall_app. split; [exact Ht|]. constructor; [exact Hc | apply IH].
    + apply Forall_app. split; [exact Ht | apply IH].
    + constructor; [exact Hc | apply IH].
Qed.

Lemma atFree_lacks s : atFree s = true <-> lacks isAt s.
Proof.
  unfold atFree, lacks. rewrite forallb_forall, Forall_forall.
  split; intros H c Hc; specialize (H c Hc); now destruct (isAt c).
Qed.

(** No rule brings an [@] into a text: the placeholders have none. *)
Lemma maskSegmentText_keeps_atFree s :
  atFree s = true -> atFree (maskSegmentText s) = true.
Proof.
  rewrite !atFree_lacks, maskSegmentText_effective. intros H.
  unfold effectiveRules, replaceAll, replaceAllWith, lacks.
  repeat (apply replace_from_keeps;
          [apply (forallb_outside isAt); reflexivity|]).
  exact H.
Qed.

Lemma withSegText_twice seg a b :
  withSegText (withSegText seg a) b = withSegText seg b.
Proof. reflexivity. Qed.

Lemma maskWithRegex_unfold t :
  maskWithRegex t
  = withTextAndSegments t (maskSegmentText (text t))
      (map (fun seg => withSegText seg (maskSegmentText (seg_text seg))) (segments t)).
Proof. reflexivity. Qed.

Lemma withTextAndSegments_masked t a b :
  withTextAndSegments (maskWithRegex t) a b = withTextAndSegments t a b.
Proof. reflexivity. Qed.

(** C5 (as stated).  A second pass changes "a@b.com123456": the first pass
    gives "a@b.com[PHONE]", the second "[EMAIL][PHONE]". *)
Lemma masking_twice_differs :
  text (maskWithRegex (sample (js "a@b.com123456") [])) = js "a@b.com[PHONE]"
  /\ text (maskWithRegex (maskWithRegex (sample (js "a@b.com123456") [])))
     = js "[EMAIL][PHONE]"
  /\ maskWithRegex (maskWithRegex (sample (js "a@b.com123456") []))
     <> maskWithRegex (sample (js "a@b.com123456") []).
Proof.
  split; [vm_compute; reflexivity|].
  split; [vm_compute; reflexivity|].
  intros H. apply (f_equal text) in H. vm_compute in H. discriminate H.
Qed.

(** Masking twice equals masking once for every transcript
    whose masked text and masked segment texts contain no [@].  After one
    pass nothing is left for the phone rule, the card rule matches nowhere
    in its own output and the other five digit rules never replace
    anything, so only the e-mail rule can act in a second pass, and it
    needs an [@]. *)
Lemma masking_idempotent_when_masked_has_no_at (t : Transcription) :
  transcriptAtFree (maskWithRegex t) = true ->
  maskWithRegex (maskWithRegex t) = maskWithRegex t.
Proof.
  unfold transcriptAtFree. rewrite maskWithRegex_text, maskWithRegex_segments.
  intros H. apply andb_prop in H. destruct H as [Ht Hs].
  rewrite forallb_forall in Hs.
  rewrite (maskWithRegex_unfold (maskWithRegex t)), withTextAndSegments_masked,
    maskWithRegex_text, maskWithRegex_segments, (maskWithRegex_unfold t).
  f_equal.
  - apply maskSegmentText_twice. now apply atFree_lacks.
  - rewrite map_map. apply map_ext_in. intros seg Hin.
    cbn [seg_text withSegText]. rewrite withSegText_twice.
    rewrite maskSegmentText_twice; [reflexivity|].
    apply atFree_lacks.
    apply (Hs (withSegText seg (maskSegmentText (seg_text seg)))).
    apply in_map_iff. exists seg. now split.
Qed.

Lemma matchesNowhere_quiet r s :
  forall prev, matchesNowhere r prev s = true <-> quiet r prev s.
Proof.
  induction s as [|c s IH]; intros prev; cbn [matchesNowhere].
  - split.
    + intros H a b E. symmetry in E. apply app_eq_nil in E. destruct E as [-> ->].
      cbn [lastOr]. destruct (exec r prev []); [discriminate | reflexivity].
    + intros H. pose proof (H [] [] eq_refl) as E. cbn [lastOr] in E.
      now rewrite E.
  - split.
    + intros H a b E. destruct (exec r prev (c :: s)) eqn:Ex; [discriminate|].
      destruct a as [|x a]; cbn [app lastOr] in *.
      * now subst b.
      * injection E as <- E. apply (proj1 (IH (Some c)) H a b E).
    + intros H. pose proof (H [] (c :: s) eq_refl) as E0. cbn [lastOr] in E0.
      rewrite E0. apply IH.
      intros a b E. apply (H (c :: a) b). cbn [app]. now f_equal.
Qed.

Lemma countOf_app D a b : countOf D (a ++ b) = countOf D a + countOf D b.
Proof. unfold countOf. now rewrite filter_app, length_app. Qed.

Lemma countOf_lacks D s : lacks D s -> countOf D s = 0.
Proof.
  unfold lacks, countOf. induction 1 as [|c s Hc _ IH]; cbn [filter]; [reflexivity|].
  now rewrite Hc.
Qed.

Lemma countOf_cons_le D c s : countOf D s <= countOf D (c :: s).
Proof. unfold countOf. cbn [filter]. destruct (D c); cbn [length]; lia. Qed.

(** A replacement by a token without [D] brings no [D] in. *)
Lemma replace_from_count (D : N -> bool) r tok s :
  lacks D tok ->
  forall prev skip,
    countOf D (replace_from r (fun _ => tok) prev s skip) <= countOf D s.
Proof.
  intros Ht. pose proof (@countOf_lacks D tok Ht) as H0.
  induction s as [|c s IH]; intros prev skip; cbn [replace_from].
  - destruct skip; [|cbn; lia].
    destruct (exec r prev []); [rewrite H0; lia | cbn; lia].
  - pose proof (countOf_cons_le D c s) as Hc.
    destruct skip as [|k]; [|specialize (IH (Some c) k); lia].
    destruct (exec r prev (c :: s)) as [[|n]|].
    + rewrite countOf_app, H0. cbn [Nat.add].
      specialize (IH (Some c) 0). unfold countOf in *. cbn [filter].
      destruct (D c); cbn [length]; lia.
    + rewrite countOf_app, H0. specialize (IH (Some c) n). lia.
    + specialize (IH (Some c) 0). unfold countOf in *. cbn [filter].
      destruct (D c); cbn [length]; lia.
Qed.

(** Every text a rule that needs [D] matches holds a [D]. *)
Lemma needs_matches D r :
  needs D r -> forall p m rt, matches r p m rt -> 1 <= countOf D m.
Proof.
  induction 1 as [q Hq|r1 r2 _ IH|r1 r2 _ IH|r1 r2 _ IH1 _ IH2|lo hi r _ IH|lo r _ IH];
    intros p m rt Hm; inversion Hm; subst; try discriminate;
    rewrite ?countOf_app;
    repeat match goal with
           | IH : forall p m rt, matches ?r p m rt -> _, H : matches ?r _ _ _ |- _ =>
               pose proof (IH _ _ _ H); clear H
           end; try lia.
  unfold countOf. cbn [filter].
  match goal with H : q _ = true |- _ => rewrite (Hq _ H) end. cbn. lia.
Qed.

(** Where such a rule finds a match, the replacement takes a [D] out. *)
Lemma replace_from_count_lt (D : N -> bool) r tok :
  consumes r = true -> needs D r -> lacks D tok ->
  forall n s prev, length s <= n ->
    matchesNowhere r prev s = false ->
    countOf D (replace_from r (fun _ => tok) prev s 0) < countOf D s.
Proof.
  intros Hc Hn Ht. induction n as [|n IH]; intros s prev Hlen Hq.
  - destruct s; [|cbn in Hlen; lia]. cbn [matchesNowhere] in Hq.
    destruct (exec r prev []) eqn:E; [|discriminate].
    destruct (exec_sound _ _ _ E) as (m & rest & Hs & Hm & _).
    symmetry in Hs. apply app_eq_nil in Hs. destruct Hs as [-> _].
    now destruct (@consumes_nonempty r _ _ _ Hm Hc).
  - destruct (@replace_from_step r tok prev s Hc) as [[E ->]|(M & s' & -> & Hne & Hm & _ & ->)].
    + destruct s as [|c s1]; cbn [matchesNowhere] in Hq; rewrite E in Hq;
        [discriminate|].
      assert (H1 : countOf D (replace_from r (fun _ => tok) (Some c) s1 0)
                   < countOf D s1)
        by (apply IH; [cbn in Hlen; lia | exact Hq]).
      unfold countOf in *. cbn [filter]. destruct (D c); cbn [length]; lia.
    + rewrite !countOf_app, (@countOf_lacks D tok Ht).
      pose proof (@needs_matches D r Hn _ _ _ Hm) as H1.
      pose proof (@replace_from_count D r tok s' Ht (lastOr prev M) 0) as H2. lia.
Qed.

Lemma brackets_placeholder tok :
  In tok placeholders ->
  exists inner, tok = [91%N] ++ inner ++ [93%N] /\ lacks isAtOrDigit inner.
Proof.
  intros H. cbn in H.
  exists (removelast (tl tok)).
  repeat (destruct H as [<-|H];
          [split; [reflexivity | apply forallb_outside; reflexivity]|]).
  destruct H.
Qed.

(** A text without brackets that meets an occurrence of a bracketed token
    lies inside the brackets. *)
Lemma inside_brackets (P : N -> Prop) (lb rb : N) a inner rest a' M rest' :
  a ++ ([lb] ++ inner ++ [rb]) ++ rest = a' ++ M ++ rest' ->
  ~ In lb M -> ~ In rb M ->
  length a' < length a + length ([lb] ++ inner ++ [rb]) ->
  length a < length a' + length M ->
  Forall P inner -> Forall P M.
Proof.
  intros E Hlb Hrb H1 H2 Hin.
  set (s := a ++ ([lb] ++ inner ++ [rb]) ++ rest) in *.
  assert (HM : forall i, i < length M -> nth_error s (length a' + i) = nth_error M i).
  { intros i Hi. rewrite E, nth_error_app2 by lia.
    replace (length a' + i - length a') with i by lia.
    now rewrite nth_error_app1 by lia. }
  assert (Hl : nth_error s (length a) = Some lb).
  { unfold s. rewrite nth_error_app2 by lia. now rewrite Nat.sub_diag. }
  assert (Hr : nth_error s (length a + S (length inner)) = Some rb).
  { unfold s. rewrite nth_error_app2 by lia.
    replace (length a + S (length inner) - length a) with (S (length inner)) by lia.
    cbn [app nth_error]. rewrite nth_error_app1 by (rewrite length_app; cbn; lia).
    rewrite nth_error_app2 by lia. now rewrite Nat.sub_diag. }
  rewrite !length_app in H1. cbn [length] in H1.
  assert (Ha : length a < length a').
  { destruct (Nat.lt_ge_cases (length a) (length a')) as [|Hge]; [assumption|].
    exfalso. apply Hlb. apply nth_error_In with (n := length a - length a').
    rewrite <- HM by lia. rewrite <- Hl. f_equal. lia. }
  assert (Hb : length a' + length M <= length a + S (length inner)).
  { destruct (Nat.le_gt_cases (length a' + length M) (length a + S (length inner)))
      as [|Hgt]; [assumption|].
    exfalso. apply Hrb.
    apply nth_error_In with (n := length a + S (length inner) - length a').
    rewrite <- HM by lia. rewrite <- Hr. f_equal. lia. }
  apply Forall_forall. intros x Hx.
  apply In_nth_error in Hx. destruct Hx as (i & Hi).
  assert (Hil : i < length M) by (apply nth_error_Some; congruence).
  rewrite <- HM in Hi by assumption.
  unfold s in Hi. rewrite nth_error_app2 in Hi by lia.
  rewrite <- app_assoc in Hi.
  remember (length a' + i - length a) as k eqn:Ek.
  destruct k as [|k]; [lia|]. cbn [app nth_error] in Hi.
  rewrite <- app_assoc in Hi. rewrite nth_error_app1 in Hi by lia.
  rewrite Forall_forall in Hin. apply Hin. now apply nth_error_In with (n := k).
Qed.

Lemma needs_mono (D D' : N -> bool) r :
  (forall c, D c = true -> D' c = true) -> needs D r -> needs D' r.
Proof.
  intros HD. induction 1;
    first [ apply needs_char; now auto
          | apply needs_seq_l; assumption
          | apply needs_seq_r; assumption
          | constructor; assumption ].
Qed.

Lemma rule_needs r : In r maskingRules -> needs isAtOrDigit r.
Proof.
  intros H. cbn in H.
  assert (Hat : forall c, isAt c = true -> isAtOrDigit c = true)
    by (intros c E; unfold isAtOrDigit; now rewrite E).
  assert (Hd : forall c, isDigit c = true -> isAtOrDigit c = true)
    by (intros c E; unfold isAtOrDigit; rewrite E; apply orb_true_r).
  repeat (destruct H as [<-|H];
          [first [ apply (@needs_mono isAt isAtOrDigit _ Hat reEmail_needs_at)
                 | apply (@needs_mono isDigit isAtOrDigit _ Hd rePhone_needs_digit)
                 | apply (@needs_mono isDigit isAtOrDigit _ Hd rePhoneAlt_needs_digit)
                 | apply (@needs_mono isDigit isAtOrDigit _ Hd rePhoneDigits_needs_digit)
                 | apply (@needs_mono isDigit isAtOrDigit _ Hd rePersonCode_needs_digit)
                 | apply (@needs_mono isDigit isAtOrDigit _ Hd reCard_needs_digit)
                 | apply (@needs_mono isDigit isAtOrDigit _ Hd reAccountLT_needs_digit)
                 | apply (@needs_mono isDigit isAtOrDigit _ Hd reAccountDigits_needs_digit) ]|]).
  destruct H.
Qed.

Ltac no_bracket :=
  let c := fresh "c" in
  let H := fresh "H" in
  let E := fresh "E" in
  intros c H; destruct (isBracket c) eqn:E; [|reflexivity];
  unfold isBracket in E; apply orb_prop in E;
  destruct E as [E|E]; apply isChar_eq in E; subst c; vm_compute in H;
  discriminate H.

Lemma rule_within r : In r maskingRules -> within (fun c => negb (isBracket c)) r.
Proof.
  intros H. cbn in H.
  repeat (destruct H as [<-|H];
          [cbn; repeat split;
           intros c Hc; apply negb_true_iff; revert c Hc; no_bracket|]).
  destruct H.
Qed.

(** No rule matches, in any text, a part that meets an occurrence of a
    placeholder. *)
Lemma rules_spare_placeholders r tok a rest a' M rest' :
  In r maskingRules -> In tok placeholders ->
  a ++ tok ++ rest = a' ++ M ++ rest' ->
  matches r (lastOr None a') M rest' ->
  length a' < length a + length tok ->
  length a < length a' + length M ->
  False.
Proof.
  intros Hr Htok E Hm H1 H2.
  destruct (@brackets_placeholder tok Htok) as (inner & -> & Hin).
  pose proof (@matches_within _ _ _ _ _ Hm (@rule_within r Hr)) as Hw.
  assert (Hno : forall b, isBracket b = true -> ~ In b M).
  { intros b Hb Hb'. rewrite Forall_forall in Hw. specialize (Hw b Hb').
    now rewrite Hb in Hw. }
  assert (Hlack : lacks isAtOrDigit M).
  { apply (@inside_brackets (fun c => isAtOrDigit c = false) 91%N 93%N
             a inner rest a' M rest'); try assumption.
    - now apply Hno.
    - now apply Hno. }
  pose proof (@needs_matches isAtOrDigit r (@rule_needs r Hr) _ _ _ Hm) as Hc.
  rewrite (@countOf_lacks isAtOrDigit M Hlack) in Hc. lia.
Qed.

(** The three rules that act (e-mail, phone, card) bring no [@] in, and
    the e-mail rule takes one out wherever it matches. *)
Lemma effectiveRules_count s :
  countOf isAt (effectiveRules s) <= countOf isAt (replaceAll reEmail EMAIL s).
Proof.
  unfold effectiveRules, replaceAll, replaceAllWith.
  etransitivity;
    [apply replace_from_count; apply forallb_outside; reflexivity|].
  apply replace_from_count. apply forallb_outside. reflexivity.
Qed.

Lemma email_match_changes s :
  matchesNowhere reEmail None s = false -> effectiveRules s <> s.
Proof.
  intros H E.
  pose proof (effectiveRules_count s) as H1.
  assert (H2 : countOf isAt (replaceAll reEmail EMAIL s) < countOf isAt s).
  { unfold replaceAll, replaceAllWith.
    apply (@replace_from_count_lt isAt reEmail EMAIL eq_refl reEmail_needs_at)
      with (n := length s); [|apply le_n | exact H].
    apply forallb_outside. reflexivity. }
  rewrite E in H1. lia.
Qed.

(** A second pass over a masked text changes it exactly when the e-mail
    rule matches somewhere in it. *)
Lemma maskSegmentText_twice_iff s :
  maskSegmentText (maskSegmentText s) = maskSegmentText s
  <-> matchesNowhere reEmail None (maskSegmentText s) = true.
Proof.
  split.
  - intros H. destruct (matchesNowhere reEmail None (maskSegmentText s)) eqn:E;
      [reflexivity|].
    exfalso. apply (@email_match_changes (maskSegmentText s) E).
    now rewrite <- maskSegmentText_effective.
  - intros H. apply matchesNowhere_quiet in H.
    rewrite (maskSegmentText_effective (maskSegmentText s)).
    rewrite (maskSegmentText_effective s) in *.
    unfold effectiveRules at 1.
    replace (replaceAll reEmail EMAIL (effectiveRules s)) with (effectiveRules s)
      by (symmetry; unfold replaceAll, replaceAllWith; now apply replace_from_quiet).
    rewrite (@covered_identity_token rePhone PHONE _ rePhone_covered
               (effectiveRules_avoids s)).
    unfold replaceAll at 1, replaceAllWith. apply replace_from_quiet.
    apply card_output_quiet.
Qed.

(** C5 (amended).  Masking twice equals masking once exactly for the
    transcripts in whose masked text and masked segment texts the e-mail
    rule matches nowhere; for every other transcript the second pass
    changes the result.  After one pass nothing is left for the phone
    rule, the card rule matches nowhere in its own output and the other
    five digit rules never replace anything, so only the e-mail rule can
    act in a second pass, and where it acts it takes an [@] out that no
    rule brings back.  The placeholders themselves are never matched
    again: no rule matches, in any text, a part that meets an occurrence
    of a placeholder. *)
Theorem masking_idempotent_iff_no_email_left (t : Transcription) :
  (maskWithRegex (maskWithRegex t) = maskWithRegex t
   <-> noEmailLeft (maskWithRegex t) = true)
  /\ (forall r tok a rest a' M rest',
        In r maskingRules -> In tok placeholders ->
        a ++ tok ++ rest = a' ++ M ++ rest' ->
        matches r (lastOr None a') M rest' ->
        length a' < length a + length tok ->
        length a < length a' + length M ->
        False).
Proof.
  split.
  - unfold noEmailLeft.
    rewrite (maskWithRegex_unfold (maskWithRegex t)), withTextAndSegments_masked.
    rewrite maskWithRegex_text, maskWithRegex_segments, (maskWithRegex_unfold t).
    rewrite andb_true_iff, forallb_forall, map_map.
    unfold withTextAndSegments. cbn [id text timestamp language segments].
    split.
    + intros [= Ht Hs]. split; [now apply maskSegmentText_twice_iff|].
      intros seg' Hin. apply in_map_iff in Hin. destruct Hin as (seg & <- & Hin).
      cbn [seg_text withSegText]. apply maskSegmentText_twice_iff.
      assert (Hmap : map (fun seg => withSegText seg (maskSegmentText (seg_text seg)))
                         (segments t)
                     = map (fun x =>
                              withSegText
                                (withSegText x (maskSegmentText (seg_text x)))
                                (maskSegmentText
                                   (seg_text
                                      (withSegText x (maskSegmentText (seg_text x))))))
                           (segments t)) by (symmetry; exact Hs).
      pose proof (proj1 (@map_ext_in_iff _ _ _ _ _) Hmap seg Hin) as Hseg.
      cbn [seg_text withSegText] in Hseg.
      apply (f_equal seg_text) in Hseg. cbn [seg_text withSegText] in Hseg.
      now symmetry.
    + intros [Ht Hs]. f_equal; [now apply maskSegmentText_twice_iff|].
      apply map_ext_in. intros seg Hin. cbn [seg_text withSegText].
      rewrite withSegText_twice. f_equal. apply maskSegmentText_twice_iff.
      apply (Hs (withSegText seg (maskSegmentText (seg_text seg)))).
      apply in_map_iff. exists seg. now split.
  - intros r tok a rest a' M rest'. apply rules_spare_placeholders.
Qed.

Lemma masking_idempotent_iff_no_email_left_witness :
  atFree (text (maskWithRegex (sample atWithoutEmailInput
                                 [sampleSegment (js "Klientas") cardInput])))
  = false
  /\ maskWithRegex
       (maskWithRegex (sample atWithoutEmailInput
                         [sampleSegment (js "Klientas") cardInput]))
     = maskWithRegex (sample atWithoutEmailInput
                        [sampleSegment (js "Klientas") cardInput]).
Proof.
  split.
  - vm_compute. reflexivity.
  - apply (proj2 (proj1 (@masking_idempotent_iff_no_email_left
                           (sample atWithoutEmailInput
                              [sampleSegment (js "Klientas") cardInput])))).
    vm_compute. reflexivity.
Defined.

(** In particular the masker is idempotent on every transcript without
    [@], whatever digits it contains. *)
Lemma maskWithRegex_keeps_atFree t :
  transcriptAtFree t = true -> transcriptAtFree (maskWithRegex t) = true.
Proof.
  unfold transcriptAtFree. rewrite maskWithRegex_text, maskWithRegex_segments.
  intros H. apply andb_prop in H. destruct H as [Ht Hs].
  rewrite (maskSegmentText_keeps_atFree _ Ht). cbn [andb].
  rewrite forallb_forall in *. intros seg' Hin.
  apply in_map_iff in Hin. destruct Hin as (seg & <- & Hin).
  cbn [seg_text withSegText]. apply maskSegmentText_keeps_atFree. now apply Hs.
Qed.

(** A masked text without [@] is a fixed point of the eight rules. *)
Lemma masked_text_fixed s :
  atFree s = true -> maskSegmentText (maskSegmentText s) = maskSegmentText s.
Proof.
  intros H. apply maskSegmentText_twice. apply atFree_lacks.
  now apply maskSegmentText_keeps_atFree.
Qed.

(** The placeholder tokens are fixed points of the rules. *)
Lemma placeholders_not_rematched :
  Forall (fun token => maskSegmentText token = token)
         [EMAIL; PHONE; PERSON_CODE; CARD_NUMBER; ACCOUNT_NUMBER].
Proof. repeat constructor; apply maskSegmentText_fixed; reflexivity. Qed.

(** ** AI-assisted masker *)

Section MaskPIIFacts.
Variables promptHead promptTail : jsstring.
Variable generateContent : jsstring -> jsstring -> jsstring -> genOutcome.

Lemma attempt_fails apiKey t modelName :
  modelFails (generateContent apiKey modelName (buildPrompt promptHead promptTail t)) ->
  attempt promptHead promptTail generateContent apiKey t modelName = None.
Proof.
  unfold attempt, modelFails.
  destruct (generateContent _ _ _) as [msg| |r]; try reflexivity.
  intros ->. reflexivity.
Qed.

Lemma tryModels_all_fail apiKey t names :
  (forall m, In m names ->
     modelFails (generateContent apiKey m (buildPrompt promptHead promptTail t))) ->
  tryModels promptHead promptTail generateContent apiKey t names = None.
Proof.
  induction names as [|m names IH]; intros H; simpl; [reflexivity|].
  rewrite attempt_fails by (apply H; now left).
  apply IH. intros m' Hm'. apply H. now right.
Qed.
End MaskPIIFacts.

(** C4.  When every candidate model fails (the call rejects, the timer
    wins, or the response text is empty after clean-up), [getAI] alone
    decides what [maskPII] does: with a client it returns, without
    throwing, exactly what [maskWithRegex] returns for the same
    transcript; where [process] is not declared, or no key is configured,
    it throws the error of [getAI], which runs before the [try], and the
    regex masker is not run. *)
Theorem maskPII_falls_back_to_regex
        (promptHead promptTail : jsstring)
        (generateContent : jsstring -> jsstring -> jsstring -> genOutcome)
        (env : ClientEnv) (t : Transcription) :
  (forall apiKey m, getAI env = Ok apiKey -> In m modelNames ->
     modelFails (generateContent apiKey m (buildPrompt promptHead promptTail t))) ->
  maskPII promptHead promptTail generateContent env t
  = if processDeclared env
    then if nonEmpty (orElse (API_KEY env) (orElse (VITE_API_KEY env) []))
         then Ok (maskWithRegex t)
         else Throw apiKeyMissing
    else Throw processNotDefined.
Proof.
  intros Hfail. unfold maskPII. destruct (getAI env) as [apiKey|e] eqn:Hai.
  - rewrite tryModels_all_fail by (intros m Hm; now apply Hfail).
    unfold getAI in Hai. destruct (processDeclared env); [|discriminate].
    cbn [negb] in Hai. cbv zeta in Hai.
    destruct (nonEmpty _); [reflexivity | discriminate].
  - unfold getAI in Hai. destruct (processDeclared env); cbn [negb] in Hai.
    + cbv zeta in Hai. destruct (nonEmpty _); [discriminate | congruence].
    + congruence.
Qed.

Lemma maskPII_falls_back_to_regex_witness :
  maskPII (js "TEKSTAS: ") (js " .") failingGeneration sampleClientEnv
          (sample personCodeInput [sampleSegment (js "Klientas") cardInput])
  = Ok (maskWithRegex
          (sample personCodeInput [sampleSegment (js "Klientas") cardInput])).
Proof.
  apply (maskPII_falls_back_to_regex (js "TEKSTAS: ") (js " .") failingGeneration
           sampleClientEnv).
  intros apiKey m _ [<-|[<-|[]]]; vm_compute; reflexivity.
Defined.

(** Every model fails, and [maskPII] throws instead of falling back:
    without an API key, and with the key of a browser bundle where
    [process] is not declared. *)
Lemma maskPII_throws_without_client :
  (forall apiKey m, In m modelNames ->
     modelFails
       (failingGeneration apiKey m
          (buildPrompt (js "TEKSTAS: ") (js " .") (sample personCodeInput []))))
  /\ maskPII (js "TEKSTAS: ") (js " .") failingGeneration keylessClientEnv
             (sample personCodeInput [])
     = Throw apiKeyMissing
  /\ maskPII (js "TEKSTAS: ") (js " .") failingGeneration browserClientEnv
             (sample personCodeInput [])
     = Throw processNotDefined.
Proof.
  split; [|split; reflexivity].
  intros apiKey m [<-|[<-|[]]]; vm_compute; reflexivity.
Qed.

(** ** Bytes, base64 and UTF-8 *)

Ltac Zify.zify_post_hook ::= Z.to_euclidean_division_equations.

Lemma to_N_byteOfN (n : N) : (n < 256)%N -> Byte.to_N (byteOfN n) = n.
Proof.
  intros H. unfold byteOfN. rewrite N.mod_small by exact H.
  destruct (Byte.of_N n) as [b|] eqn:E.
  - now apply Byte.to_of_N.
  - apply Byte.of_N_None_iff in E. lia.
Qed.

Lemma byteOfN_to_N (b : Byte.byte) : byteOfN (Byte.to_N b) = b.
Proof.
  unfold byteOfN. pose proof (Byte.to_N_bounded b).
  rewrite N.mod_small by lia. now rewrite Byte.of_to_N.
Qed.

(** A property checked on 0 .. n-1 holds below n. *)
Lemma holds_below (P : N -> bool) (n : nat) :
  forallb P (map N.of_nat (seq 0 n)) = true ->
  forall v, (v < N.of_nat n)%N -> P v = true.
Proof.
  intros H v Hv. rewrite forallb_forall in H. apply H.
  rewrite <- (N2Nat.id v). apply in_map, in_seq. lia.
Qed.

Lemma b64val_b64char v : (v < 64)%N -> b64val (b64char v) = Some v.
Proof.
  intros Hv.
  assert (E : (match b64val (b64char v) with
               | Some w => (w =? v)%N
               | None => false
               end) = true).
  { revert v Hv. apply (holds_below (fun v => match b64val (b64char v) with
                                              | Some w => (w =? v)%N
                                              | None => false
                                              end) 64).
    vm_compute. reflexivity. }
  destruct (b64val (b64char v)); [|discriminate].
  apply N.eqb_eq in E. now subst.
Qed.

Lemma b64char_plain v :
  (v < 64)%N ->
  isAsciiWhitespace (b64char v) = false /\ (b64char v =? PAD)%N = false.
Proof.
  intros Hv.
  assert (E : negb (isAsciiWhitespace (b64char v))
              && negb (b64char v =? PAD)%N = true).
  { revert v Hv.
    apply (holds_below (fun v => negb (isAsciiWhitespace (b64char v))
                                 && negb (b64char v =? PAD)%N) 64).
    vm_compute. reflexivity. }
  apply andb_prop in E. destruct E as [E1 E2].
  split; [now destruct (isAsciiWhitespace _) | now destruct (_ =? PAD)%N].
Qed.

Lemma bytes_ind3 (P : bytes -> Prop) :
  P [] -> (forall a, P [a]) -> (forall a b, P [a; b]) ->
  (forall a b c rest, P rest -> P (a :: b :: c :: rest)) ->
  forall bs, P bs.
Proof.
  intros H0 H1 H2 H3.
  fix IH 1. intros [|a [|b [|c rest]]].
  - exact H0.
  - apply H1.
  - apply H2.
  - apply H3, IH.
Qed.

Lemma encodeBase64_shape bs :
  encodeBase64 bs = map b64char (b64digits bs) ++ repeat PAD (padLength bs).
Proof.
  induction bs as [|a|a b|a b c rest IH] using bytes_ind3; try reflexivity.
  cbn [encodeBase64 b64digits padLength]. rewrite IH.
  rewrite map_app. reflexivity.
Qed.

Lemma b64digits_small bs : Forall (fun v => (v < 64)%N) (b64digits bs).
Proof.
  induction bs as [|a|a b|a b c rest IH] using bytes_ind3;
    cbn [b64digits app];
    repeat match goal with
           | x : Byte.byte |- _ =>
               pose proof (Byte.to_N_bounded x); generalize dependent (Byte.to_N x);
               clear x; intros
           end;
    repeat constructor; try lia; try assumption.
Qed.

Lemma b64digits_length bs :
  (length (b64digits bs) + padLength bs) mod 4 = 0
  /\ padLength bs <= 2
  /\ length (b64digits bs) mod 4 <> 1
  /\ (padLength bs > 0 -> b64digits bs <> []).
Proof.
  induction bs as [|a|a b|a b c rest IH] using bytes_ind3;
    cbn [b64digits padLength length app].
  - repeat split; try (intro; lia). cbn. lia. cbn. lia.
  - repeat split; try discriminate; cbn; lia.
  - repeat split; try discriminate; cbn; lia.
  - destruct IH as (H1 & H2 & H3 & H4). repeat split.
    + replace (S (S (S (S (length (b64digits rest))))) + padLength rest)
        with (length (b64digits rest) + padLength rest + 1 * 4) by lia.
      now rewrite Nat.Div0.mod_add.
    + exact H2.
    + replace (S (S (S (S (length (b64digits rest))))))
        with (length (b64digits rest) + 1 * 4) by lia.
      now rewrite Nat.Div0.mod_add.
    + discriminate.
Qed.

Lemma filter_all (A : Type) (p : A -> bool) (l : list A) :
  Forall (fun x => p x = true) l -> filter p l = l.
Proof.
  induction 1 as [|x l Hx _ IH]; simpl; [reflexivity|].
  now rewrite Hx, IH.
Qed.

Lemma rev_repeat (A : Type) (x : A) (n : nat) : rev (repeat x n) = repeat x n.
Proof.
  induction n as [|n IH]; simpl; [reflexivity|].
  rewrite IH. clear IH. induction n as [|n IH]; simpl; [reflexivity|].
  now rewrite IH.
Qed.

Lemma stripPadding_encoded (ds : list N) (k : nat) :
  Forall (fun v => (v < 64)%N) ds ->
  (length ds + k) mod 4 = 0 -> k <= 2 -> (k > 0 -> ds <> []) ->
  stripPadding (map b64char ds ++ repeat PAD k) = map b64char ds.
Proof.
  intros Hds Hlen Hk Hne. unfold stripPadding.
  rewrite length_app, length_map, repeat_length, Hlen. cbn [Nat.eqb].
  rewrite rev_app_distr, rev_repeat.
  assert (Hlast : forall x r, rev (map b64char ds) = x :: r -> (x =? PAD)%N = false).
  { intros x r E.
    assert (Hin : In x (map b64char ds)).
    { apply in_rev. rewrite E. now left. }
    apply in_map_iff in Hin. destruct Hin as (v & <- & Hv).
    rewrite Forall_forall in Hds. now apply b64char_plain, Hds. }
  destruct k as [|[|[|k]]]; [| | |lia]; cbn [repeat app].
  - rewrite app_nil_r.
    destruct (rev (map b64char ds)) as [|p1 [|p2 r]] eqn:E.
    + reflexivity.
    + now rewrite (Hlast _ _ eq_refl).
    + now rewrite (Hlast _ _ eq_refl).
  - rewrite N.eqb_refl.
    destruct (rev (map b64char ds)) as [|p2 r] eqn:E.
    + exfalso. apply (Hne ltac:(lia)).
      apply (f_equal (@rev N)) in E. rewrite rev_involutive in E.
      destruct ds; [reflexivity | discriminate].
    + rewrite (Hlast _ _ eq_refl). rewrite <- E. now rewrite rev_involutive.
  - rewrite !N.eqb_refl.
    destruct (rev (map b64char ds)) as [|p2 r] eqn:E.
    + apply (f_equal (@rev N)) in E. rewrite rev_involutive in E.
      now rewrite E.
    + rewrite <- E. now rewrite rev_involutive.
Qed.

Lemma b64vals_chars (ds : list N) :
  Forall (fun v => (v < 64)%N) ds -> b64vals (map b64char ds) = Some ds.
Proof.
  induction 1 as [|v ds Hv _ IH]; simpl; [reflexivity|].
  now rewrite (b64val_b64char Hv), IH.
Qed.

Lemma byteOfN_is (x : N) (b : Byte.byte) : x = Byte.to_N b -> byteOfN x = b.
Proof. intros ->. apply byteOfN_to_N. Qed.

Lemma b64groups_digits bs : b64groups (b64digits bs) = bs.
Proof.
  induction bs as [|a|a b|a b c rest IH] using bytes_ind3.
  - reflexivity.
  - cbn [b64digits b64groups].
    pose proof (Byte.to_N_bounded a).
    f_equal. apply byteOfN_is. lia.
  - cbn [b64digits b64groups].
    pose proof (Byte.to_N_bounded a). pose proof (Byte.to_N_bounded b).
    f_equal; [apply byteOfN_is; lia|].
    f_equal. apply byteOfN_is. lia.
  - cbn [b64digits b64groups app]. rewrite IH.
    pose proof (Byte.to_N_bounded a). pose proof (Byte.to_N_bounded b).
    pose proof (Byte.to_N_bounded c).
    f_equal; [apply byteOfN_is; lia|].
    f_equal; [apply byteOfN_is; lia|].
    f_equal. apply byteOfN_is. lia.
Qed.

(** Decoding an encoding gives the bytes back. *)
Lemma decodeBase64_encodeBase64 bs : decodeBase64 (encodeBase64 bs) = Some bs.
Proof.
  unfold decodeBase64. rewrite encodeBase64_shape.
  pose proof (b64digits_small bs) as Hsmall.
  destruct (b64digits_length bs) as (H1 & H2 & H3 & H4).
  rewrite filter_all.
  - rewrite stripPadding_encoded by assumption.
    rewrite length_map.
    destruct (length (b64digits bs) mod 4 =? 1) eqn:E.
    + apply Nat.eqb_eq in E. contradiction.
    + rewrite b64vals_chars by assumption. cbn [option_map].
      now rewrite b64groups_digits.
  - apply Forall_app. split.
    + apply Forall_map. eapply Forall_impl; [|exact Hsmall].
      intros v Hv. cbv beta in *. now rewrite (proj1 (b64char_plain Hv)).
    + apply Forall_forall. intros x Hx. apply repeat_spec in Hx. now subst.
Qed.

Ltac cases_N :=
  repeat (match goal with
          | |- context [(?a =? ?b)%N] => destruct (N.eqb_spec a b); try lia
          | |- context [(?a <? ?b)%N] => destruct (N.ltb_spec a b); try lia
          | |- context [(?a <=? ?b)%N] => destruct (N.leb_spec a b); try lia
          end; cbn [andb orb negb]).

(** One step of the decoder. *)
Lemma utf8Decode_cons b r1 :
  utf8Decode (b :: r1) =
      let n := Byte.to_N b in
      if (n <? 128)%N then n :: utf8Decode r1
      else if inRange 194 223 n then
        match r1 with
        | [] => [REPLACEMENT]
        | b2 :: r2 =>
            if byteIn 128 191 b2
            then ((n - 192) * 64 + contBits b2)%N :: utf8Decode r2
            else REPLACEMENT :: utf8Decode r1
        end
      else if inRange 224 239 n then
        let lo := if (n =? 224)%N then 160%N else 128%N in
        let hi := if (n =? 237)%N then 159%N else 191%N in
        match r1 with
        | [] => [REPLACEMENT]
        | b2 :: r2 =>
            if byteIn lo hi b2 then
              match r2 with
              | [] => [REPLACEMENT]
              | b3 :: r3 =>
                  if byteIn 128 191 b3
                  then ((n - 224) * 4096 + contBits b2 * 64 + contBits b3)%N
                         :: utf8Decode r3
                  else REPLACEMENT :: utf8Decode r2
              end
            else REPLACEMENT :: utf8Decode r1
        end
      else if inRange 240 244 n then
        let lo := if (n =? 240)%N then 144%N else 128%N in
        let hi := if (n =? 244)%N then 143%N else 191%N in
        match r1 with
        | [] => [REPLACEMENT]
        | b2 :: r2 =>
            if byteIn lo hi b2 then
              match r2 with
              | [] => [REPLACEMENT]
              | b3 :: r3 =>
                  if byteIn 128 191 b3 then
                    match r3 with
                    | [] => [REPLACEMENT]
                    | b4 :: r4 =>
                        if byteIn 128 191 b4
                        then ((n - 240) * 262144 + contBits b2 * 4096
                              + contBits b3 * 64 + contBits b4)%N
                               :: utf8Decode r4
                        else REPLACEMENT :: utf8Decode r3
                    end
                  else REPLACEMENT :: utf8Decode r2
              end
            else REPLACEMENT :: utf8Decode r1
        end
      else REPLACEMENT :: utf8Decode r1.
Proof. reflexivity. Qed.

Lemma utf8Decode_scalar (cp : N) (rest : bytes) :
  isScalar cp ->
  utf8Decode (utf8OfCodePoint cp ++ rest) = cp :: utf8Decode rest.
Proof.
  intros [Hmax Hsur]. unfold utf8OfCodePoint.
  destruct (N.ltb_spec cp 128); [|destruct (N.ltb_spec cp 2048);
                                  [|destruct (N.ltb_spec cp 65536)]];
    cbn [app]; rewrite utf8Decode_cons; cbv beta iota zeta;
    unfold byteIn, contBits, inRange;
    rewrite !to_N_byteOfN by lia; cases_N; f_equal; lia.
Qed.

Lemma textEncode_cons c s' :
  textEncode (c :: s') =
      if isHighSurrogate c then
        match s' with
        | d :: s'' =>
            if isLowSurrogate d
            then utf8OfCodePoint (65536 + (c - 55296) * 1024 + (d - 56320))
                   ++ textEncode s''
            else utf8OfCodePoint REPLACEMENT ++ textEncode s'
        | [] => utf8OfCodePoint REPLACEMENT
        end
      else if isLowSurrogate c then utf8OfCodePoint REPLACEMENT ++ textEncode s'
      else utf8OfCodePoint c ++ textEncode s'.
Proof. reflexivity. Qed.

(** A well-formed text starts with a scalar value: [headScalar] gives it
    and the rest of the text. *)
Lemma wellFormed_cons c s' :
  wellFormed (c :: s') = true ->
  exists cp rest,
    isScalar cp /\ wellFormed rest = true
    /\ textEncode (c :: s') = utf8OfCodePoint cp ++ textEncode rest
    /\ c :: s' = utf16OfCodePoint cp ++ rest
    /\ length rest < length (c :: s')
    /\ (cp = BOM -> c = BOM).
Proof.
  intros H. rewrite textEncode_cons. cbn [wellFormed] in H.
  destruct (isHighSurrogate c) eqn:Eh.
  - destruct s' as [|d s'']; [discriminate|].
    apply andb_prop in H. destruct H as [Hd Hw]. rewrite Hd.
    exists (65536 + (c - 55296) * 1024 + (d - 56320))%N, s''.
    unfold isHighSurrogate, isLowSurrogate, inRange in *.
    apply andb_prop in Eh, Hd. destruct Eh as [E1 E2], Hd as [E3 E4].
    apply N.leb_le in E1, E2, E3, E4.
    unfold isScalar, utf16OfCodePoint, BOM. repeat split; try lia; try assumption.
    + cases_N. cbn [app]. f_equal; [lia|]. f_equal. lia.
    + cbn [length]. lia.
  - apply andb_prop in H. destruct H as [H Hw].
    apply andb_prop in H. destruct H as [Hl Hc].
    destruct (isLowSurrogate c) eqn:El; [discriminate|].
    exists c, s'.
    unfold isHighSurrogate, isLowSurrogate, inRange in *.
    apply N.ltb_lt in Hc.
    rewrite andb_false_iff, !N.leb_gt in Eh, El.
    unfold isScalar, utf16OfCodePoint. repeat split; try lia; try assumption.
    + cases_N. reflexivity.
    + cbn [length]. lia.
Qed.

Lemma decode_encode_wellFormed (n : nat) :
  forall s, length s <= n -> wellFormed s = true ->
    flat_map utf16OfCodePoint (utf8Decode (textEncode s)) = s.
Proof.
  induction n as [|n IH]; intros s Hn Hw.
  - destruct s; [reflexivity | cbn in Hn; lia].
  - destruct s as [|c s']; [reflexivity|].
    destruct (wellFormed_cons _ _ Hw) as (cp & rest & Hcp & Hrest & He & Hs & Hlen & _).
    rewrite He, (utf8Decode_scalar _ Hcp). cbn [flat_map].
    rewrite IH; [now symmetry | cbn [length] in *; lia | exact Hrest].
Qed.

Lemma stripBOM_other (b1 b2 b3 : Byte.byte) (rest : bytes) :
  ~ (Byte.to_N b1 = 239 /\ Byte.to_N b2 = 187 /\ Byte.to_N b3 = 191)%N ->
  stripBOM (b1 :: b2 :: b3 :: rest) = b1 :: b2 :: b3 :: rest.
Proof.
  intros H. cbn [stripBOM].
  destruct (N.eqb_spec (Byte.to_N b1) 239); [|reflexivity].
  destruct (N.eqb_spec (Byte.to_N b2) 187); [|reflexivity].
  destruct (N.eqb_spec (Byte.to_N b3) 191); [|reflexivity].
  tauto.
Qed.

Lemma stripBOM_first (b1 : Byte.byte) (rest : bytes) :
  Byte.to_N b1 <> 239%N -> stripBOM (b1 :: rest) = b1 :: rest.
Proof.
  intros H. destruct rest as [|b2 [|b3 rest]]; try reflexivity.
  apply stripBOM_other. tauto.
Qed.

Lemma stripBOM_scalar (cp : N) (rest : bytes) :
  isScalar cp -> cp <> BOM ->
  stripBOM (utf8OfCodePoint cp ++ rest) = utf8OfCodePoint cp ++ rest.
Proof.
  intros [Hmax Hsur] Hbom. unfold BOM in Hbom. unfold utf8OfCodePoint.
  destruct (N.ltb_spec cp 128); [|destruct (N.ltb_spec cp 2048);
                                  [|destruct (N.ltb_spec cp 65536)]];
    cbn [app].
  - apply stripBOM_first. rewrite to_N_byteOfN by lia. lia.
  - apply stripBOM_first. rewrite to_N_byteOfN by lia. lia.
  - apply stripBOM_other. rewrite !to_N_byteOfN by lia. lia.
  - apply stripBOM_first. rewrite to_N_byteOfN by lia. lia.
Qed.

(** [TextDecoder] undoes [TextEncoder] on well-formed texts that do not
    start with a byte order mark. *)
Lemma textDecode_textEncode (s : jsstring) :
  wellFormed s = true -> startsWithBOM s = false ->
  textDecode (textEncode s) = s.
Proof.
  intros Hw Hb. unfold textDecode.
  destruct s as [|c s'].
  - reflexivity.
  - destruct (wellFormed_cons _ _ Hw) as (cp & rest & Hcp & _ & He & _ & _ & Hbom).
    rewrite He at 1. rewrite stripBOM_scalar.
    + rewrite <- He. now apply decode_encode_wellFormed with (n := length (c :: s')).
    + exact Hcp.
    + intros E. apply Hbom in E. cbn [startsWithBOM] in Hb.
      apply N.eqb_neq in Hb. contradiction.
Qed.

(** A leading byte order mark does not survive the two conversions. *)
Lemma textDecode_textEncode_BOM (s : jsstring) :
  wellFormed s = true -> textDecode (textEncode (BOM :: s)) = s.
Proof.
  intros Hw. unfold textDecode.
  replace (textEncode (BOM :: s))
    with (Byte.xef :: Byte.xbb :: Byte.xbf :: textEncode s) by reflexivity.
  cbn [stripBOM Byte.to_N N.eqb Pos.eqb andb].
  now apply decode_encode_wellFormed with (n := length s).
Qed.

(** ** Storage encryption *)

Lemma firstn_skipn_envelope (iv encrypted : bytes) :
  length iv = 12 ->
  firstn 12 (iv ++ encrypted) = iv /\ skipn 12 (iv ++ encrypted) = encrypted.
Proof.
  intros H. split.
  - rewrite <- H. rewrite firstn_app, firstn_all, Nat.sub_diag.
    cbn [firstn]. apply app_nil_r.
  - rewrite <- H. rewrite skipn_app, skipn_all, Nat.sub_diag. reflexivity.
Qed.

Lemma keyBuffer_32_nonEmpty key :
  length (keyBuffer key) = 32 ->
  nonEmpty key = true /\ validKeyLength (keyBuffer key) = true.
Proof.
  intros H. split.
  - destruct key; [discriminate H | reflexivity].
  - unfold validKeyLength. now rewrite H.
Qed.

(** What a decryption of an encryption returns, for every text: the text
    after a passage through [TextEncoder] and [TextDecoder]. *)
Lemma decrypt_encrypt (aes : AesGcm) (key : jsstring) (iv : bytes) (P : jsstring) :
  length (keyBuffer key) = 32 -> length iv = 12 ->
  snd (decryptForStorage aes (encryptForStorage aes (withKey key) iv P) key)
  = Ok (textDecode (textEncode P)).
Proof.
  intros Hk Hiv. destruct (keyBuffer_32_nonEmpty _ Hk) as [Hne Hvalid].
  unfold encryptForStorage, decryptForStorage, withKey. cbn [ENCRYPTION_KEY].
  rewrite Hne, Hvalid. cbn [negb].
  rewrite decodeBase64_encodeBase64.
  destruct (firstn_skipn_envelope iv (gcmEncrypt aes (keyBuffer key) iv (textEncode P)) Hiv)
    as [-> ->].
  cbn [snd]. now rewrite gcm_roundtrip.
Qed.

(** C2 (as stated).  A plaintext that starts with U+FEFF does not come
    back: encrypting and decrypting U+FEFF followed by "a" under a 256-bit
    key gives "a", because [TextDecoder] drops a leading byte order mark. *)
Lemma roundtrip_loses_byte_order_mark :
  length (keyBuffer sampleKey) = 32
  /\ snd (decryptForStorage referenceGcm
            (encryptForStorage referenceGcm (withKey sampleKey) sampleIv
                               (BOM :: js "a")) sampleKey)
     = Ok (js "a")
  /\ js "a" <> BOM :: js "a".
Proof.
  split; [vm_compute; reflexivity|].
  split; [vm_compute; reflexivity|].
  discriminate.
Qed.

(** The same for every cipher that meets the interface, and likewise an
    unpaired surrogate comes back as U+FFFD. *)
Lemma roundtrip_drops_BOM (aes : AesGcm) key iv s :
  length (keyBuffer key) = 32 -> length iv = 12 -> wellFormed s = true ->
  snd (decryptForStorage aes (encryptForStorage aes (withKey key) iv (BOM :: s)) key)
  = Ok s.
Proof.
  intros Hk Hiv Hw. rewrite decrypt_encrypt by assumption.
  now rewrite textDecode_textEncode_BOM.
Qed.

Lemma roundtrip_replaces_lone_surrogate (aes : AesGcm) key iv :
  length (keyBuffer key) = 32 -> length iv = 12 ->
  snd (decryptForStorage aes (encryptForStorage aes (withKey key) iv [55296%N]) key)
  = Ok [REPLACEMENT].
Proof. intros Hk Hiv. now rewrite decrypt_encrypt by assumption. Qed.

(** C2 (amended).  For every well-formed plaintext P that does not start
    with U+FEFF and every key K of 256 bits, decrypting with K the
    envelope that [encryptForStorage] produced for P under K returns
    exactly P. *)
Theorem encrypt_decrypt_roundtrip
        (aes : AesGcm) (K : jsstring) (iv : bytes) (P : jsstring) :
  length (keyBuffer K) = 32 -> length iv = 12 ->
  wellFormed P = true -> startsWithBOM P = false ->
  snd (decryptForStorage aes (encryptForStorage aes (withKey K) iv P) K) = Ok P.
Proof.
  intros Hk Hiv Hw Hb. rewrite decrypt_encrypt by assumption.
  now rewrite textDecode_textEncode.
Qed.

Lemma encrypt_decrypt_roundtrip_witness :
  snd (decryptForStorage referenceGcm
         (encryptForStorage referenceGcm (withKey sampleKey) sampleIv samplePlaintext)
         sampleKey)
  = Ok samplePlaintext.
Proof.
  apply (encrypt_decrypt_roundtrip referenceGcm sampleKey sampleIv samplePlaintext);
    vm_compute; reflexivity.
Defined.

(** The envelope differs from the plaintext it was made from only if it is
    produced at all: without a key the text is passed through. *)
Lemma encryptForStorage_without_key (aes : AesGcm) iv P :
  encryptForStorage aes withoutKey iv P = P.
Proof. reflexivity. Qed.

(** A decoded envelope shorter than a tag never decrypts; the cipher is
    called all the same, and its failure is what gets reported. *)
Lemma decryptForStorage_short (aes : AesGcm) (ciphertext key : jsstring)
      (combined : bytes) :
  validKeyLength (keyBuffer key) = true ->
  decodeBase64 ciphertext = Some combined ->
  length combined < 13 ->
  decryptForStorage aes ciphertext key
  = ([ImportKey (keyBuffer key);
      SubtleDecrypt (firstn 12 combined) (skipn 12 combined)],
     Throw (js "Failed to decrypt data: " ++ errorMessage aes DecryptionFailed)).
Proof.
  intros Hk Hd Hlen. unfold decryptForStorage. rewrite Hk, Hd.
  rewrite gcm_tag; [reflexivity|]. rewrite length_skipn. lia.
Qed.

(** The sibling in the analysis function measures the decoded envelope
    first and does not call the cipher on a short one. *)
Lemma decryptFromStorage_short (aes : AesGcm) (data key : jsstring)
      (combined : bytes) :
  nonEmpty data = true ->
  nonEmpty key = true ->
  validKeyLength (keyBuffer key) = true ->
  decodeBase64 data = Some combined ->
  length combined < 13 ->
  decryptFromStorage aes (withKey key) data
  = ([ImportKey (keyBuffer key)], Throw (js "Invalid encrypted payload.")).
Proof.
  intros Hdata Hne Hk Hd Hlen. unfold decryptFromStorage, withKey.
  cbn [ENCRYPTION_KEY]. rewrite Hdata, Hne, Hk, Hd. cbn [negb].
  apply Nat.ltb_lt in Hlen. now rewrite Hlen.
Qed.

(** C6.  The envelope "AAAA" decodes to three bytes.  [decryptForStorage]
    has no length check: it imports the key, calls the cipher with a
    3-byte nonce and an empty ciphertext, and reports the cipher's failure
    as "Failed to decrypt data: ...", not as an invalid envelope found
    beforehand. *)
Theorem short_envelope_reaches_the_cipher (aes : AesGcm) :
  decodeBase64 (js "AAAA") = Some [Byte.x00; Byte.x00; Byte.x00]
  /\ decryptForStorage aes (js "AAAA") sampleKey
     = ([ImportKey (keyBuffer sampleKey);
         SubtleDecrypt [Byte.x00; Byte.x00; Byte.x00] []],
        Throw (js "Failed to decrypt data: " ++ errorMessage aes DecryptionFailed))
  /\ decryptFromStorage aes (withKey sampleKey) (js "AAAA")
     = ([ImportKey (keyBuffer sampleKey)], Throw (js "Invalid encrypted payload.")).
Proof.
  split; [vm_compute; reflexivity|]. split.
  - apply (decryptForStorage_short aes (js "AAAA") sampleKey
             (combined := [Byte.x00; Byte.x00; Byte.x00]));
      [vm_compute; reflexivity | vm_compute; reflexivity | cbn; lia].
  - apply (decryptFromStorage_short aes (js "AAAA") sampleKey
             (combined := [Byte.x00; Byte.x00; Byte.x00]));
      [reflexivity | reflexivity | vm_compute; reflexivity
      | vm_compute; reflexivity | cbn; lia].
Qed.

(** ** Upload pipeline *)

Lemma withTextAndSegments_same (t : Transcription) :
  withTextAndSegments t (text t) (segments t) = t.
Proof. now destruct t. Qed.

Lemma jsstring_eqb_refl (a : jsstring) : jsstring_eqb a a = true.
Proof. now apply jsstring_eqb_eq. Qed.

(** C1 (as stated).  For the transcript "mano asmens kodas 12345678901" the
    upload pipeline persists the raw transcript, digits included, although
    masking would change it: plaintext-shaped without a key, and under a
    key inside an envelope that decrypts to the raw JSON. *)
Lemma upload_persists_unmasked_transcript :
  upd_transcription
    (snd (storeTranscription referenceGcm sampleStringify withoutKey sampleIv
                             rawWithPersonCode))
  = Plain rawWithPersonCode
  /\ includes (text rawWithPersonCode) (js "12345678901") = true
  /\ maskWithRegex rawWithPersonCode <> rawWithPersonCode
  /\ (exists data,
        upd_transcription
          (snd (storeTranscription referenceGcm sampleStringify (withKey sampleKey)
                                   sampleIv rawWithPersonCode))
        = Envelope data
        /\ snd (decryptForStorage referenceGcm data sampleKey)
           = Ok (sampleStringify rawWithPersonCode)).
Proof.
  split; [vm_compute; reflexivity|].
  split; [vm_compute; reflexivity|].
  split.
  - intros H. apply (f_equal text) in H. vm_compute in H. discriminate H.
  - exists (encryptForStorage referenceGcm (withKey sampleKey) sampleIv
                              (sampleStringify rawWithPersonCode)).
    split; vm_compute; reflexivity.
Qed.

Lemma encryptForStorage_cases (aes : AesGcm) env iv P :
  encryptForStorage aes env iv P
  = if usableKey env
    then encodeBase64
           (iv ++ gcmEncrypt aes (keyBuffer (configuredKey env)) iv (textEncode P))
    else P.
Proof.
  unfold encryptForStorage, usableKey, configuredKey.
  destruct (ENCRYPTION_KEY env) as [[|c k]|]; cbn [orElse nonEmpty negb andb];
    reflexivity.
Qed.

Lemma encodeBase64_nonEmpty b bs : nonEmpty (encodeBase64 (b :: bs)) = true.
Proof. destruct bs as [|b1 [|b2 r]]; reflexivity. Qed.

Lemma decrypt_encrypt_usable (aes : AesGcm) env (iv : bytes) (P : jsstring) :
  usableKey env = true -> length iv = 12 ->
  snd (decryptForStorage aes (encryptForStorage aes env iv P) (configuredKey env))
  = Ok (textDecode (textEncode P)).
Proof.
  intros Hk Hiv. rewrite encryptForStorage_cases, Hk.
  unfold usableKey in Hk. apply andb_prop in Hk. destruct Hk as [_ Hvalid].
  unfold decryptForStorage. rewrite Hvalid, decodeBase64_encodeBase64.
  destruct (firstn_skipn_envelope iv
              (gcmEncrypt aes (keyBuffer (configuredKey env)) iv (textEncode P)) Hiv)
    as [-> ->].
  cbn [snd]. now rewrite gcm_roundtrip.
Qed.

(** No base64 digit is a brace, so no base64 text starts with one. *)
Lemma encodeBase64_no_brace (bs : bytes) : startsWithBrace (encodeBase64 bs) = false.
Proof.
  assert (H : forall v, isChar "{" (b64char v) = false).
  { intros v. unfold isChar, b64char. apply N.eqb_neq.
    change (N_of_ascii "{") with 123%N.
    destruct (v <? 26)%N eqn:E1; [apply N.ltb_lt in E1; lia|].
    destruct (v <? 52)%N eqn:E2; [apply N.ltb_lt in E2; lia|].
    destruct (v <? 62)%N eqn:E3; [apply N.ltb_lt in E3; lia|].
    destruct (v =? 62)%N; lia. }
  destruct bs as [|a [|b [|c rest]]]; cbn [encodeBase64 startsWithBrace app];
    [reflexivity | apply H ..].
Qed.

(** C1 (amended).  What the upload pipeline persists as the transcription
    is the raw transcript as transcribed, no masking applied.  Under a key
    that is set, not empty and parses to 16, 24 or 32 bytes it is the
    envelope whose data is the base64 text of the nonce followed by the
    AES-GCM encryption of the JSON of the raw object, which decrypts to
    that JSON; under any other setting of the key it is the raw object
    itself.  The JSON of an object starts with a brace. *)
Theorem upload_persists_raw_transcription
        (aes : AesGcm) (stringifyTranscription : Transcription -> jsstring)
        (env : EdgeEnv) (iv : bytes) (raw : Transcription) :
  startsWithBrace (stringifyTranscription raw) = true ->
  fst (storeTranscription aes stringifyTranscription env iv raw) = raw
  /\ upd_transcription (snd (storeTranscription aes stringifyTranscription env iv raw))
     = (if usableKey env
        then Envelope
               (encodeBase64
                  (iv ++ gcmEncrypt aes (keyBuffer (configuredKey env)) iv
                                    (textEncode (stringifyTranscription raw))))
        else Plain raw)
  /\ (usableKey env = true -> length iv = 12 ->
      wellFormed (stringifyTranscription raw) = true ->
      snd (decryptForStorage aes
             (encryptForStorage aes env iv (stringifyTranscription raw))
             (configuredKey env))
      = Ok (stringifyTranscription raw)).
Proof.
  intros Hbrace. unfold storeTranscription. cbn [fst snd upd_transcription].
  rewrite withTextAndSegments_same. split; [reflexivity|]. split.
  - rewrite encryptForStorage_cases. destruct (usableKey env).
    + destruct (jsstring_eqb _ _) eqn:E; [|reflexivity].
      apply jsstring_eqb_eq in E. rewrite <- E, encodeBase64_no_brace in Hbrace.
      discriminate.
    + now rewrite jsstring_eqb_refl.
  - intros Hk Hiv Hw. rewrite decrypt_encrypt_usable by assumption.
    rewrite textDecode_textEncode; [reflexivity | exact Hw |].
    destruct (stringifyTranscription raw) as [|c rest]; [discriminate|].
    cbn [startsWithBrace] in Hbrace. unfold isChar in Hbrace.
    apply N.eqb_eq in Hbrace. subst c. reflexivity.
Qed.

Lemma upload_persists_raw_transcription_witness :
  fst (storeTranscription referenceGcm sampleStringify (withKey sampleKey) sampleIv
                          rawWithPersonCode)
  = rawWithPersonCode
  /\ upd_transcription
       (snd (storeTranscription referenceGcm sampleStringify (withKey sampleKey)
                                sampleIv rawWithPersonCode))
     = Envelope
         (encodeBase64
            (sampleIv ++ gcmEncrypt referenceGcm (keyBuffer sampleKey) sampleIv
                           (textEncode (sampleStringify rawWithPersonCode))))
  /\ upd_transcription
       (snd (storeTranscription referenceGcm sampleStringify withoutKey sampleIv
                                rawWithPersonCode))
     = Plain rawWithPersonCode.
Proof.
  split; [|split].
  - apply (proj1 (@upload_persists_raw_transcription referenceGcm sampleStringify
                    (withKey sampleKey) sampleIv rawWithPersonCode eq_refl)).
  - apply (proj1 (proj2 (@upload_persists_raw_transcription referenceGcm
                           sampleStringify (withKey sampleKey) sampleIv
                           rawWithPersonCode eq_refl))).
  - apply (proj1 (proj2 (@upload_persists_raw_transcription referenceGcm
                           sampleStringify withoutKey sampleIv
                           rawWithPersonCode eq_refl))).
Defined.

(** Without a key the raw object is stored as it is. *)
Lemma upload_without_key_stores_plain
      (aes : AesGcm) (stringifyTranscription : Transcription -> jsstring)
      (iv : bytes) (raw : Transcription) :
  upd_transcription (snd (storeTranscription aes stringifyTranscription withoutKey iv raw))
  = Plain raw.
Proof.
  unfold storeTranscription. cbn [snd upd_transcription].
  rewrite withTextAndSegments_same, encryptForStorage_without_key.
  now rewrite jsstring_eqb_refl.
Qed.

Lemma orElse_empty (x : option jsstring) :
  orElse x [] = match x with Some s => s | None => [] end.
Proof. destruct x as [[|c s]|]; reflexivity. Qed.

(** C7.  The summary in the persisted analysis, and the summary in the
    response when the response carries the analysis, is
    [redactSensitiveSummary] of the generated summary (of the empty text
    when the model gave none); the metadata-only response carries its
    length.  None of this depends on the transcription or on how it was
    stored. *)
Theorem persisted_and_returned_summary_is_redacted
        (stringifyPayload : jsstring -> Transcription -> AnalysisResult -> option jsstring)
        (recordId newId : jsstring) (stored : StoredTranscription)
        (t : Transcription) (analysis : GeneratedAnalysis) :
  let generated := match gen_summary analysis with Some s => s | None => [] end in
  let result := finishAnalysis stringifyPayload recordId newId stored t analysis in
  option_map summary (upd_analysis (fst result))
  = Some (redactSensitiveSummary generated)
  /\ match snd result with
     | FullPayload _ _ a => summary a = redactSensitiveSummary generated
     | FallbackPayload _ _ _ fb =>
         fb_summaryLength fb = length (redactSensitiveSummary generated)
     end.
Proof.
  cbv zeta. unfold finishAnalysis, safeJsonResponse, buildAnalysisResult.
  cbn [fst snd upd_analysis option_map summary].
  rewrite orElse_empty. split; [reflexivity|].
  destruct (stringifyPayload _ _ _) as [fullJson|]; [|reflexivity].
  destruct (negb (nonEmpty fullJson)); [reflexivity|].
  destruct (_ <? _)%N; reflexivity.
Qed.

(** The redaction at work. *)
Lemma redactSensitiveSummary_example :
  redactSensitiveSummary
    (js "Klientas  paliko tel. +370 612 34567 ir el. pa" ++ [353%N]
        ++ js "ta jonas@example.com. ")
  = js "Klientas paliko tel. [TEL. NR.] ir el. pa" ++ [353%N] ++ js "ta "
       ++ EL_PASTAS ++ js ".".
Proof. vm_compute. reflexivity. Qed.





(** ** Reading and deleting records *)

Section ReadFacts.
Variable aes : AesGcm.
Variable getUser : jsstring -> result jsstring jsstring.
Variable parseTranscription : jsstring -> parsedDocument.
Variable generateMissing :
  Database -> jsstring -> CallRecord -> result jsstring Transcription * Database.
Variable env : EdgeEnv.

Let serve := serveTranscription aes getUser parseTranscription generateMissing env.

Lemma orElse_nonEmpty (s : jsstring) : nonEmpty s = true -> orElse (Some s) [] = s.
Proof. intros H. unfold orElse. now rewrite H. Qed.

(** An authenticated read goes on to the record lookup. *)
Lemma serve_authenticated db m header recordId uid :
  m = GET \/ m = POST ->
  nonEmpty header = true -> getUser header = Ok uid ->
  validRecordId recordId = true ->
  serve db (readRequest m header recordId)
  = match selectRecord db (AsUser uid) recordId with
    | None => (notFound, db)
    | Some data =>
        match transcription data with
        | None =>
            match m with
            | GET => (respond 404 (ErrorJson
                        (js "Transcription not available for this record")), db)
            | _ =>
                (match fst (generateMissing db recordId data) with
                 | Ok t => respond 200 (TranscriptionJson (Some t))
                 | Throw message =>
                     respond 500 (ErrorJson
                       (orElse (Some message)
                               (js "Failed to retrieve transcription")))
                 end, snd (generateMissing db recordId data))
            end
        | Some (Plain t) => (respond 200 (TranscriptionJson (Some t)), db)
        | Some (Envelope data_) =>
            let encryptionKey := orElse (ENCRYPTION_KEY env) [] in
            if nonEmpty data_ && nonEmpty encryptionKey then
              match snd (decryptForStorage aes data_ encryptionKey) with
              | Ok decrypted =>
                  match parseTranscription decrypted with
                  | ParsedObject t =>
                      (respond 200 (TranscriptionJson (Some t)), db)
                  | ParsedBare => (respond 200 (TranscriptionJson None), db)
                  | ParsedNull typeError =>
                      (respond 500 (ErrorJson
                         (orElse (Some typeError)
                                 (js "Failed to retrieve transcription"))), db)
                  | ParseThrows =>
                      (respond 500 (ErrorJson
                         (js "Failed to decrypt transcription")), db)
                  end
              | Throw _ => (respond 500 (ErrorJson
                              (js "Failed to decrypt transcription")), db)
              end
            else (respond 200 (TranscriptionJson None), db)
        end
    end.
Proof.
  intros Hm Hh Hu Hid. unfold serve, serveTranscription, readRequest.
  cbn [req_method req_authorization req_recordId].
  unfold validRecordId in Hid. apply andb_prop in Hid. destruct Hid as [Hne Hnt].
  rewrite (orElse_nonEmpty _ Hh), Hh, Hu, (orElse_nonEmpty _ Hne), Hne.
  apply negb_true_iff in Hnt. rewrite Hnt. cbn [negb orb].
  destruct Hm as [-> | ->]; reflexivity.
Qed.
End ReadFacts.





Section DeleteFacts.
Variable getUser : jsstring -> result jsstring jsstring.
Variable Storage : Type.
Variable listObjects : Storage -> jsstring -> option (list jsstring).
Variable removeObjects : Storage -> list jsstring -> Storage.
Variable destructureMessage : jsstring.
Variable meanwhile : Database -> Database.
Variable env : DeleteEnv.

Let adminClient (uid : jsstring) : client :=
  if nonEmpty (orElse (SUPABASE_SERVICE_ROLE_KEY env) []) then ServiceRole
  else AsUser uid.

(** An authenticated delete goes on to the record lookup. *)
Lemma delete_authenticated db st header id_ uid :
  nonEmpty header = true -> configured env = true ->
  getUser header = Ok uid -> nonEmpty id_ = true ->
  serveDelete getUser listObjects removeObjects destructureMessage meanwhile env db st (deleteRequest header id_)
  = match selectRecord db (adminClient uid) id_ with
    | None => (recordNotFound, db, st)
    | Some record =>
        let isAdmin :=
          match selectRole db (adminClient uid) uid with
          | Some RoleAdmin => true
          | _ => false
          end in
        if negb (ownedBy record uid) && negb isAdmin then
          (respond 403 (ErrorJson (js "Forbidden")), db, st)
        else
          let serviceRoleKey := orElse (SUPABASE_SERVICE_ROLE_KEY env) [] in
          let st' :=
            if nonEmpty serviceRoleKey && nonEmpty (audio_id record)
            then removeAudio listObjects removeObjects st (audio_id record)
            else st in
          let deleteClient := if nonEmpty serviceRoleKey then adminClient uid
                              else AsUser uid in
          let deleted := deleteRecord (meanwhile db) deleteClient id_ in
          match fst deleted with
          | [] =>
              match selectRecord (snd deleted) (adminClient uid) id_ with
              | Some _ =>
                  (respond 500 (ErrorJson (js
                     "Record exists but deletion was blocked. Check RLS policies.")),
                   snd deleted, st')
              | None => (respond 200 OkJson, snd deleted, st')
              end
          | _ :: _ => (respond 200 OkJson, snd deleted, st')
          end
    end.
Proof.
  intros Hh Hc Hu Hid. unfold serveDelete, deleteRequest, adminClient.
  cbn [req_method req_authorization req_recordId req_bodyNull].
  unfold configured in Hc. apply andb_prop in Hc. destruct Hc as [Hurl Hanon].
  rewrite (orElse_nonEmpty _ Hh), Hh, Hurl, Hanon, Hu.
  rewrite (orElse_nonEmpty _ Hid), Hid. reflexivity.
Qed.
End DeleteFacts.

(** The role lookup of the handler reads the caller's own profile, with
    either client. *)
Lemma selectRole_self db (c : client) uid :
  c = ServiceRole \/ c = AsUser uid ->
  match selectRole db c uid with
  | Some RoleAdmin => true
  | _ => false
  end = isAdminUser db uid.
Proof.
  intros [-> | ->]; unfold selectRole, isAdminUser; [reflexivity|].
  now rewrite jsstring_eqb_refl.
Qed.

Lemma selectRecord_found db c id_ record :
  selectRecord db c id_ = Some record -> call_records db id_ = Some record.
Proof.
  unfold selectRecord. destruct (call_records db id_) as [row|]; [|discriminate].
  destruct (policyAllows db c row); [|discriminate]. now intros [= ->].
Qed.

(** C9 (amended).  A delete request for an id that has no row when the
    handler looks the record up - never existed, or already deleted - is
    answered 404 "Record not found" and changes nothing.  A request is
    answered 200 only when the row was found at the lookup and the caller
    owns it or is an admin; and for such a caller, a row that is gone by
    the time the DELETE runs still gives 200, the tables being left as
    they were found then. *)
Theorem delete_of_missing_record
        (getUser : jsstring -> result jsstring jsstring)
        (Storage : Type)
        (listObjects : Storage -> jsstring -> option (list jsstring))
        (removeObjects : Storage -> list jsstring -> Storage)
        (destructureMessage : jsstring)
        (meanwhile : Database -> Database)
        (env : DeleteEnv) (db : Database) (st : Storage)
        (header id_ uid : jsstring) :
  nonEmpty header = true -> configured env = true ->
  getUser header = Ok uid -> nonEmpty id_ = true ->
  let response :=
    serveDelete getUser listObjects removeObjects destructureMessage meanwhile
                env db st (deleteRequest header id_) in
  (call_records db id_ = None -> response = (recordNotFound, db, st))
  /\ (resp_status (fst (fst response)) = 200 ->
      exists row, call_records db id_ = Some row
                  /\ ownedBy row uid || isAdminUser db uid = true)
  /\ (forall row, call_records db id_ = Some row ->
        ownedBy row uid || isAdminUser db uid = true ->
        call_records (meanwhile db) id_ = None ->
        fst response = (respond 200 OkJson, meanwhile db)).
Proof.
  intros Hh Hc Hu Hid response. subst response.
  rewrite (@delete_authenticated getUser Storage listObjects removeObjects
             destructureMessage meanwhile env db st header id_ uid Hh Hc Hu Hid).
  cbv zeta.
  set (admin := if nonEmpty (orElse (SUPABASE_SERVICE_ROLE_KEY env) [])
                then ServiceRole else AsUser uid).
  assert (Hadmin : admin = ServiceRole \/ admin = AsUser uid)
    by (unfold admin;
        destruct (nonEmpty (orElse (SUPABASE_SERVICE_ROLE_KEY env) [])); auto).
  rewrite (selectRole_self db Hadmin).
  split; [|split].
  - intros Hnone. unfold selectRecord. now rewrite Hnone.
  - destruct (selectRecord db admin id_) as [record|] eqn:Hsel;
      [|cbn; discriminate].
    apply selectRecord_found in Hsel.
    destruct (ownedBy record uid || isAdminUser db uid) eqn:Hmay.
    + intros _. now exists record.
    + apply orb_false_elim in Hmay. destruct Hmay as [-> ->]. cbn. discriminate.
  - intros row Hrow Hmay Hgone.
    assert (Hsel : selectRecord db admin id_ = Some row).
    { unfold selectRecord. rewrite Hrow.
      destruct Hadmin as [-> | ->]; cbn [policyAllows]; [reflexivity|].
      now rewrite Hmay. }
    rewrite Hsel.
    destruct (ownedBy row uid), (isAdminUser db uid); try discriminate;
      cbn [negb andb];
      unfold deleteRecord, selectRecord; rewrite Hgone; cbn [fst snd];
      rewrite Hgone; reflexivity.
Qed.

(** On the delete path a caller who neither owns the record nor is an
    admin is answered 403 when the service role key is configured. *)
Lemma delete_by_other_user_forbidden
      (getUser : jsstring -> result jsstring jsstring)
      (Storage : Type)
        (listObjects : Storage -> jsstring -> option (list jsstring))
        (removeObjects : Storage -> list jsstring -> Storage)
        (destructureMessage : jsstring)
      (meanwhile : Database -> Database)
      (env : DeleteEnv) (db : Database) (st : Storage)
      (header id_ uid : jsstring) (row : CallRecord) :
  nonEmpty header = true -> configured env = true ->
  getUser header = Ok uid -> nonEmpty id_ = true ->
  nonEmpty (orElse (SUPABASE_SERVICE_ROLE_KEY env) []) = true ->
  call_records db id_ = Some row ->
  ownedBy row uid = false -> isAdminUser db uid = false ->
  serveDelete getUser listObjects removeObjects destructureMessage meanwhile env db st (deleteRequest header id_)
  = (respond 403 (ErrorJson (js "Forbidden")), db, st).
Proof.
  intros Hh Hc Hu Hid Hkey Hrow Hown Hadm.
  rewrite (@delete_authenticated getUser Storage listObjects removeObjects destructureMessage meanwhile env db st
             header id_ uid Hh Hc Hu Hid).
  rewrite Hkey. unfold selectRecord, selectRole. rewrite Hrow. cbn [policyAllows].
  rewrite Hown. unfold isAdminUser in Hadm.
  destruct (user_profiles db uid) as [[|]|]; try discriminate; reflexivity.
Qed.

(** C9 (as stated).  The owner deletes the record and is answered 200;
    the same request again, and a request for an id that never existed,
    are answered 404 "Record not found". *)
Lemma second_delete_is_not_found :
  let first := sampleDelete sampleDb sampleBucket (js "Bearer a") (js "rec-1") in
  let second := sampleDelete (snd (fst first)) (snd first) (js "Bearer a") (js "rec-1") in
  fst (fst first) = respond 200 OkJson
  /\ call_records (snd (fst first)) (js "rec-1") = None
  /\ fst (fst second) = recordNotFound
  /\ fst (fst (sampleDelete sampleDb sampleBucket (js "Bearer a") (js "rec-404")))
     = recordNotFound
  /\ resp_status recordNotFound <> 200.
Proof. repeat split; try (vm_compute; reflexivity). vm_compute. discriminate. Qed.

Lemma delete_of_missing_record_witness :
  sampleDelete sampleDb sampleBucket (js "Bearer a") (js "rec-404")
  = (recordNotFound, sampleDb, sampleBucket)
  /\ fst (serveDelete sampleGetUser sampleListObjects sampleRemoveObjects
             sampleDestructureMessage removedMeanwhile
             sampleDeleteEnv sampleDb sampleBucket
             (deleteRequest (js "Bearer c") (js "rec-1")))
     = (respond 200 OkJson, removedMeanwhile sampleDb).
Proof.
  split.
  - apply (proj1 (@delete_of_missing_record sampleGetUser (list jsstring)
                    sampleListObjects sampleRemoveObjects sampleDestructureMessage
                    (fun db => db) sampleDeleteEnv sampleDb
                    sampleBucket (js "Bearer a") (js "rec-404") userA
                    eq_refl eq_refl eq_refl eq_refl)).
    reflexivity.
  - apply (proj2 (proj2 (@delete_of_missing_record sampleGetUser (list jsstring)
                    sampleListObjects sampleRemoveObjects sampleDestructureMessage
                    removedMeanwhile sampleDeleteEnv sampleDb
                    sampleBucket (js "Bearer c") (js "rec-1") adminC
                    eq_refl eq_refl eq_refl eq_refl)) sampleRecord);
      reflexivity.
Defined.

(** * Further properties of the code *)

Lemma split_nonempty sep s : split sep s <> [].
Proof.
  destruct s as [|c s]; cbn; [discriminate|].
  destruct (c =? sep)%N; [discriminate|]. destruct (split sep s); discriminate.
Qed.

Lemma isLocalhost_origin origin :
  isLocalhost origin = true -> exists o, origin = Some o /\ nonEmpty o = true.
Proof.
  destruct origin as [o|]; [|discriminate]. cbn. intros H.
  apply andb_prop in H. destruct H. now exists o.
Qed.

Lemma isListed_origin l origin :
  isListed l origin = true ->
  exists o, origin = Some o /\ nonEmpty o = true /\ In o l.
Proof.
  destruct origin as [o|]; [|discriminate]. cbn. intros H.
  apply andb_prop in H. destruct H as [H1 H2]. exists o. repeat split; auto.
  unfold arrayIncludes in H2. apply existsb_exists in H2.
  destruct H2 as (x & Hin & Heq). apply jsstring_eqb_eq in Heq. now subst.
Qed.

Lemma orElse_nonEmpty_some o d : nonEmpty o = true -> orElse (Some o) d = o.
Proof. intros H. cbn. now rewrite H. Qed.

(** X1.  With ALLOWED_ORIGINS set, be it to the empty text, [getCorsHeaders] of
    upload and delete-record sends Access-Control-Allow-Origin exactly to a
    localhost origin and to an origin that is an entry of the list, and its
    value is then the Origin of the request; every other caller gets no
    such header.  So the wildcard is sent only to a request whose Origin is
    the text [*] itself, and only when [*] is an entry of the list. *)
Theorem configured_origins_echo_the_origin (v : jsstring) (origin : option jsstring) :
  getHeader ALLOW_ORIGIN (UploadCors.getCorsHeaders (withOrigins v) origin)
  = (if isLocalhost origin || isListed (split COMMA v) origin then origin else None)
  /\ (getHeader ALLOW_ORIGIN (UploadCors.getCorsHeaders (withOrigins v) origin)
      = Some (js "*")
      <-> origin = Some (js "*") /\ In (js "*") (split COMMA v)).
Proof.
  assert (H : getHeader ALLOW_ORIGIN
                (UploadCors.getCorsHeaders (withOrigins v) origin)
              = if isLocalhost origin || isListed (split COMMA v) origin
                then origin else None).
  { unfold UploadCors.getCorsHeaders, withOrigins. cbn [ALLOWED_ORIGINS].
    destruct (split COMMA v) as [|e l] eqn:E; [now apply split_nonempty in E|].
    cbn [length Nat.eqb].
    destruct (isLocalhost origin) eqn:Hl; cbn [orb].
    - apply isLocalhost_origin in Hl. destruct Hl as (o & -> & Ho).
      rewrite (@orElse_nonEmpty_some o _ Ho). reflexivity.
    - destruct (isListed (e :: l) origin) eqn:Hi.
      + apply isListed_origin in Hi. destruct Hi as (o & -> & Ho & _).
        rewrite (@orElse_nonEmpty_some o _ Ho). reflexivity.
      + reflexivity. }
  split; [exact H|]. rewrite H. split.
  - destruct (isLocalhost origin || isListed (split COMMA v) origin) eqn:E;
      [|discriminate].
    intros ->. split; [reflexivity|].
    apply orb_prop in E. destruct E as [E|E]; [discriminate E|].
    apply isListed_origin in E. destruct E as (o & [= <-] & _ & Hin). exact Hin.
  - intros [-> Hin].
    assert (E : isListed (split COMMA v) (Some (js "*")) = true).
    { cbn. unfold arrayIncludes. apply existsb_exists. exists (js "*").
      split; [exact Hin | reflexivity]. }
    rewrite E. now rewrite orb_true_r.
Qed.

(** X2.  In both variants of [getCorsHeaders] that can send
    Access-Control-Allow-Credentials, this header only comes together with
    Access-Control-Allow-Origin set to the non-empty Origin of the request,
    and only for a localhost origin or an origin that is an entry of the
    configured list; the wildcard of development mode comes without it.
    With the value [*] it comes only when the Origin of the request is the
    text [*] and [*] is an entry of the list. *)
Theorem credentials_only_with_echoed_origin (env : OriginEnv) (origin : option jsstring) :
  (getHeader ALLOW_CREDENTIALS (UploadCors.getCorsHeaders env origin) <> None ->
   exists o, origin = Some o /\ nonEmpty o = true
     /\ getHeader ALLOW_ORIGIN (UploadCors.getCorsHeaders env origin) = Some o
     /\ (isLocalhost origin = true \/ In o (uploadOrigins env))
     /\ (o = js "*" -> In (js "*") (uploadOrigins env)))
  /\ (getHeader ALLOW_CREDENTIALS (TranscriptionCors.getCorsHeaders env origin) <> None ->
      exists o, origin = Some o /\ nonEmpty o = true
        /\ getHeader ALLOW_ORIGIN (TranscriptionCors.getCorsHeaders env origin) = Some o
        /\ (isLocalhost origin = true \/ In o (transcriptionOrigins env))
        /\ (o = js "*" -> In (js "*") (transcriptionOrigins env))).
Proof.
  assert (Hstar : isLocalhost (Some (js "*")) = false) by reflexivity.
  split.
  - unfold UploadCors.getCorsHeaders.
    change (match ALLOWED_ORIGINS env with
            | Some v => split COMMA v
            | None => []
            end) with (uploadOrigins env).
    destruct (length (uploadOrigins env) =? 0)%nat; [intros H; now contradiction H|].
    destruct (isLocalhost origin) eqn:Hl.
    + intros _. pose proof Hl as Hl'.
      apply isLocalhost_origin in Hl. destruct Hl as (o & -> & Ho).
      exists o. rewrite (@orElse_nonEmpty_some o _ Ho).
      repeat split; auto. intros ->. congruence.
    + destruct (isListed (uploadOrigins env) origin) eqn:Hi;
        [|intros H; now contradiction H].
      intros _. apply isListed_origin in Hi. destruct Hi as (o & -> & Ho & Hin).
      exists o. rewrite (@orElse_nonEmpty_some o _ Ho).
      repeat split; auto. now intros ->.
  - unfold TranscriptionCors.getCorsHeaders.
    change (filter nonEmpty (map trim (split COMMA (orElse (ALLOWED_ORIGINS env) []))))
      with (transcriptionOrigins env).
    destruct (length (transcriptionOrigins env) =? 0)%nat;
      [intros H; now contradiction H|].
    destruct (isLocalhost origin) eqn:Hl.
    + intros _. pose proof Hl as Hl'.
      apply isLocalhost_origin in Hl. destruct Hl as (o & -> & Ho).
      exists o. rewrite (@orElse_nonEmpty_some o _ Ho).
      repeat split; auto. intros ->. congruence.
    + destruct (isListed (transcriptionOrigins env) origin) eqn:Hi;
        [|intros H; now contradiction H].
      intros _. apply isListed_origin in Hi. destruct Hi as (o & -> & Ho & Hin).
      exists o. rewrite (@orElse_nonEmpty_some o _ Ho).
      repeat split; auto. now intros ->.
Qed.

(** X3.  [getCorsHeaders] of transcription and analysis trims the entries of
    ALLOWED_ORIGINS and drops the empty ones: a value whose entries are all
    blank (the empty text, commas, white space) is development mode, and
    every origin is answered with the wildcard. *)
Theorem blank_origin_list_allows_every_origin (v : jsstring) (origin : option jsstring) :
  Forall (fun e => trim e = []) (split COMMA v) ->
  TranscriptionCors.getCorsHeaders (withOrigins v) origin
  = developmentHeaders (js "GET, POST, OPTIONS").
Proof.
  intros H. unfold TranscriptionCors.getCorsHeaders, withOrigins.
  cbn [ALLOWED_ORIGINS]. rewrite orElse_empty.
  assert (E : filter nonEmpty (map trim (split COMMA v)) = []).
  { induction H as [|e l He _ IH]; [reflexivity|]. cbn. now rewrite He. }
  rewrite E. reflexivity.
Qed.

Lemma blank_origin_list_allows_every_origin_witness :
  TranscriptionCors.getCorsHeaders (withOrigins (js " , ")) (Some (js "https://evil.example"))
  = developmentHeaders (js "GET, POST, OPTIONS").
Proof.
  apply (blank_origin_list_allows_every_origin (js " , ") (Some (js "https://evil.example"))).
  vm_compute. repeat constructor.
Defined.

(** An origin listed with white space around it is matched after
    trimming, and answered with credentials. *)
Theorem listed_origin_matches_after_trim (v e o : jsstring) :
  In e (split COMMA v) -> trim e = o -> nonEmpty o = true ->
  getHeader ALLOW_ORIGIN (TranscriptionCors.getCorsHeaders (withOrigins v) (Some o))
  = Some o
  /\ getHeader ALLOW_CREDENTIALS
       (TranscriptionCors.getCorsHeaders (withOrigins v) (Some o))
     = Some (js "true").
Proof.
  intros Hin Ht Ho. unfold TranscriptionCors.getCorsHeaders, withOrigins.
  cbn [ALLOWED_ORIGINS]. rewrite orElse_empty.
  assert (Hl : In o (filter nonEmpty (map trim (split COMMA v)))).
  { apply filter_In. split; [|exact Ho]. apply in_map_iff. now exists e. }
  destruct (filter nonEmpty (map trim (split COMMA v))) as [|a l] eqn:E;
    [contradiction|]. cbn [length Nat.eqb].
  destruct (isLocalhost (Some o)).
  - rewrite (@orElse_nonEmpty_some o _ Ho). split; reflexivity.
  - assert (Hi : isListed (a :: l) (Some o) = true).
    { cbn [isListed]. rewrite Ho. cbn [andb]. unfold arrayIncludes.
      apply existsb_exists. exists o. split; [exact Hl|]. now apply jsstring_eqb_eq. }
    rewrite Hi, (@orElse_nonEmpty_some o _ Ho). split; reflexivity.
Qed.

Lemma listed_origin_matches_after_trim_witness :
  getHeader ALLOW_ORIGIN
    (TranscriptionCors.getCorsHeaders
       (withOrigins (js "https://a.example, https://app.example "))
       (Some (js "https://app.example")))
  = Some (js "https://app.example")
  /\ getHeader ALLOW_CREDENTIALS
       (TranscriptionCors.getCorsHeaders
          (withOrigins (js "https://a.example, https://app.example "))
          (Some (js "https://app.example")))
     = Some (js "true").
Proof.
  apply (@listed_origin_matches_after_trim
           (js "https://a.example, https://app.example ")
           (js " https://app.example ") (js "https://app.example")).
  - vm_compute. right. left. reflexivity.
  - vm_compute. reflexivity.
  - reflexivity.
Defined.

(** X4.  With ALLOWED_ORIGINS set, [getCorsHeaders] of security-audit always
    sends an Access-Control-Allow-Origin whose value is one of the
    configured entries: the Origin of the request when that is listed, the
    first entry for every other request; it never sends
    Access-Control-Allow-Credentials. *)
Theorem audit_names_a_configured_origin
        (env : OriginEnv) (v : jsstring) (origin : option jsstring) :
  ALLOWED_ORIGINS env = Some v ->
  getHeader ALLOW_CREDENTIALS (AuditCors.getCorsHeaders env origin) = None
  /\ exists first others,
       split COMMA v = first :: others
       /\ getHeader ALLOW_ORIGIN (AuditCors.getCorsHeaders env origin)
          = Some (match origin with
                  | Some o => if isListed (first :: others) origin then o else first
                  | None => first
                  end)
       /\ (isListed (first :: others) origin = false ->
           getHeader ALLOW_ORIGIN (AuditCors.getCorsHeaders env origin)
           = Some first)
       /\ exists listed,
            getHeader ALLOW_ORIGIN (AuditCors.getCorsHeaders env origin)
            = Some listed
            /\ In listed (first :: others).
Proof.
  intros Hv. unfold AuditCors.getCorsHeaders. rewrite Hv.
  destruct (split COMMA v) as [|e l] eqn:E; [now apply split_nonempty in E|].
  split; [destruct (isListed (e :: l) origin); reflexivity|].
  exists e, l. split; [reflexivity|].
  destruct (isListed (e :: l) origin) eqn:Hi.
  - apply isListed_origin in Hi. destruct Hi as (o & -> & Ho & Hin).
    rewrite (@orElse_nonEmpty_some o _ Ho).
    split; [reflexivity|]. split; [discriminate|]. now exists o.
  - split; [now destruct origin|]. split; [reflexivity|].
    exists e. split; [reflexivity | now left].
Qed.

Lemma audit_names_a_configured_origin_witness :
  getHeader ALLOW_ORIGIN
    (AuditCors.getCorsHeaders
       (withOrigins (js "https://app.example,https://admin.example"))
       (Some (js "https://evil.example")))
  = Some (js "https://app.example")
  /\ getHeader ALLOW_ORIGIN
       (AuditCors.getCorsHeaders
          (withOrigins (js "https://app.example,https://admin.example"))
          (Some (js "https://admin.example")))
     = Some (js "https://admin.example").
Proof.
  split.
  - destruct (@audit_names_a_configured_origin
                (withOrigins (js "https://app.example,https://admin.example"))
                (js "https://app.example,https://admin.example")
                (Some (js "https://evil.example")) eq_refl)
      as (_ & first & others & E & H & _).
    rewrite H. injection E as <- <-. reflexivity.
  - destruct (@audit_names_a_configured_origin
                (withOrigins (js "https://app.example,https://admin.example"))
                (js "https://app.example,https://admin.example")
                (Some (js "https://admin.example")) eq_refl)
      as (_ & first & others & E & H & _).
    rewrite H. injection E as <- <-. reflexivity.
Defined.

Lemma exec_two prev a b rest :
  isDot a = true -> isDot b = true ->
  exec reOneOrTwo prev (a :: b :: rest) = Some 2.
Proof.
  unfold isDot. intros Ha Hb. unfold exec, reOneOrTwo.
  cbn [rmatch length Nat.add repeat_match option_map pred]. rewrite Ha.
  cbn [rmatch length Nat.add repeat_match option_map pred]. rewrite Hb.
  assert (E : (length rest <? S (length rest)) = true) by (apply Nat.ltb_lt; lia).
  rewrite E. f_equal. lia.
Qed.

Lemma exec_one prev a :
  isDot a = true -> exec reOneOrTwo prev [a] = Some 1.
Proof.
  unfold isDot. intros Ha. unfold exec, reOneOrTwo.
  cbn [rmatch length Nat.add repeat_match option_map pred]. rewrite Ha.
  reflexivity.
Qed.

Lemma match_from_pair prev a b rest :
  isDot a = true -> isDot b = true ->
  match_from reOneOrTwo prev (a :: b :: rest) 0
  = [a; b] :: match_from reOneOrTwo (Some b) rest 0.
Proof.
  intros Ha Hb. cbn [match_from]. rewrite (@exec_two prev a b rest Ha Hb). reflexivity.
Qed.

Lemma match_from_single prev a :
  isDot a = true -> match_from reOneOrTwo prev [a] 0 = [[a]].
Proof. intros Ha. cbn [match_from]. rewrite (@exec_one prev a Ha). reflexivity. Qed.

Lemma match_from_nil prev : match_from reOneOrTwo prev [] 0 = [].
Proof. reflexivity. Qed.

(** Induction two code units at a time. *)
Lemma pairs_ind (P : jsstring -> Prop) :
  P [] -> (forall a, P [a]) -> (forall a b s, P s -> P (a :: b :: s)) ->
  forall s, P s.
Proof.
  intros H0 H1 H2.
  refine (fix go (s : jsstring) : P s :=
            match s with
            | [] => H0
            | [a] => H1 a
            | a :: b :: s' => H2 a b s' (go s')
            end).
Qed.

(** The groups of [/.{1,2}/g]: pairs from the left, a last single one
    when the length is odd. *)
Lemma keyBuffer_length (key : jsstring) :
  forallb isDot key = true ->
  length (keyBuffer key) = (length key + 1) / 2.
Proof.
  unfold keyBuffer, matchAll. rewrite length_map. generalize (@None N).
  induction key as [|a|a b s IH] using pairs_ind; intros prev H.
  - reflexivity.
  - cbn in H. apply andb_prop in H. destruct H as [Ha _].
    now rewrite (@match_from_single prev a Ha).
  - cbn [forallb] in H. apply andb_prop in H. destruct H as [Ha H].
    apply andb_prop in H. destruct H as [Hb H].
    rewrite (@match_from_pair prev a b s Ha Hb). cbn [length].
    rewrite (IH (Some b) H).
    replace (S (S (length s)) + 1) with (length s + 1 + 1 * 2) by lia.
    rewrite Nat.div_add by lia. lia.
Qed.

Lemma hexPairOk_all b : hexPairOk b = true.
Proof. destruct b; vm_compute; reflexivity. Qed.

Lemma hex_pair b :
  exists h l, padStart2 (toString16 (Byte.to_N b)) = [h; l]
    /\ isDot h = true /\ isDot l = true /\ toUint8 (parseInt16 [h; l]) = b.
Proof.
  pose proof (hexPairOk_all b) as H. unfold hexPairOk in H.
  destruct (padStart2 (toString16 (Byte.to_N b))) as [|h [|l [|x r]]];
    try discriminate.
  apply andb_prop in H. destruct H as [H Hb]. apply andb_prop in H.
  destruct H as [Hh Hl]. exists h, l. repeat split; auto.
  now apply Byte.byte_dec_bl in Hb.
Qed.

(** X5.  The key text [generateEncryptionKey] prints has two hexadecimal
    digits per byte, and the hex parsing shared by the encryption functions
    ([match(/.{1,2}/g)] then [parseInt(byte, 16)]) reads the very bytes
    back. *)
Theorem generated_key_parses_back (exported : bytes) :
  keyBuffer (generateEncryptionKey exported) = exported
  /\ length (generateEncryptionKey exported) = 2 * length exported.
Proof.
  split.
  - unfold keyBuffer, matchAll, generateEncryptionKey. generalize (@None N).
    induction exported as [|b bs IH]; intros prev; [reflexivity|].
    cbn [map concat]. destruct (hex_pair b) as (h & l & -> & Hh & Hl & Hb).
    cbn [app]. rewrite (@match_from_pair prev h l _ Hh Hl). cbn [map].
    now rewrite Hb, IH.
  - unfold generateEncryptionKey.
    induction exported as [|b bs IH]; [reflexivity|].
    cbn [map concat]. destruct (hex_pair b) as (h & l & -> & _).
    cbn [app length]. rewrite IH. cbn. lia.
Qed.

Lemma dropWhile_forallb (p q : N -> bool) s :
  forallb q s = true -> forallb q (dropWhile p s) = true.
Proof.
  induction s as [|c s IH]; [reflexivity|]. cbn [forallb dropWhile]. intros H.
  destruct (p c); [|exact H]. apply andb_prop in H. now apply IH.
Qed.

Lemma noHexDigit_not_zero z : noHexDigit z = true -> isChar "0" z = false.
Proof.
  unfold isChar. destruct (z =? N_of_ascii "0")%N eqn:E; [|reflexivity].
  apply N.eqb_eq in E. subst z. discriminate.
Qed.

Lemma hexPrefixValue_no_hex s :
  forallb noHexDigit s = true -> hexPrefixValue None s = None.
Proof.
  destruct s as [|c s]; [reflexivity|]. cbn [forallb hexPrefixValue]. intros H.
  apply andb_prop in H. destruct H as [Hc _]. unfold noHexDigit in Hc.
  now destruct (hexDigitVal c).
Qed.

Lemma parseInt16_no_hex s :
  forallb noHexDigit s = true -> parseInt16 s = None.
Proof.
  intros H. unfold parseInt16. cbv zeta.
  pose proof (dropWhile_forallb isSpace noHexDigit s H) as H1.
  set (s1 := dropWhile isSpace s) in *.
  assert (H2 : forallb noHexDigit
                 (snd match s1 with
                      | c :: s' =>
                          if isChar "-" c then (true, s')
                          else if isChar "+" c then (false, s')
                          else (false, s1)
                      | [] => (false, [])
                      end) = true).
  { destruct s1 as [|c s']; [reflexivity|].
    cbn [forallb] in H1. pose proof H1 as H1'. apply andb_prop in H1'.
    destruct H1' as [_ Hs']. destruct (isChar "-" c); [exact Hs'|].
    destruct (isChar "+" c); [exact Hs' | exact H1]. }
  set (sg := match s1 with
             | c :: s' =>
                 if isChar "-" c then (true, s')
                 else if isChar "+" c then (false, s')
                 else (false, s1)
             | [] => (false, [])
             end) in *.
  assert (H3 : hexPrefixValue None
                 match snd sg with
                 | z :: x :: s' =>
                     if isChar "0" z && (isChar "x" x || isChar "X" x) then s'
                     else snd sg
                 | _ => snd sg
                 end = None).
  { destruct (snd sg) as [|z [|x s']]; try (now apply hexPrefixValue_no_hex).
    cbn [forallb] in H2. pose proof H2 as H2'. apply andb_prop in H2'.
    destruct H2' as [Hz _]. rewrite (noHexDigit_not_zero _ Hz). cbn [andb].
    now apply hexPrefixValue_no_hex. }
  match goal with
  | |- match ?x with Some _ => _ | None => _ end = _ =>
      assert (E : x = None) by exact H3; rewrite E
  end.
  reflexivity.
Qed.

(** X6.  A key text without any hexadecimal digit (and without line
    terminator) is read as zero bytes, one per pair of characters:
    [parseInt] gives NaN and [Uint8Array.from] stores 0.  A 64-character
    pass phrase of such characters is thus the all-zero 256-bit key. *)
Theorem key_without_hex_digits_is_all_zero (key : jsstring) :
  forallb isDot key = true -> forallb noHexDigit key = true ->
  keyBuffer key = repeat Byte.x00 ((length key + 1) / 2).
Proof.
  unfold keyBuffer, matchAll. generalize (@None N).
  induction key as [|a|a b s IH] using pairs_ind; intros prev Hd Hx.
  - reflexivity.
  - cbn in Hd. apply andb_prop in Hd. destruct Hd as [Ha _].
    rewrite (@match_from_single prev a Ha). cbn [map].
    now rewrite (parseInt16_no_hex [a] Hx).
  - cbn [forallb] in Hd, Hx.
    apply andb_prop in Hd. destruct Hd as [Ha Hd].
    apply andb_prop in Hd. destruct Hd as [Hb Hd].
    pose proof Hx as Hx'. apply andb_prop in Hx'. destruct Hx' as [Hxa Hx'].
    apply andb_prop in Hx'. destruct Hx' as [Hxb Hxs].
    rewrite (@match_from_pair prev a b s Ha Hb). cbn [map length].
    rewrite (IH (Some b) Hd Hxs).
    rewrite (parseInt16_no_hex [a; b]) by (cbn [forallb]; now rewrite Hxa, Hxb).
    replace (S (S (length s)) + 1) with (length s + 1 + 1 * 2) by lia.
    rewrite Nat.div_add by lia. set (n := (length s + 1) / 2).
    rewrite Nat.add_1_r. reflexivity.
Qed.

Lemma key_without_hex_digits_is_all_zero_witness :
  keyBuffer (js "zz-top!") = repeat Byte.x00 4.
Proof.
  apply (key_without_hex_digits_is_all_zero (js "zz-top!")); reflexivity.
Defined.

Lemma b64vals_outside d c :
  In c d -> b64val c = None -> b64vals d = None.
Proof.
  induction d as [|x d IH]; [contradiction|]. intros [->|Hin] Hc; cbn [b64vals].
  - now rewrite Hc.
  - rewrite (IH Hin Hc). now destruct (b64val x).
Qed.

Lemma stripPadding_keeps d c :
  In c d -> (c =? PAD)%N = false -> In c (stripPadding d).
Proof.
  intros Hin Hc. unfold stripPadding.
  destruct (length d mod 4 =? 0); [|exact Hin].
  assert (Hr : In c (rev d)) by (now apply in_rev in Hin).
  destruct (rev d) as [|p1 [|p2 r]] eqn:E.
  - exact Hin.
  - destruct (p1 =? PAD)%N eqn:E1; [|exact Hin].
    destruct Hr as [<-|[]]. congruence.
  - destruct (p1 =? PAD)%N eqn:E1; [|exact Hin].
    destruct Hr as [<-|Hr]; [congruence|].
    destruct (p2 =? PAD)%N eqn:E2.
    + destruct Hr as [<-|Hr]; [congruence|]. now apply in_rev in Hr.
    + apply in_rev. rewrite rev_involutive. exact Hr.
Qed.

Lemma decodeBase64_outside s :
  existsb outsideBase64 s = true -> decodeBase64 s = None.
Proof.
  intros H. apply existsb_exists in H. destruct H as (c & Hin & Hc).
  unfold outsideBase64 in Hc. destruct (b64val c) eqn:Hv; [discriminate|].
  apply andb_prop in Hc. destruct Hc as [Hp Hw].
  apply negb_true_iff in Hp.
  unfold decodeBase64.
  set (d := stripPadding (filter (fun c => negb (isAsciiWhitespace c)) s)).
  assert (Hd : In c d).
  { apply stripPadding_keeps; [|exact Hp]. apply filter_In. now split. }
  destruct (length d mod 4 =? 1); [reflexivity|].
  now rewrite (b64vals_outside d c Hd Hv).
Qed.

(** X7.  [decryptData] returns its argument unchanged when no key is set, when
    the key cannot be imported, when the argument is not base64 (a legacy
    plaintext such as a JSON text), and when it decodes to less than a
    nonce and a tag. *)
Theorem decryptData_returns_what_it_cannot_decrypt
        (aes : AesGcm) (env : BrowserEnv) (stored : jsstring) :
  nonEmpty (orElse (VITE_ENCRYPTION_KEY env) []) = false
  \/ validKeyLength (keyBuffer (orElse (VITE_ENCRYPTION_KEY env) [])) = false
  \/ existsb outsideBase64 stored = true
  \/ (exists combined, decodeBase64 stored = Some combined /\ length combined < 28) ->
  decryptData aes env stored = stored.
Proof.
  intros H. unfold decryptData, getEncryptionKey.
  destruct (nonEmpty (orElse (VITE_ENCRYPTION_KEY env) [])); cbn [negb];
    [|reflexivity].
  destruct (validKeyLength (keyBuffer (orElse (VITE_ENCRYPTION_KEY env) [])));
    [|reflexivity].
  destruct H as [H|[H|[H|(combined & Hd & Hlen)]]]; try discriminate.
  - now rewrite (decodeBase64_outside stored H).
  - rewrite Hd. rewrite gcm_tag; [reflexivity|]. rewrite length_skipn. lia.
Qed.

Lemma decryptData_returns_what_it_cannot_decrypt_witness :
  decryptData referenceGcm (browserKey sampleKey) samplePlaintext = samplePlaintext.
Proof.
  apply (decryptData_returns_what_it_cannot_decrypt referenceGcm
           (browserKey sampleKey) samplePlaintext).
  right. right. left. vm_compute. reflexivity.
Defined.

(** X8.  Under a usable key, [decryptData] of what [encryptData] returned is
    the plaintext, for a well-formed plaintext that does not start with
    U+FEFF and an envelope that fits into one call of
    [String.fromCharCode]. *)
Theorem client_encryption_roundtrip
        (aes : AesGcm) (argumentLimit : nat) (rangeErrorMessage : jsstring)
        (key : jsstring) (iv : bytes) (P : jsstring) :
  nonEmpty key = true -> validKeyLength (keyBuffer key) = true ->
  length iv = 12 ->
  length (iv ++ gcmEncrypt aes (keyBuffer key) iv (textEncode P)) <= argumentLimit ->
  wellFormed P = true -> startsWithBOM P = false ->
  exists stored,
    encryptData aes argumentLimit rangeErrorMessage (browserKey key) iv P = Ok stored
    /\ decryptData aes (browserKey key) stored = P.
Proof.
  intros Hne Hk Hiv Hlim Hw Hb.
  exists (encodeBase64 (iv ++ gcmEncrypt aes (keyBuffer key) iv (textEncode P))).
  unfold encryptData, decryptData, getEncryptionKey, browserKey.
  cbn [VITE_ENCRYPTION_KEY]. rewrite orElse_empty, Hne, Hk.
  cbn [negb]. split.
  - apply Nat.leb_le in Hlim. rewrite Nat.ltb_antisym, Hlim. reflexivity.
  - rewrite decodeBase64_encodeBase64.
    destruct (firstn_skipn_envelope iv
                (gcmEncrypt aes (keyBuffer key) iv (textEncode P)) Hiv) as [-> ->].
    rewrite gcm_roundtrip by assumption. now apply textDecode_textEncode.
Qed.

Lemma client_encryption_roundtrip_witness :
  exists stored,
    encryptData referenceGcm 1000 (js "Maximum call stack size exceeded")
                (browserKey sampleKey) sampleIv samplePlaintext = Ok stored
    /\ decryptData referenceGcm (browserKey sampleKey) stored = samplePlaintext.
Proof.
  apply (@client_encryption_roundtrip referenceGcm 1000
           (js "Maximum call stack size exceeded") sampleKey sampleIv samplePlaintext).
  - reflexivity.
  - vm_compute. reflexivity.
  - reflexivity.
  - apply Nat.leb_le. vm_compute. reflexivity.
  - vm_compute. reflexivity.
  - reflexivity.
Defined.

(** X9.  With a key configured [encryptData] never hands the plaintext back:
    a key that cannot be imported makes it throw "Failed to encrypt data:
    ...", and whatever it returns is the base64 of nonce and ciphertext
    (unlike [encryptForStorage], which falls back to the plaintext). *)
Theorem encryptData_never_returns_plaintext_under_a_key
        (aes : AesGcm) (argumentLimit : nat) (rangeErrorMessage : jsstring)
        (key : jsstring) (iv : bytes) (P : jsstring) :
  nonEmpty key = true ->
  (validKeyLength (keyBuffer key) = false ->
   encryptData aes argumentLimit rangeErrorMessage (browserKey key) iv P
   = Throw (failedToEncrypt (errorMessage aes KeyImportFailed)))
  /\ (forall stored,
        encryptData aes argumentLimit rangeErrorMessage (browserKey key) iv P
        = Ok stored ->
        stored = encodeBase64 (iv ++ gcmEncrypt aes (keyBuffer key) iv (textEncode P))
        /\ length (iv ++ gcmEncrypt aes (keyBuffer key) iv (textEncode P))
           <= argumentLimit).
Proof.
  intros Hne. unfold encryptData, getEncryptionKey, browserKey.
  cbn [VITE_ENCRYPTION_KEY]. rewrite orElse_empty, Hne. cbn [negb].
  destruct (validKeyLength (keyBuffer key)); split; try discriminate.
  - intros stored.
    destruct (argumentLimit <? _) eqn:E; [discriminate|].
    intros [= <-]. split; [reflexivity|]. apply Nat.ltb_ge in E. exact E.
  - reflexivity.
Qed.

Lemma encryptData_never_returns_plaintext_under_a_key_witness :
  encryptData referenceGcm 1000 (js "Maximum call stack size exceeded")
              (browserKey (js "secret")) sampleIv samplePlaintext
  = Throw (failedToEncrypt (errorMessage referenceGcm KeyImportFailed)).
Proof.
  apply (@encryptData_never_returns_plaintext_under_a_key referenceGcm 1000
           (js "Maximum call stack size exceeded") (js "secret") sampleIv
           samplePlaintext eq_refl).
  vm_compute. reflexivity.
Defined.

Lemma reconcileSegment_frame t masked seg :
  segmentFrame (reconcileSegment t masked seg) = segmentFrame seg.
Proof. reflexivity. Qed.

Lemma maskWithRegex_frame t : transcriptFrame (maskWithRegex t) = transcriptFrame t.
Proof.
  unfold transcriptFrame. rewrite maskWithRegex_segments, map_map.
  reflexivity.
Qed.

Section MaskPIIFrame.
Variables promptHead promptTail : jsstring.
Variable generateContent : jsstring -> jsstring -> jsstring -> genOutcome.

Lemma attempt_frame apiKey t modelName masked :
  attempt promptHead promptTail generateContent apiKey t modelName = Some masked ->
  transcriptFrame masked = transcriptFrame t.
Proof.
  unfold attempt. destruct (generateContent _ _ _) as [msg| |r]; try discriminate.
  destruct (nonEmpty _); [|discriminate]. intros [= <-].
  unfold transcriptFrame, withTextAndSegments. cbn [id timestamp language segments].
  now rewrite map_map.
Qed.

Lemma tryModels_frame apiKey t names masked :
  tryModels promptHead promptTail generateContent apiKey t names = Some masked ->
  transcriptFrame masked = transcriptFrame t.
Proof.
  induction names as [|m names IH]; cbn [tryModels]; [discriminate|].
  destruct (attempt _ _ _ _ _ m) as [r|] eqn:E.
  - intros [= <-]. now apply attempt_frame in E.
  - exact IH.
Qed.
End MaskPIIFrame.

(** X10.  Whatever the model answers, and also on the regex fallback, a
    transcript returned by [maskPII] has the id, timestamp and language of
    the input and the same segments in the same order with their speaker
    and times: only [text] and the segment texts change. *)
Theorem maskPII_changes_texts_only
        (promptHead promptTail : jsstring)
        (generateContent : jsstring -> jsstring -> jsstring -> genOutcome)
        (env : ClientEnv) (t masked : Transcription) :
  maskPII promptHead promptTail generateContent env t = Ok masked ->
  transcriptFrame masked = transcriptFrame t.
Proof.
  unfold maskPII. destruct (getAI env) as [apiKey|e]; [|discriminate].
  destruct (tryModels _ _ _ apiKey t modelNames) as [r|] eqn:E; intros [= <-].
  - now apply tryModels_frame in E.
  - apply maskWithRegex_frame.
Qed.

Lemma maskPII_changes_texts_only_witness :
  transcriptFrame
    (maskWithRegex (sample personCodeInput [sampleSegment (js "Klientas") cardInput]))
  = transcriptFrame (sample personCodeInput [sampleSegment (js "Klientas") cardInput]).
Proof.
  apply (@maskPII_changes_texts_only (js "TEKSTAS: ") (js " .") failingGeneration
           sampleClientEnv
           (sample personCodeInput [sampleSegment (js "Klientas") cardInput])
           (maskWithRegex
              (sample personCodeInput [sampleSegment (js "Klientas") cardInput]))).
  vm_compute. reflexivity.
Defined.

(** X11.  [maskPII] throws exactly when [getAI] does, which runs before
    the [try]: where [process] is not declared (the ReferenceError), and
    where neither API_KEY nor VITE_API_KEY holds a non-empty key; in every
    other case it returns a transcript, whatever the models answer. *)
Theorem maskPII_throws_exactly_without_client
        (promptHead promptTail : jsstring)
        (generateContent : jsstring -> jsstring -> jsstring -> genOutcome)
        (env : ClientEnv) (t : Transcription) :
  if processDeclared env
  then if nonEmpty (orElse (API_KEY env) (orElse (VITE_API_KEY env) []))
       then exists masked,
              maskPII promptHead promptTail generateContent env t = Ok masked
       else maskPII promptHead promptTail generateContent env t
            = Throw apiKeyMissing
  else maskPII promptHead promptTail generateContent env t
       = Throw processNotDefined.
Proof.
  unfold maskPII, getAI. destruct (processDeclared env); cbn [negb]; cbv zeta.
  - destruct (nonEmpty (orElse (API_KEY env) (orElse (VITE_API_KEY env) []))).
    + destruct (tryModels _ _ _ _ t modelNames) as [r|]; eauto.
    + reflexivity.
  - reflexivity.
Qed.

Lemma isPrefix_app p s :
  isPrefix p s = true -> exists rest, s = p ++ rest.
Proof.
  revert s. induction p as [|a p IH]; intros s H.
  - now exists s.
  - destruct s as [|b s]; [discriminate|]. cbn in H.
    apply andb_prop in H. destruct H as [Hab H]. apply N.eqb_eq in Hab. subst b.
    destruct (IH s H) as (rest & ->). now exists rest.
Qed.

(** Where [indexOf] finds the needle, the needle is. *)
Lemma indexOf_found s needle i :
  indexOf s needle = Some i ->
  exists before rest,
    s = before ++ needle ++ rest /\ length before = i.
Proof.
  revert i. induction s as [|c s IH]; intros i H.
  - cbn in H. destruct (isPrefix needle []) eqn:E; [|discriminate].
    injection H as <-. apply isPrefix_app in E. destruct E as (rest & E).
    exists [], rest. now split.
  - cbn [indexOf] in H. destruct (isPrefix needle (c :: s)) eqn:E.
    + injection H as <-. apply isPrefix_app in E. destruct E as (rest & E).
      exists [], rest. now split.
    + destruct (indexOf s needle) as [j|] eqn:Ej; [|discriminate].
      injection H as <-. destruct (IH j eq_refl) as (before & rest & -> & <-).
      exists (c :: before), rest. now split.
Qed.

Lemma substring_middle (before mid rest : jsstring) :
  substring (before ++ mid ++ rest) (length before) (length before + length mid)
  = mid.
Proof.
  unfold substring. rewrite skipn_app, skipn_all, Nat.sub_diag. cbn [skipn app].
  replace (length before + length mid - length before) with (length mid) by lia.
  rewrite firstn_app, firstn_all, Nat.sub_diag. cbn [firstn]. apply app_nil_r.
Qed.

Lemma substring_length s from to :
  length (substring s from to) <= to - from.
Proof. unfold substring. rewrite length_firstn. lia. Qed.

Lemma withSegText_same seg : withSegText seg (seg_text seg) = seg.
Proof. now destruct seg. Qed.

(** X12.  In [maskPII], a segment whose text occurs in the transcript at offset
    [i] gets the piece of the model's answer that starts at [i] and is at
    most as long as the segment; when the answer is not longer than [i]
    the segment keeps its original, unmasked text. *)
Theorem segment_cut_at_its_offset
        (t : Transcription) (maskedText : jsstring) (seg : TranscriptionSegment)
        (i : nat) :
  indexOf (text t) (seg_text seg) = Some i ->
  length (seg_text (reconcileSegment t maskedText seg)) <= length (seg_text seg)
  /\ (length maskedText <= i ->
      reconcileSegment t maskedText seg = seg)
  /\ (i < length maskedText -> 0 < length (seg_text seg) ->
      seg_text (reconcileSegment t maskedText seg)
      = substring maskedText i
          (i + Nat.min (length (seg_text seg)) (length maskedText - i))).
Proof.
  intros Hi. destruct (indexOf_found _ _ Hi) as (before & rest & Ht & Hlen).
  unfold reconcileSegment. rewrite Hi. cbn [seg_text withSegText].
  assert (Hb : length (substring (text t) 0 i) = i).
  { unfold substring. rewrite Ht. cbn [skipn]. rewrite Nat.sub_0_r, length_firstn,
      length_app. lia. }
  rewrite Hb.
  assert (Hm : length (substring maskedText 0 (Nat.min i (length maskedText)))
               = Nat.min i (length maskedText)).
  { unfold substring. cbn [skipn]. rewrite Nat.sub_0_r, length_firstn. lia. }
  rewrite Hm. repeat split.
  - destruct (0 <? _); [|lia].
    etransitivity; [apply substring_length|]. lia.
  - intros Hshort. replace (length maskedText - Nat.min i (length maskedText)) with 0 by lia.
    rewrite Nat.min_0_r. cbn [Nat.ltb Nat.leb]. apply withSegText_same.
  - intros Hlong Hne. replace (Nat.min i (length maskedText)) with i by lia.
    assert (E : (0 <? Nat.min (length (seg_text seg)) (length maskedText - i)) = true)
      by (apply Nat.ltb_lt; lia).
    now rewrite E.
Qed.

Lemma segment_cut_at_its_offset_witness :
  length (seg_text (reconcileSegment
                      (sample (js "Jonas: labas") [sampleSegment (js "A") (js "labas")])
                      (js "[NAME]")
                      (sampleSegment (js "A") (js "labas"))))
  <= length (js "labas")
  /\ reconcileSegment
       (sample (js "Jonas: labas") [sampleSegment (js "A") (js "labas")])
       (js "[NAME]") (sampleSegment (js "A") (js "labas"))
     = sampleSegment (js "A") (js "labas").
Proof.
  destruct (@segment_cut_at_its_offset
              (sample (js "Jonas: labas") [sampleSegment (js "A") (js "labas")])
              (js "[NAME]") (sampleSegment (js "A") (js "labas")) 7 eq_refl)
    as (H1 & H2 & _).
  split; [exact H1 | apply H2; cbn; lia].
Defined.

(** X13.  When the model answers with the text unchanged, every segment whose
    text occurs in the transcript comes back as it was. *)
Theorem unchanged_answer_keeps_found_segments
        (t : Transcription) (seg : TranscriptionSegment) (i : nat) :
  indexOf (text t) (seg_text seg) = Some i ->
  reconcileSegment t (text t) seg = seg.
Proof.
  intros Hi. destruct (indexOf_found _ _ Hi) as (before & rest & Ht & Hlen).
  unfold reconcileSegment. rewrite Hi.
  assert (Hb : length (substring (text t) 0 i) = i).
  { unfold substring. rewrite Ht. cbn [skipn]. rewrite Nat.sub_0_r, length_firstn,
      length_app. lia. }
  rewrite Hb.
  assert (Hle : i + length (seg_text seg) <= length (text t)).
  { rewrite Ht, !length_app. lia. }
  assert (Hm : length (substring (text t) 0 (Nat.min i (length (text t)))) = i).
  { unfold substring. cbn [skipn]. rewrite Nat.sub_0_r, length_firstn. lia. }
  rewrite Hm.
  replace (Nat.min (length (seg_text seg)) (length (text t) - i))
    with (length (seg_text seg)) by lia.
  destruct (0 <? length (seg_text seg)); [|apply withSegText_same].
  rewrite Ht at 1. rewrite <- Hlen. rewrite substring_middle.
  apply withSegText_same.
Qed.

Lemma unchanged_answer_keeps_found_segments_witness :
  reconcileSegment
    (sample (js "Jonas: labas") [sampleSegment (js "A") (js "labas")])
    (js "Jonas: labas") (sampleSegment (js "A") (js "labas"))
  = sampleSegment (js "A") (js "labas").
Proof.
  apply (@unchanged_answer_keeps_found_segments
           (sample (js "Jonas: labas") [sampleSegment (js "A") (js "labas")])
           (sampleSegment (js "A") (js "labas")) 7).
  reflexivity.
Defined.

Lemma remove_same (V : Type) (t : table V) key : remove t key key = None.
Proof. unfold remove. now rewrite jsstring_eqb_refl. Qed.

Lemma orElse_some_nonEmpty x :
  nonEmpty (orElse x []) = true -> x = Some (orElse x []).
Proof. destruct x as [[|c s]|]; cbn; intros H; try discriminate; reflexivity. Qed.

(** X14.  A delete request of the owner of the record, or of an admin, with
    nothing else touching the table in between, is answered 200 [{ok:
    true}] and the row is gone afterwards.  With the service role key and
    an audio id, the objects of the record are looked up by the search
    text [<audio id>-] and the names found are removed in one call, as
    [audio-files/<name>]; when the listing fails or finds nothing, and
    without the key or the audio id, the bucket is left as it is.  What
    happens to the bucket never changes the answer. *)
Theorem authorized_delete_removes_record
        (getUser : jsstring -> result jsstring jsstring)
        (Storage : Type)
        (listObjects : Storage -> jsstring -> option (list jsstring))
        (removeObjects : Storage -> list jsstring -> Storage)
        (destructureMessage : jsstring)
        (env : DeleteEnv) (db : Database) (st : Storage)
        (header id_ uid : jsstring) (row : CallRecord) :
  nonEmpty header = true -> configured env = true ->
  getUser header = Ok uid -> nonEmpty id_ = true ->
  call_records db id_ = Some row ->
  ownedBy row uid || isAdminUser db uid = true ->
  serveDelete getUser listObjects removeObjects destructureMessage (fun d => d)
              env db st (deleteRequest header id_)
  = (respond 200 OkJson, withoutRecord db id_,
     if serviceKeySet env && nonEmpty (audio_id row)
     then match listObjects st (audio_id row ++ js "-") with
          | Some (f :: files) =>
              removeObjects st
                (map (fun name => js "audio-files/" ++ name) (f :: files))
          | _ => st
          end
     else st).
Proof.
  intros Hh Hc Hu Hid Hrow Hmay.
  rewrite (@delete_authenticated getUser Storage listObjects removeObjects
             destructureMessage (fun d => d) env db st
             header id_ uid Hh Hc Hu Hid).
  unfold serviceKeySet. cbv zeta.
  set (admin := if nonEmpty (orElse (SUPABASE_SERVICE_ROLE_KEY env) [])
                then ServiceRole else AsUser uid).
  assert (Hadmin : admin = ServiceRole \/ admin = AsUser uid)
    by (unfold admin;
        destruct (nonEmpty (orElse (SUPABASE_SERVICE_ROLE_KEY env) [])); auto).
  rewrite (selectRole_self db Hadmin).
  assert (Hsel : forall c, c = ServiceRole \/ c = AsUser uid ->
                           selectRecord db c id_ = Some row).
  { intros c Hcl. unfold selectRecord. rewrite Hrow.
    destruct Hcl as [-> | ->]; cbn [policyAllows]; [reflexivity|].
    now rewrite Hmay. }
  rewrite (Hsel admin Hadmin).
  assert (Hdel : forall c, c = ServiceRole \/ c = AsUser uid ->
                           deleteRecord db c id_ = ([row], withoutRecord db id_)).
  { intros c Hcl. unfold deleteRecord. now rewrite (Hsel c Hcl). }
  rewrite Hdel by (destruct (nonEmpty (orElse (SUPABASE_SERVICE_ROLE_KEY env) []));
                   auto).
  destruct (ownedBy row uid), (isAdminUser db uid); try discriminate; reflexivity.
Qed.

Lemma authorized_delete_removes_record_witness :
  sampleDelete sampleDb sampleBucket (js "Bearer c") (js "rec-1")
  = (respond 200 OkJson, withoutRecord sampleDb (js "rec-1"), [])
  /\ serveDelete sampleGetUser failingListObjects sampleRemoveObjects
                 sampleDestructureMessage (fun db => db) sampleDeleteEnv
                 sampleDb sampleBucket (deleteRequest (js "Bearer a") (js "rec-1"))
     = (respond 200 OkJson, withoutRecord sampleDb (js "rec-1"), sampleBucket).
Proof.
  split.
  - apply (@authorized_delete_removes_record sampleGetUser (list jsstring)
             sampleListObjects sampleRemoveObjects sampleDestructureMessage
             sampleDeleteEnv sampleDb sampleBucket
             (js "Bearer c") (js "rec-1") adminC sampleRecord);
      reflexivity.
  - apply (@authorized_delete_removes_record sampleGetUser (list jsstring)
             failingListObjects sampleRemoveObjects sampleDestructureMessage
             sampleDeleteEnv sampleDb sampleBucket
             (js "Bearer a") (js "rec-1") userA sampleRecord);
      reflexivity.
Defined.

(** X15.  With the service role key set, whatever other requests did in
    between, a delete answered 200 leaves no row under the requested id. *)
Theorem delete_ok_means_record_gone
        (getUser : jsstring -> result jsstring jsstring)
        (Storage : Type)
        (listObjects : Storage -> jsstring -> option (list jsstring))
        (removeObjects : Storage -> list jsstring -> Storage)
        (destructureMessage : jsstring)
        (meanwhile : Database -> Database)
        (env : DeleteEnv) (db : Database) (st : Storage) (req : Request) :
  serviceKeySet env = true ->
  resp_status (fst (fst (serveDelete getUser listObjects removeObjects destructureMessage meanwhile env db st req)))
  = 200 ->
  exists id_,
    req_recordId req = Some id_
    /\ call_records
         (snd (fst (serveDelete getUser listObjects removeObjects destructureMessage meanwhile env db st req))) id_
       = None.
Proof.
  unfold serviceKeySet. intros Hk.
  unfold serveDelete. rewrite Hk. cbn [andb].
  destruct (req_method req); try (cbn; discriminate).
  destruct (negb (nonEmpty (orElse (req_authorization req) []))); [cbn; discriminate|].
  destruct (_ || _); [cbn; discriminate|].
  destruct (getUser _) as [uid|msg]; [|cbn; discriminate].
  destruct (req_bodyNull req); [cbn; discriminate|].
  destruct (nonEmpty (orElse (req_recordId req) [])) eqn:Hid; cbn [negb];
    [|cbn; discriminate].
  apply orElse_some_nonEmpty in Hid.
  set (id_ := orElse (req_recordId req) []) in *.
  destruct (selectRecord db ServiceRole id_) as [record|]; [|cbn; discriminate].
  destruct (negb (ownedBy record uid) && _); [cbn; discriminate|].
  unfold deleteRecord, selectRecord. cbn [policyAllows].
  destruct (call_records (meanwhile db) id_) as [row|] eqn:Hrow; cbn [fst snd].
  - intros _. exists id_. split; [exact Hid|]. apply remove_same.
  - rewrite Hrow. cbn [fst snd]. intros _. exists id_. now split.
Qed.

Lemma delete_ok_means_record_gone_witness :
  exists id_,
    req_recordId (deleteRequest (js "Bearer a") (js "rec-1")) = Some id_
    /\ call_records
         (snd (fst (sampleDelete sampleDb sampleBucket (js "Bearer a") (js "rec-1"))))
         id_ = None.
Proof.
  apply (@delete_ok_means_record_gone sampleGetUser (list jsstring) sampleListObjects sampleRemoveObjects
           sampleDestructureMessage
           (fun db => db) sampleDeleteEnv sampleDb sampleBucket
           (deleteRequest (js "Bearer a") (js "rec-1"))).
  - reflexivity.
  - vm_compute. reflexivity.
Defined.

(** X16.  A delete request changes the tables or the bucket only when it is
    answered 200 or 500, and it never removes audio objects without the
    service role key. *)
Theorem delete_changes_only_what_it_reports
        (getUser : jsstring -> result jsstring jsstring)
        (Storage : Type)
        (listObjects : Storage -> jsstring -> option (list jsstring))
        (removeObjects : Storage -> list jsstring -> Storage)
        (destructureMessage : jsstring)
        (meanwhile : Database -> Database)
        (env : DeleteEnv) (db : Database) (st : Storage) (req : Request) :
  (resp_status (fst (fst (serveDelete getUser listObjects removeObjects destructureMessage meanwhile env db st req)))
   <> 200 ->
   resp_status (fst (fst (serveDelete getUser listObjects removeObjects destructureMessage meanwhile env db st req)))
   <> 500 ->
   snd (fst (serveDelete getUser listObjects removeObjects destructureMessage meanwhile env db st req)) = db
   /\ snd (serveDelete getUser listObjects removeObjects destructureMessage meanwhile env db st req) = st)
  /\ (serviceKeySet env = false ->
      snd (serveDelete getUser listObjects removeObjects destructureMessage meanwhile env db st req) = st).
Proof.
  split.
  - unfold serveDelete. intros H200 H500.
    destruct (req_method req); try (split; reflexivity).
    destruct (negb (nonEmpty (orElse (req_authorization req) [])));
      [split; reflexivity|].
    destruct (_ || _); [split; reflexivity|].
    destruct (getUser _) as [uid|msg]; [|split; reflexivity].
    destruct (req_bodyNull req); [split; reflexivity|].
    destruct (negb (nonEmpty (orElse (req_recordId req) []))); [split; reflexivity|].
    destruct (selectRecord db _ _) as [record|]; [|split; reflexivity].
    destruct (negb (ownedBy record uid) && _); [split; reflexivity|].
    exfalso.
    destruct (fst (deleteRecord _ _ _)).
    + destruct (selectRecord _ _ _); cbn in H200, H500; congruence.
    + cbn in H200. congruence.
  - unfold serviceKeySet. intros Hk. unfold serveDelete. rewrite Hk. cbn [andb].
    destruct (req_method req); try reflexivity.
    destruct (negb (nonEmpty (orElse (req_authorization req) []))); [reflexivity|].
    destruct (_ || _); [reflexivity|].
    destruct (getUser _) as [uid|msg]; [|reflexivity].
    destruct (req_bodyNull req); [reflexivity|].
    destruct (negb (nonEmpty (orElse (req_recordId req) []))); [reflexivity|].
    destruct (selectRecord db _ _) as [record|]; [|reflexivity].
    destruct (negb (ownedBy record uid) && _); [reflexivity|].
    destruct (fst (deleteRecord _ _ _)); [|reflexivity].
    destruct (selectRecord _ _ _); reflexivity.
Qed.

(** X17.  When ENCRYPTION_KEY is missing, empty, or parses to a key that is not
    16, 24 or 32 bytes long, [encryptForStorage] returns its argument and
    the upload stores the transcript as a plain object, without any error. *)
Theorem unusable_key_stores_plaintext
        (aes : AesGcm) (stringifyTranscription : Transcription -> jsstring)
        (env : EdgeEnv) (iv : bytes) (raw : Transcription) :
  usableKey env = false ->
  encryptForStorage aes env iv (stringifyTranscription raw)
  = stringifyTranscription raw
  /\ upd_transcription (snd (storeTranscription aes stringifyTranscription env iv raw))
     = Plain raw.
Proof.
  intros Hk. rewrite encryptForStorage_cases, Hk. split; [reflexivity|].
  unfold storeTranscription. cbn [snd upd_transcription].
  rewrite withTextAndSegments_same, encryptForStorage_cases, Hk.
  now rewrite jsstring_eqb_refl.
Qed.

Lemma unusable_key_stores_plaintext_witness :
  encryptForStorage referenceGcm (withKey (js "not a hex key")) sampleIv
                    (sampleStringify rawWithPersonCode)
  = sampleStringify rawWithPersonCode
  /\ upd_transcription
       (snd (storeTranscription referenceGcm sampleStringify
               (withKey (js "not a hex key")) sampleIv rawWithPersonCode))
     = Plain rawWithPersonCode.
Proof.
  apply (@unusable_key_stores_plaintext referenceGcm sampleStringify
           (withKey (js "not a hex key")) sampleIv rawWithPersonCode).
  vm_compute. reflexivity.
Defined.

(** X18.  What the upload stored is what the transcription function returns:
    with the same ENCRYPTION_KEY setting on both sides, usable or not, a
    GET or POST by the owner or an admin is answered 200 with the raw
    transcript that was uploaded. *)
Theorem uploaded_transcript_reads_back
        (aes : AesGcm) (stringifyTranscription : Transcription -> jsstring)
        (getUser : jsstring -> result jsstring jsstring)
        (parseTranscription : jsstring -> parsedDocument)
        (generateMissing :
           Database -> jsstring -> CallRecord
           -> result jsstring Transcription * Database)
        (env : EdgeEnv) (iv : bytes) (raw : Transcription)
        (db : Database) (m : method) (header recordId uid : jsstring)
        (row : CallRecord) :
  length iv = 12 ->
  wellFormed (stringifyTranscription raw) = true ->
  startsWithBOM (stringifyTranscription raw) = false ->
  parseTranscription (stringifyTranscription raw) = ParsedObject raw ->
  m = GET \/ m = POST ->
  nonEmpty header = true -> getUser header = Ok uid ->
  validRecordId recordId = true ->
  call_records db recordId = Some row ->
  ownedBy row uid || isAdminUser db uid = true ->
  transcription row
  = Some (upd_transcription
            (snd (storeTranscription aes stringifyTranscription env iv raw))) ->
  fst (serveTranscription aes getUser parseTranscription generateMissing env db
         (readRequest m header recordId))
  = respond 200 (TranscriptionJson (Some raw)).
Proof.
  intros Hiv Hw Hb Hparse Hm Hh Hu Hid Hrow Hmay Hstored.
  rewrite (@serve_authenticated aes getUser parseTranscription generateMissing
             env db m header recordId uid Hm Hh Hu Hid).
  unfold selectRecord. rewrite Hrow. cbn [policyAllows]. rewrite Hmay, Hstored.
  unfold storeTranscription. cbn [snd upd_transcription].
  rewrite withTextAndSegments_same.
  destruct (negb (jsstring_eqb _ _)) eqn:Hdiff; [|reflexivity].
  cbv zeta. fold (configuredKey env).
  destruct (usableKey env) eqn:Hk.
  - pose proof (decrypt_encrypt_usable aes env iv (stringifyTranscription raw) Hk Hiv)
      as Hdec.
    rewrite Hdec, (textDecode_textEncode _ Hw Hb), Hparse.
    rewrite encryptForStorage_cases, Hk.
    unfold usableKey in Hk. apply andb_prop in Hk. destruct Hk as [Hne _].
    rewrite Hne. destruct iv as [|b iv']; [discriminate Hiv|].
    cbn [app]. now rewrite encodeBase64_nonEmpty.
  - rewrite encryptForStorage_cases, Hk in Hdiff.
    now rewrite jsstring_eqb_refl in Hdiff.
Qed.

Lemma uploaded_transcript_reads_back_witness :
  fst (serveTranscription referenceGcm sampleGetUser sampleParse noGeneration
         (withKey sampleKey) uploadedDb (readRequest GET (js "Bearer a") (js "rec-2")))
  = respond 200 (TranscriptionJson (Some rawWithPersonCode)).
Proof.
  apply (@uploaded_transcript_reads_back referenceGcm sampleStringify sampleGetUser
           sampleParse noGeneration (withKey sampleKey) sampleIv rawWithPersonCode
           uploadedDb GET (js "Bearer a") (js "rec-2") userA uploadedRecord).
  - reflexivity.
  - vm_compute. reflexivity.
  - reflexivity.
  - vm_compute. reflexivity.
  - left. reflexivity.
  - reflexivity.
  - reflexivity.
  - reflexivity.
  - reflexivity.
  - reflexivity.
  - reflexivity.
Defined.

(** Without ENCRYPTION_KEY on the read side an encrypted record is not an
    error: the owner is answered 200 with the fields of the envelope, that
    is with no id, text, language or timestamp and no segments. *)
Theorem envelope_without_key_is_answered_empty
        (aes : AesGcm) (getUser : jsstring -> result jsstring jsstring)
        (parseTranscription : jsstring -> parsedDocument)
        (generateMissing :
           Database -> jsstring -> CallRecord
           -> result jsstring Transcription * Database)
        (env : EdgeEnv) (db : Database) (m : method)
        (header recordId uid data : jsstring) (row : CallRecord) :
  m = GET \/ m = POST ->
  nonEmpty header = true -> getUser header = Ok uid ->
  validRecordId recordId = true ->
  call_records db recordId = Some row ->
  ownedBy row uid || isAdminUser db uid = true ->
  transcription row = Some (Envelope data) ->
  nonEmpty (configuredKey env) = false ->
  serveTranscription aes getUser parseTranscription generateMissing env db
    (readRequest m header recordId)
  = (respond 200 (TranscriptionJson None), db).
Proof.
  intros Hm Hh Hu Hid Hrow Hmay Ht Hk.
  rewrite (@serve_authenticated aes getUser parseTranscription generateMissing
             env db m header recordId uid Hm Hh Hu Hid).
  unfold selectRecord. rewrite Hrow. cbn [policyAllows]. rewrite Hmay, Ht.
  cbv zeta. fold (configuredKey env). rewrite Hk.
  now rewrite andb_false_r.
Qed.

Lemma envelope_without_key_is_answered_empty_witness :
  serveTranscription referenceGcm sampleGetUser sampleParse noGeneration
    withoutKey uploadedDb (readRequest GET (js "Bearer a") (js "rec-2"))
  = (respond 200 (TranscriptionJson None), uploadedDb).
Proof.
  apply (@envelope_without_key_is_answered_empty referenceGcm sampleGetUser
           sampleParse noGeneration withoutKey uploadedDb GET
           (js "Bearer a") (js "rec-2") userA
           (encryptForStorage referenceGcm (withKey sampleKey) sampleIv
              (sampleStringify rawWithPersonCode))
           uploadedRecord).
  - left. reflexivity.
  - reflexivity.
  - reflexivity.
  - reflexivity.
  - reflexivity.
  - reflexivity.
  - vm_compute. reflexivity.
  - reflexivity.
Defined.

(** X19.  [decryptFromStorage] of the analysis function calls the cipher only
    under a usable key and on an envelope that splits into a 12-byte nonce
    and at least one byte of ciphertext. *)
Theorem decryptFromStorage_calls_cipher_on_full_envelopes_only
        (aes : AesGcm) (env : EdgeEnv) (data : jsstring) (iv ciphertext : bytes) :
  In (SubtleDecrypt iv ciphertext) (fst (decryptFromStorage aes env data)) ->
  length iv = 12 /\ 1 <= length ciphertext
  /\ decodeBase64 data = Some (iv ++ ciphertext)
  /\ usableKey env = true.
Proof.
  unfold decryptFromStorage, usableKey, configuredKey.
  destruct (nonEmpty data); cbn [negb fst In]; [|tauto].
  destruct (ENCRYPTION_KEY env) as [[|c k]|]; cbn [negb nonEmpty orElse andb fst In];
    try tauto.
  destruct (validKeyLength (keyBuffer (c :: k))); cbn [fst In];
    [|intros [H|[]]; discriminate H].
  destruct (decodeBase64 data) as [combined|]; cbn [fst In];
    [|intros [H|[]]; discriminate H].
  destruct (length combined <? 13) eqn:E; cbn [fst In];
    [intros [H|[]]; discriminate H|].
  apply Nat.ltb_ge in E.
  intros [H|[H|[]]]; [discriminate H|].
  assert (Hiv : iv = firstn 12 combined) by congruence.
  assert (Hc : ciphertext = skipn 12 combined) by congruence. subst iv ciphertext.
  rewrite length_firstn, length_skipn, firstn_skipn. repeat split; lia.
Qed.

Lemma decryptFromStorage_calls_cipher_on_full_envelopes_only_witness :
  length sampleIv = 12
  /\ 1 <= length (gcmEncrypt referenceGcm (keyBuffer sampleKey) sampleIv
                             (textEncode (js "{}")))
  /\ decodeBase64 (encryptForStorage referenceGcm (withKey sampleKey) sampleIv (js "{}"))
     = Some (sampleIv ++ gcmEncrypt referenceGcm (keyBuffer sampleKey) sampleIv
                                    (textEncode (js "{}")))
  /\ usableKey (withKey sampleKey) = true.
Proof.
  apply (@decryptFromStorage_calls_cipher_on_full_envelopes_only referenceGcm
           (withKey sampleKey)
           (encryptForStorage referenceGcm (withKey sampleKey) sampleIv (js "{}"))).
  vm_compute. right. left. reflexivity.
Defined.

(** X20.  Under a usable key, [decryptFromStorage] of the analysis function
    decodes what [encryptForStorage] of the upload produced back to the
    text, for a well-formed text that does not start with U+FEFF. *)
Theorem analysis_reads_what_upload_encrypted
        (aes : AesGcm) (env : EdgeEnv) (iv : bytes) (P : jsstring) :
  usableKey env = true -> length iv = 12 ->
  wellFormed P = true -> startsWithBOM P = false ->
  snd (decryptFromStorage aes env (encryptForStorage aes env iv P))
  = Ok (ParsedFrom P).
Proof.
  intros Hk Hiv Hw Hb. rewrite encryptForStorage_cases, Hk.
  unfold usableKey, configuredKey in *. unfold decryptFromStorage.
  destruct iv as [|b0 iv0] eqn:Eiv; [discriminate|].
  rewrite <- app_comm_cons, encodeBase64_nonEmpty, app_comm_cons.
  rewrite <- Eiv in *. clear Eiv. cbn [negb].
  destruct (ENCRYPTION_KEY env) as [[|c k]|]; cbn [orElse nonEmpty negb andb] in *;
    try discriminate.
  rewrite Hk, decodeBase64_encodeBase64.
  assert (Hlen : (length (iv ++ gcmEncrypt aes (keyBuffer (c :: k)) iv (textEncode P))
                  <? 13) = false).
  { apply Nat.ltb_ge. rewrite length_app, Hiv.
    destruct (gcmEncrypt aes (keyBuffer (c :: k)) iv (textEncode P)) as [|x l] eqn:E;
      [|cbn; lia].
    exfalso. pose proof (gcm_roundtrip aes (keyBuffer (c :: k)) iv (textEncode P) Hk Hiv)
      as Hr.
    rewrite E, gcm_tag in Hr by (cbn; lia). discriminate. }
  rewrite Hlen.
  destruct (firstn_skipn_envelope iv
              (gcmEncrypt aes (keyBuffer (c :: k)) iv (textEncode P)) Hiv) as [-> ->].
  cbn [snd]. rewrite gcm_roundtrip by assumption.
  now rewrite textDecode_textEncode.
Qed.

Lemma analysis_reads_what_upload_encrypted_witness :
  snd (decryptFromStorage referenceGcm (withKey sampleKey)
         (encryptForStorage referenceGcm (withKey sampleKey) sampleIv samplePlaintext))
  = Ok (ParsedFrom samplePlaintext).
Proof.
  apply (@analysis_reads_what_upload_encrypted referenceGcm (withKey sampleKey)
           sampleIv samplePlaintext).
  - vm_compute. reflexivity.
  - reflexivity.
  - vm_compute. reflexivity.
  - reflexivity.
Defined.

Lemma unsafe_scan_safe (n : nat) :
  forall s prev, length s <= n ->
    forallb isFileNameChar (replace_from reUnsafeName (fun _ => js "_") prev s 0) = true.
Proof.
  induction n as [|n IH]; intros s prev Hn;
    destruct (@replace_from_step reUnsafeName (js "_") prev s eq_refl)
      as [[E0 E1]|(M & s' & Hs & HMne & HM & Hex & E1)]; rewrite E1.
  - destruct s; [reflexivity | cbn in Hn; lia].
  - subst s. destruct M; [contradiction | cbn in Hn; lia].
  - destruct s as [|c s1]; [reflexivity|]. cbn [forallb].
    rewrite IH by (cbn in Hn; lia). rewrite andb_true_r.
    destruct (isFileNameChar c) eqn:Hc; [reflexivity|]. exfalso.
    apply (@exec_complete reUnsafeName prev [c] s1 eq_refl); [|exact E0].
    apply rep_char_intro; [|cbn; lia|exact I].
    constructor; [|constructor]. now rewrite Hc.
  - cbn [js app forallb]. apply IH. subst s. rewrite length_app in Hn.
    destruct M; [contradiction | cbn in Hn; lia].
Qed.

Lemma unsafe_scan_nonEmpty s prev :
  nonEmpty s = true ->
  nonEmpty (replace_from reUnsafeName (fun _ => js "_") prev s 0) = true.
Proof.
  intros Hs.
  destruct (@replace_from_step reUnsafeName (js "_") prev s eq_refl)
    as [[E0 E1]|(M & s' & _ & _ & _ & _ & E1)]; rewrite E1.
  - destruct s; [discriminate | reflexivity].
  - reflexivity.
Qed.

Lemma forallb_firstn (A : Type) (p : A -> bool) n l :
  forallb p l = true -> forallb p (firstn n l) = true.
Proof.
  revert l. induction n as [|n IH]; intros [|x l]; cbn; auto.
  intros H. apply andb_prop in H. destruct H as [-> H]. now apply IH.
Qed.

Lemma orElse_default_nonEmpty x d : nonEmpty d = true -> nonEmpty (orElse x d) = true.
Proof. intros Hd. destruct x as [[|c s]|]; cbn; auto. Qed.

(** X21.  The name the transcription function builds the storage path from is
    never empty, has at most 120 code units and consists of ASCII letters,
    digits, [_], [.] and [-] only, whatever the stored file name: no slash
    or other separator gets into the path. *)
Theorem safeName_is_a_plain_file_name (file_name : option jsstring) :
  forallb isFileNameChar (safeName file_name) = true
  /\ nonEmpty (safeName file_name) = true
  /\ length (safeName file_name) <= 120.
Proof.
  unfold safeName, replaceAll, replaceAllWith. repeat split.
  - apply forallb_firstn. now apply unsafe_scan_safe with (n := length (orElse file_name (js "audio"))).
  - pose proof (@unsafe_scan_nonEmpty (orElse file_name (js "audio")) None
                  (orElse_default_nonEmpty file_name (js "audio") eq_refl)) as H.
    destruct (replace_from _ _ _ _ _); [discriminate H | reflexivity].
  - rewrite length_firstn. lia.
Qed.

Lemma reUnsafeName_needs :
  needs (fun c => negb (isFileNameChar c)) reUnsafeName.
Proof. unfold reUnsafeName, plus. apply needs_rep_unbounded. now apply needs_char. Qed.

(** A non-empty name of permitted characters is kept, up to its first
    120 code units. *)
Theorem plain_file_name_is_kept (name : jsstring) :
  nonEmpty name = true -> forallb isFileNameChar name = true ->
  safeName (Some name) = firstn 120 name.
Proof.
  intros Hne Hs. unfold safeName, replaceAll. cbn [orElse]. rewrite Hne. f_equal.
  apply replaceAllWith_lacks with (D := fun c => negb (isFileNameChar c)).
  - exact reUnsafeName_needs.
  - unfold lacks. rewrite forallb_forall in Hs. apply Forall_forall.
    intros c Hc. now rewrite (Hs c Hc).
Qed.

Lemma plain_file_name_is_kept_witness :
  safeName (Some (js "call-2024_01.mp3")) = firstn 120 (js "call-2024_01.mp3").
Proof.
  apply (plain_file_name_is_kept (js "call-2024_01.mp3")); reflexivity.
Defined.

(** X22.  [backoffMs] stays between 1000 and 10000 ms, never decreases from
    one attempt to a later one whatever the jitter, is 10000 from the
    fifth attempt on, and is 1000 * 2^attempt plus the jitter before. *)
Theorem backoff_is_bounded_and_grows (jitter jitter' : Z) (attempt later : nat) :
  (0 <= jitter < 250)%Z -> (0 <= jitter' < 250)%Z -> attempt < later ->
  (1000 <= backoffMs jitter attempt <= 10000)%Z
  /\ (backoffMs jitter attempt <= backoffMs jitter' later)%Z
  /\ (4 <= attempt -> backoffMs jitter attempt = 10000%Z)
  /\ (attempt <= 3 ->
      backoffMs jitter attempt = (1000 * 2 ^ Z.of_nat attempt + jitter)%Z).
Proof.
  intros Hj Hj' Hlt. unfold backoffMs. cbv zeta.
  assert (H1 : (0 < 2 ^ Z.of_nat attempt)%Z) by (apply Z.pow_pos_nonneg; lia).
  assert (H2 : (2 * 2 ^ Z.of_nat attempt <= 2 ^ Z.of_nat later)%Z).
  { rewrite <- Z.pow_succ_r by lia. apply Z.pow_le_mono_r; lia. }
  repeat split; try lia.
  - intros H4.
    assert (H16 : (2 ^ 4 <= 2 ^ Z.of_nat attempt)%Z) by (apply Z.pow_le_mono_r; lia).
    change (2 ^ 4)%Z with 16%Z in H16. lia.
  - intros H3.
    assert (H8 : (2 ^ Z.of_nat attempt <= 2 ^ 3)%Z) by (apply Z.pow_le_mono_r; lia).
    change (2 ^ 3)%Z with 8%Z in H8. lia.
Qed.

Lemma backoff_is_bounded_and_grows_witness :
  (1000 <= backoffMs 249 0 <= 10000)%Z
  /\ (backoffMs 249 0 <= backoffMs 0 1)%Z
  /\ (4 <= 0 -> backoffMs 249 0 = 10000%Z)
  /\ (0 <= 3 -> backoffMs 249 0 = (1000 * 2 ^ Z.of_nat 0 + 249)%Z).
Proof.
  apply (@backoff_is_bounded_and_grows 249 0 0 1); lia.
Defined.

(** The full payload is sent only when its JSON text is not empty and
    has at most 250000 code units. *)
Theorem full_response_is_bounded
        (stringifyPayload : jsstring -> Transcription -> AnalysisResult -> option jsstring)
        (recordId recordId' : jsstring) (t t' : Transcription) (a a' : AnalysisResult) :
  safeJsonResponse stringifyPayload recordId t a = FullPayload recordId' t' a' ->
  (recordId', t', a') = (recordId, t, a)
  /\ exists fullJson,
       stringifyPayload recordId t a = Some fullJson
       /\ 0 < length fullJson /\ (N.of_nat (length fullJson) <= 250000)%N.
Proof.
  unfold safeJsonResponse. destruct (stringifyPayload recordId t a) as [json|];
    [|discriminate].
  destruct json as [|c json]; cbn [nonEmpty negb]; [discriminate|].
  destruct (250000 <? _)%N eqn:E; [discriminate|].
  intros [= <- <- <-]. split; [reflexivity|]. exists (c :: json).
  repeat split; [cbn; lia|]. now apply N.ltb_ge in E.
Qed.

Section GreedyRun.
Variable A : Type.
Variable P : N -> bool.
Variable k : cont A.
Hypothesis k_total : forall p s, k p s <> None.

(** On a run of [P] followed by something else, a quantifier over [P]
    with no upper bound takes the whole run. *)
Lemma repeat_char_greedy run rest :
  Forall (fun c => P c = true) run ->
  match rest with c :: _ => P c = false | [] => True end ->
  forall fuel lo prev, length (run ++ rest) < fuel ->
    repeat_match (rmatch (Char P)) fuel lo None prev (run ++ rest) k
    = if lo <=? length run then k (lastOr prev run) rest else None.
Proof.
  intros Hrun Hrest. induction Hrun as [|c run Hc _ IH]; intros fuel lo prev Hf.
  - cbn [app length lastOr] in *. destruct fuel as [|f]; [lia|].
    cbn [repeat_match option_map].
    assert (E : forall k', rmatch (Char P) prev rest k' = @None A).
    { intros k'. destruct rest as [|x r]; [reflexivity|]. cbn. now rewrite Hrest. }
    destruct lo as [|lo]; rewrite E; reflexivity.
  - cbn [app length] in *. destruct fuel as [|f]; [lia|].
    cbn [repeat_match option_map rmatch]. rewrite Hc.
    destruct lo as [|lo].
    + assert (L : (length (run ++ rest) <? S (length (run ++ rest))) = true)
        by (apply Nat.ltb_lt; lia).
      cbn [length]. rewrite L, IH by lia. cbn [Nat.leb lastOr].
      destruct (k (lastOr (Some c) run) rest) eqn:E; [reflexivity|].
      now apply k_total in E.
    + rewrite IH by lia. reflexivity.
Qed.
End GreedyRun.

Lemma exec_spaces prev run rest :
  Forall (fun c => isSpace c = true) run ->
  match rest with c :: _ => isSpace c = false | [] => True end ->
  exec reSpaces prev (run ++ rest)
  = if 2 <=? length run then Some (length run) else None.
Proof.
  intros Hrun Hrest. unfold exec, reSpaces, space. cbn [rmatch].
  assert (Ht : forall (p : option N) (s0 : jsstring),
             (fun (_ : option N) (rest0 : jsstring) =>
                Some (length (run ++ rest) - length rest0)) p s0 <> None)
    by (intros; discriminate).
  rewrite (@repeat_char_greedy nat isSpace _ Ht run rest Hrun Hrest) by lia.
  destruct (2 <=? length run); [|reflexivity].
  f_equal. rewrite length_app. lia.
Qed.

Lemma span_spaces s :
  exists run rest, s = run ++ rest /\ Forall (fun c => isSpace c = true) run
    /\ match rest with c :: _ => isSpace c = false | [] => True end.
Proof.
  induction s as [|c s (run & rest & -> & Hrun & Hrest)].
  - exists [], []. repeat split; constructor.
  - destruct (isSpace c) eqn:Hc.
    + exists (c :: run), rest. repeat split; [now constructor | exact Hrest].
    + exists [], (c :: run ++ rest). repeat split; [constructor | exact Hc].
Qed.

Lemma noDoubleSpace_tail a s : noDoubleSpace (a :: s) = true -> noDoubleSpace s = true.
Proof. cbn. intros H. apply andb_prop in H. tauto. Qed.

Lemma noDoubleSpace_cons a s :
  noDoubleSpace (a :: s)
  = negb (isSpace a && isSpaceOpt (hd_error s)) && noDoubleSpace s.
Proof. reflexivity. Qed.

Lemma collapse_spaces (n : nat) :
  forall s prev, length s <= n ->
    noDoubleSpace (replace_from reSpaces (fun _ => js " ") prev s 0) = true
    /\ (isSpaceOpt (hd_error (replace_from reSpaces (fun _ => js " ") prev s 0)) = true ->
        isSpaceOpt (hd_error s) = true).
Proof.
  induction n as [|n IH]; intros s prev Hn.
  - destruct s; [|cbn in Hn; lia]. cbn. split; [reflexivity | discriminate].
  - destruct (span_spaces s) as (run & rest & -> & Hrun & Hrest).
    pose proof (@exec_spaces prev run rest Hrun Hrest) as Hexec.
    assert (Hhead : isSpaceOpt (hd_error rest) = false).
    { destruct rest; [reflexivity | exact Hrest]. }
    destruct run as [|c [|c2 run]].
    + cbn [app length Nat.leb] in *. destruct rest as [|x rest].
      * cbn. split; [reflexivity | discriminate].
      * cbn [replace_from]. rewrite Hexec.
        destruct (IH rest (Some x)) as [Hnd Hh]; [cbn in Hn; lia|].
        split; [|cbn; congruence].
        cbn [noDoubleSpace]. rewrite Hnd. cbn in Hhead. now rewrite Hhead.
    + cbn [app length Nat.leb] in *. cbn [replace_from]. rewrite Hexec.
      destruct (IH rest (Some c)) as [Hnd Hh]; [cbn in Hn; lia|].
      split; [|cbn; now inversion Hrun].
      cbn [noDoubleSpace]. rewrite Hnd.
      destruct (isSpaceOpt (hd_error (replace_from _ _ _ rest 0))) eqn:E.
      * rewrite (Hh eq_refl) in Hhead. discriminate.
      * now rewrite andb_false_r.
    + cbn [app length] in *.
      assert (E2 : (2 <=? S (S (length run))) = true) by reflexivity.
      rewrite E2 in Hexec. cbn [replace_from]. rewrite Hexec.
      rewrite replace_from_skip by (cbn; rewrite length_app; lia).
      cbn [firstn skipn lastOr]. rewrite skipn_app, skipn_all, Nat.sub_diag.
      cbn [skipn app].
      set (p' := lastOr (Some c2) (firstn (length run) (run ++ rest))).
      destruct (IH rest p') as [Hnd Hh]; [rewrite length_app in Hn; cbn in Hn; lia|].
      split; [|intros _; cbn; now inversion Hrun].
      change (noDoubleSpace
                (32%N :: replace_from reSpaces (fun _ => js " ") p' rest 0) = true).
      rewrite noDoubleSpace_cons, Hnd.
      destruct (isSpaceOpt (hd_error (replace_from _ _ _ rest 0))) eqn:E.
      * rewrite (Hh eq_refl) in Hhead. discriminate.
      * now rewrite andb_false_r.
Qed.

Lemma dropWhile_suffix p s :
  exists pre, s = pre ++ dropWhile p s.
Proof.
  induction s as [|c s (pre & E)]; [now exists []|]. cbn [dropWhile].
  destruct (p c); [|now exists []]. exists (c :: pre). cbn. now f_equal.
Qed.

Lemma dropWhile_head p s :
  match dropWhile p s with c :: _ => p c = false | [] => True end.
Proof.
  induction s as [|c s IH]; [exact I|]. cbn [dropWhile].
  destruct (p c) eqn:E; [exact IH | exact E].
Qed.

Lemma dropWhile_fixed p s :
  match s with c :: _ => p c = false | [] => True end -> dropWhile p s = s.
Proof. destruct s as [|c s]; [reflexivity|]. cbn. now intros ->. Qed.

Lemma noDoubleSpace_suffix pre s :
  noDoubleSpace (pre ++ s) = true -> noDoubleSpace s = true.
Proof.
  induction pre as [|a pre IH]; [auto|]. cbn [app]. intros H.
  apply IH. now apply noDoubleSpace_tail in H.
Qed.

Lemma noDoubleSpace_prefix s suf :
  noDoubleSpace (s ++ suf) = true -> noDoubleSpace s = true.
Proof.
  induction s as [|a s IH]; [reflexivity|]. cbn [app noDoubleSpace]. intros H.
  apply andb_prop in H. destruct H as [H1 H2]. rewrite (IH H2), andb_true_r.
  destruct s as [|b s]; [now rewrite andb_false_r | exact H1].
Qed.

(** [trim] returns a part of its argument that it leaves unchanged. *)
Lemma trim_shape s :
  exists pre suf, s = pre ++ trim s ++ suf /\ trim (trim s) = trim s.
Proof.
  unfold trim. destruct (dropWhile_suffix isSpace s) as (pre & Epre).
  set (x1 := dropWhile isSpace s) in *.
  destruct (dropWhile_suffix isSpace (rev x1)) as (suf' & Esuf).
  set (z := dropWhile isSpace (rev x1)) in *.
  exists pre, (rev suf'). split.
  - rewrite Epre at 1. f_equal. rewrite <- rev_app_distr, <- Esuf.
    now rewrite rev_involutive.
  - assert (Hz : dropWhile isSpace z = z)
      by (apply dropWhile_fixed, dropWhile_head).
    assert (Hy : dropWhile isSpace (rev z) = rev z).
    { apply dropWhile_fixed.
      pose proof (dropWhile_head isSpace s) as Hx1. fold x1 in Hx1.
      destruct x1 as [|c w]; [subst z; exact I|].
      assert (Ez : z = dropWhile isSpace (rev w) ++ [c]).
      { subst z. cbn [rev]. clear -Hx1.
        induction (rev w) as [|a l IHl]; cbn; [now rewrite Hx1|].
        destruct (isSpace a); [exact IHl | reflexivity]. }
      rewrite Ez, rev_app_distr. exact Hx1. }
    rewrite Hy, rev_involutive, Hz. reflexivity.
Qed.

(** X23.  A summary returned by [redactSensitiveSummary] has no two white-space
    characters in a row and no white space at either end ([trim] leaves it
    unchanged), whatever the replacements before did. *)
Theorem redacted_summary_is_trimmed_and_single_spaced (text_ : jsstring) :
  noDoubleSpace (redactSensitiveSummary text_) = true
  /\ trim (redactSensitiveSummary text_) = redactSensitiveSummary text_.
Proof.
  unfold redactSensitiveSummary. destruct text_ as [|c t]; [split; reflexivity|].
  cbn [nonEmpty negb]. cbv zeta.
  set (out := replaceAll reSummaryName _ _).
  destruct (trim_shape (replaceAll reSpaces (js " ") out)) as (pre & suf & E & Ht).
  split; [|exact Ht].
  destruct (@collapse_spaces (length out) out None (le_n _)) as [Hnd _].
  unfold replaceAll, replaceAllWith in *. rewrite E in Hnd.
  apply noDoubleSpace_suffix in Hnd. now apply noDoubleSpace_prefix in Hnd.
Qed.

Lemma hasDigitRun_factor n s :
  hasDigitRun n s = true ->
  exists a d rest, s = a ++ d ++ rest
    /\ Forall (fun c => isDigit c = true) d /\ n <= length d.
Proof.
  induction s as [|c s IH]; cbn [hasDigitRun]; intros H;
    apply orb_prop in H; destruct H as [H|H]; try discriminate.
  - apply andb_prop in H. destruct H as [Hn Hd]. apply Nat.leb_le in Hn.
    exists [], (firstn n []), []. repeat split.
    + now destruct n.
    + apply Forall_forall. rewrite forallb_forall in Hd. exact Hd.
    + rewrite length_firstn. lia.
  - apply andb_prop in H. destruct H as [Hn Hd]. apply Nat.leb_le in Hn.
    exists [], (firstn n (c :: s)), (skipn n (c :: s)). repeat split.
    + cbn [app]. now rewrite firstn_skipn.
    + apply Forall_forall. rewrite forallb_forall in Hd. exact Hd.
    + rewrite length_firstn. lia.
  - destruct (IH H) as (a & d & rest & -> & Hd & Hn).
    exists (c :: a), d, rest. now repeat split.
Qed.

(** X25.  No run of six or more decimal digits survives [maskWithRegex],
    neither in the text nor in a segment: the first phone rule replaces
    every such run, and no later rule brings digits in. *)
Theorem no_six_digits_survive_masking (t : Transcription) :
  hasDigitRun 6 (text (maskWithRegex t)) = false
  /\ forallb (fun seg => negb (hasDigitRun 6 (seg_text seg)))
             (segments (maskWithRegex t)) = true.
Proof.
  assert (H : forall s, hasDigitRun 6 (maskSegmentText s) = false).
  { intros s. destruct (hasDigitRun 6 (maskSegmentText s)) eqn:E; [|reflexivity].
    exfalso. apply hasDigitRun_factor in E.
    destruct E as (a & d & rest & E & Hd & Hn).
    destruct (six_digits Hd Hn) as (a' & m & rest' & -> & Hm).
    rewrite maskSegmentText_effective in E.
    apply (@effectiveRules_avoids s (a ++ a') m (rest' ++ rest)); [|exact Hm].
    rewrite E. now rewrite <- !app_assoc. }
  rewrite maskWithRegex_text, maskWithRegex_segments. split; [apply H|].
  apply forallb_forall. intros seg' Hin. apply in_map_iff in Hin.
  destruct Hin as (seg & <- & _). cbn [seg_text withSegText]. now rewrite H.
Qed.

(** X26.  For every text, five of the eight rules replace nothing at the point
    where they run: the two later phone rules, the person code rule and
    both account rules find no match, because the first phone rule has
    already replaced every text they could match.  The masker is the
    e-mail rule, the first phone rule and the card rule. *)
Theorem later_digit_rules_never_replace (s : jsstring) :
  let afterPhone := replaceAll rePhone PHONE (replaceAll reEmail EMAIL s) in
  let afterCard := replaceAll reCard CARD_NUMBER afterPhone in
  replaceAll rePhoneAlt PHONE afterPhone = afterPhone
  /\ replaceAllWith rePhoneDigits (ifLongEnough 8 PHONE) afterPhone = afterPhone
  /\ replaceAll rePersonCode PERSON_CODE afterPhone = afterPhone
  /\ replaceAll reAccountLT ACCOUNT_NUMBER afterCard = afterCard
  /\ replaceAllWith reAccountDigits (ifLongEnough 16 ACCOUNT_NUMBER) afterCard
     = afterCard
  /\ maskSegmentText s = afterCard.
Proof.
  intros afterPhone afterCard.
  pose proof (phone_output_avoids (replaceAll reEmail EMAIL s)) as Hp.
  fold afterPhone in Hp.
  assert (Hc : avoids isPhoneText afterCard).
  { apply avoids_kept; try reflexivity; [discriminate | exact Hp]. }
  repeat split.
  - now apply covered_identity_token; [apply rePhoneAlt_covered|].
  - now apply covered_identity; [apply rePhoneDigits_covered|].
  - now apply covered_identity_token; [apply rePersonCode_covered|].
  - now apply covered_identity_token; [apply reAccountLT_covered|].
  - now apply covered_identity; [apply reAccountDigits_covered|].
  - apply maskSegmentText_effective.
Qed.

Lemma full_response_is_bounded_sample :
  safeJsonResponse constantPayload (js "rec-1") rawWithPersonCode
    (buildAnalysisResult (js "an-1")
       {| gen_sentimentScore := None; gen_customerSatisfaction := None;
          gen_agentPerformance := None; gen_warnings := None;
          gen_summary := None; gen_metrics := None |})
  = FullPayload (js "rec-1") rawWithPersonCode
      (buildAnalysisResult (js "an-1")
         {| gen_sentimentScore := None; gen_customerSatisfaction := None;
            gen_agentPerformance := None; gen_warnings := None;
            gen_summary := None; gen_metrics := None |}).
Proof. reflexivity. Qed.

Lemma countStatus_total l :
  countStatus AuditPassed l + countStatus AuditFailed l + countStatus AuditWarning l
  = length l.
Proof.
  unfold countStatus. induction l as [|r l IH]; [reflexivity|].
  cbn [filter length]. destruct (audit_status r); cbn [auditStatus_eqb length]; lia.
Qed.

Lemma countStatus_zero s l :
  countStatus s l = 0 <->
  Forall (fun r => auditStatus_eqb (audit_status r) s = false) l.
Proof.
  unfold countStatus. induction l as [|r l IH]; cbn [filter].
  - split; [constructor | reflexivity].
  - destruct (auditStatus_eqb (audit_status r) s) eqn:E; cbn [length]; split.
    + discriminate.
    + intros H. inversion H; subst. congruence.
    + intros H. constructor; [exact E | now apply IH].
    + intros H. inversion H; subst. now apply IH.
Qed.

(** X27.  The security audit always reports seven checks; passed, failed and
    warnings add up to the total; overall is passed exactly when every
    check passed and failed exactly when some check failed. *)
Theorem audit_summary_adds_up (env : AuditEnv) (profileCheckError : option jsstring) :
  let report := auditReport env profileCheckError in
  total report = 7
  /\ passed report + failed report + warnings_ report = total report
  /\ (overall report = AuditPassed <->
      Forall (fun r => audit_status r = AuditPassed) (results report))
  /\ (overall report = AuditFailed <->
      Exists (fun r => audit_status r = AuditFailed) (results report)).
Proof.
  cbv zeta. unfold auditReport. cbn [total passed failed warnings_ results overall].
  set (l := runAudit env profileCheckError).
  split; [reflexivity|]. split; [apply countStatus_total|].
  pose proof (countStatus_total l) as Ht.
  pose proof (countStatus_zero AuditFailed l) as Hf.
  pose proof (countStatus_zero AuditWarning l) as Hw.
  split; split.
  - destruct (countStatus AuditFailed l) as [|f];
      [change (0 <? 0) with false | change (0 <? S f) with true]; cbv iota;
      [|discriminate].
    destruct (countStatus AuditWarning l) as [|w];
      [change (0 <? 0) with false | change (0 <? S w) with true]; cbv iota;
      [|discriminate].
    intros _. pose proof (proj1 Hf eq_refl) as F1. pose proof (proj1 Hw eq_refl) as F2.
    apply Forall_forall. intros r Hr.
    rewrite Forall_forall in F1, F2. specialize (F1 r Hr). specialize (F2 r Hr).
    now destruct (audit_status r).
  - intros Hall.
    assert (E1 : countStatus AuditFailed l = 0).
    { apply Hf. apply Forall_forall. intros r Hr. rewrite Forall_forall in Hall.
      now rewrite (Hall r Hr). }
    assert (E2 : countStatus AuditWarning l = 0).
    { apply Hw. apply Forall_forall. intros r Hr. rewrite Forall_forall in Hall.
      now rewrite (Hall r Hr). }
    now rewrite E1, E2.
  - destruct (countStatus AuditFailed l) as [|f] eqn:E;
      [change (0 <? 0) with false | change (0 <? S f) with true]; cbv iota.
    + destruct (0 <? countStatus AuditWarning l); discriminate.
    + intros _. apply Exists_exists.
      destruct (Exists_dec (fun r => audit_status r = AuditFailed) l) as [Hex|Hno].
      * intros r. destruct (audit_status r); (now left) || (right; discriminate).
      * now apply Exists_exists in Hex.
      * exfalso. assert (X : S f = 0); [|lia].
        apply Hf. apply Forall_forall. intros r Hr.
        destruct (audit_status r) eqn:Hs; try reflexivity.
        exfalso. apply Hno. apply Exists_exists. now exists r.
  - intros Hex. apply Exists_exists in Hex. destruct Hex as (r & Hr & Hs).
    destruct (countStatus AuditFailed l) as [|f] eqn:E; [|reflexivity].
    exfalso. pose proof (proj1 Hf eq_refl) as F1. rewrite Forall_forall in F1.
    specialize (F1 r Hr). rewrite Hs in F1. discriminate.
Qed.

(** X28.  The audit passes the strength of every encryption key of 32 or more
    characters, but a key whose count of character pairs is not 16, 24 or
    32 cannot be imported: with such a key the check passes and the upload
    stores the transcript unencrypted. *)
Theorem audit_passes_keys_the_upload_cannot_use
        (aes : AesGcm) (stringifyTranscription : Transcription -> jsstring)
        (env : AuditEnv) (key : jsstring) (iv : bytes) (raw : Transcription) :
  ENCRYPTION_KEY (audit_edge env) = Some key ->
  forallb isDot key = true ->
  32 <= length key ->
  (length key + 1) / 2 <> 16 -> (length key + 1) / 2 <> 24 ->
  (length key + 1) / 2 <> 32 ->
  audit_status (checkKeyStrength env) = AuditPassed
  /\ upd_transcription
       (snd (storeTranscription aes stringifyTranscription (audit_edge env) iv raw))
     = Plain raw.
Proof.
  intros Hkey Hdot Hlen H16 H24 H32. split.
  - unfold checkKeyStrength, unset. rewrite Hkey, orElse_empty.
    destruct key as [|c k]; [cbn in Hlen; lia|]. cbn [nonEmpty negb andb].
    assert (E : (length (c :: k) <? 32) = false) by (apply Nat.ltb_ge; exact Hlen).
    now rewrite E.
  - assert (Hk : usableKey (audit_edge env) = false).
    { unfold usableKey, configuredKey. rewrite Hkey, orElse_empty.
      apply andb_false_iff. right. unfold validKeyLength.
      rewrite (keyBuffer_length key Hdot).
      apply Nat.eqb_neq in H16, H24, H32. now rewrite H16, H24, H32. }
    unfold storeTranscription. cbn [snd upd_transcription].
    rewrite withTextAndSegments_same, encryptForStorage_cases, Hk.
    now rewrite jsstring_eqb_refl.
Qed.

Lemma audit_passes_keys_the_upload_cannot_use_witness :
  audit_status
    (checkKeyStrength (auditEnvWithKey (js "000102030405060708090a0b0c0d0e0f0011")))
  = AuditPassed
  /\ upd_transcription
       (snd (storeTranscription referenceGcm sampleStringify
               (audit_edge (auditEnvWithKey (js "000102030405060708090a0b0c0d0e0f0011")))
               sampleIv rawWithPersonCode))
     = Plain rawWithPersonCode.
Proof.
  apply (@audit_passes_keys_the_upload_cannot_use referenceGcm sampleStringify
           (auditEnvWithKey (js "000102030405060708090a0b0c0d0e0f0011"))
           (js "000102030405060708090a0b0c0d0e0f0011") sampleIv rawWithPersonCode);
    try reflexivity; cbn; try lia; discriminate.
Defined.

(** X29.  The security audit answers with a report only to a caller who sent an
    Authorization header that resolves to a user with the admin role; the
    report is then the one of the seven checks. *)
Theorem audit_report_is_for_admins_only
        (getUser : jsstring -> result jsstring (option jsstring))
        (env : AuditEnv) (profileCheckError : option jsstring)
        (db : Database) (req : AuditRequest) (report : AuditReport) :
  snd (serveAudit getUser env profileCheckError db req) = AuditJson report ->
  exists header uid,
    audit_authorization req = Some header
    /\ getUser header = Ok (Some uid)
    /\ isAdminUser db uid = true
    /\ report = auditReport env profileCheckError.
Proof.
  unfold serveAudit.
  destruct (audit_method req); try discriminate;
    (destruct (nonEmpty (orElse (audit_authorization req) [])) eqn:Hh;
       cbn [negb]; [|discriminate];
     destruct (_ || _); [discriminate|];
     destruct (getUser _) as [[uid|]|msg] eqn:Hu; try discriminate;
     unfold selectRole; rewrite jsstring_eqb_refl;
     destruct (user_profiles db uid) as [[|]|] eqn:Hp; try discriminate;
     intros [= <-];
     exists (orElse (audit_authorization req) []), uid;
     repeat split; [now apply orElse_some_nonEmpty | exact Hu
                   | unfold isAdminUser; now rewrite Hp]).
Qed.

Lemma audit_report_is_for_admins_only_witness :
  exists header uid,
    audit_authorization
      {| audit_method := GET; audit_authorization := Some (js "Bearer c") |}
    = Some header
    /\ sampleAuditUser header = Ok (Some uid)
    /\ isAdminUser sampleDb uid = true
    /\ auditReport (auditEnvWithKey sampleKey) None
       = auditReport (auditEnvWithKey sampleKey) None.
Proof.
  apply (@audit_report_is_for_admins_only sampleAuditUser (auditEnvWithKey sampleKey)
           None sampleDb
           {| audit_method := GET; audit_authorization := Some (js "Bearer c") |}
           (auditReport (auditEnvWithKey sampleKey) None)).
  reflexivity.
Defined.

(** X30.  On the analysis path, for an authenticated caller: the owner and an
    admin get the stored analysis with 200; any other user gets 404
    "Analysis not found", the answer for an id without record.  For a
    record without analysis, a GET is answered 404 "Analysis not available
    for this record" whether there is a transcript or not, and a POST is
    answered 409 without a transcript; only a POST of the owner or an admin
    on a record with a transcript and without analysis goes on to generate
    one.  In every other case the tables are unchanged. *)
Theorem analysis_authorization_matrix
        (getUser : jsstring -> result jsstring jsstring)
        (generateAnalysis :
           Database -> jsstring -> CallRecord -> nat * analysisBody * Database)
        (db : Database) (m : method) (header recordId uid : jsstring) :
  m = GET \/ m = POST ->
  nonEmpty header = true -> getUser header = Ok uid ->
  validAnalysisId recordId = true ->
  serveAnalysis getUser generateAnalysis db (readRequest m header recordId)
  = match call_records db recordId with
    | None => analysisNotFound db
    | Some row =>
        if ownedBy row uid || isAdminUser db uid then
          match analysis row with
          | Some a => (200, AnalysisJson a, db)
          | None =>
              match m with
              | GET =>
                  (404, AnalysisError (js "Analysis not available for this record"),
                   db)
              | _ =>
                  match transcription row with
                  | None =>
                      (409, AnalysisError
                              (js "Transcription not available for this record"),
                       db)
                  | Some _ => generateAnalysis db recordId row
                  end
              end
          end
        else analysisNotFound db
    end.
Proof.
  intros Hm Hh Hu Hid. unfold validAnalysisId in Hid.
  apply andb_prop in Hid. destruct Hid as [Hne Hna]. apply negb_true_iff in Hna.
  unfold serveAnalysis, readRequest.
  cbn [req_method req_authorization req_recordId].
  rewrite !orElse_empty, Hh, Hu, Hne, Hna. cbn [negb orb].
  unfold selectRecord.
  destruct (call_records db recordId) as [row|];
    [|destruct Hm as [-> | ->]; reflexivity].
  cbn [policyAllows]. destruct (ownedBy row uid || isAdminUser db uid);
    [|destruct Hm as [-> | ->]; reflexivity].
  destruct Hm as [-> | ->]; reflexivity.
Qed.

Lemma analysis_authorization_matrix_witness :
  serveAnalysis sampleGetUser noAnalysisGeneration analysedDb
    (readRequest GET (js "Bearer b") (js "rec-3"))
  = analysisNotFound analysedDb
  /\ serveAnalysis sampleGetUser noAnalysisGeneration uploadedDb
       (readRequest GET (js "Bearer a") (js "rec-2"))
     = (404, AnalysisError (js "Analysis not available for this record"),
        uploadedDb).
Proof.
  split.
  - apply (@analysis_authorization_matrix sampleGetUser noAnalysisGeneration analysedDb
             GET (js "Bearer b") (js "rec-3") userB
             (or_introl eq_refl) eq_refl eq_refl eq_refl).
  - apply (@analysis_authorization_matrix sampleGetUser noAnalysisGeneration uploadedDb
             GET (js "Bearer a") (js "rec-2") userA
             (or_introl eq_refl) eq_refl eq_refl eq_refl).
Defined.

Lemma eightDigits_chars m :
  eightDigits m -> Forall (fun c => isDigit c = true) m /\ m <> [].
Proof. intros [Hl Hd]. split; [exact Hd|]. destruct m; [discriminate | discriminate]. Qed.

Lemma digit_is_phone_body c : isDigit c = true -> isPhoneBody c = true.
Proof. unfold isPhoneBody. now intros ->. Qed.

(** The phone rule of the summary matches every eight digits. *)
Lemma eightDigits_phone m p rt :
  eightDigits m -> matches reSummaryPhone p m rt.
Proof.
  intros [Hl Hd].
  destruct m as [|d1 [|d2 [|d3 [|d4 [|d5 [|d6 [|d7 [|d8 [|x r]]]]]]]]];
    try discriminate.
  repeat match goal with H : Forall _ (_ :: _) |- _ => inversion H; subst; clear H end.
  unfold reSummaryPhone. cbn [seqs].
  apply seq_nil_l; [apply M_RepStop|].
  change [d1; d2; d3; d4; d5; d6; d7; d8]
    with ([d1] ++ [d2; d3; d4; d5; d6; d7] ++ [d8]).
  apply M_Seq; [now constructor|]. apply M_Seq; [|now constructor].
  apply rep_char_intro; [|cbn; lia|exact I].
  repeat constructor; now apply digit_is_phone_body.
Qed.

(** A replacement whose token has no digit brings no eight digits in. *)
Lemma eightDigits_kept r tok s :
  consumes r = true -> forallb (fun c => negb (isDigit c)) tok = true ->
  tok <> [] -> avoids eightDigits s -> avoids eightDigits (replaceAll r tok s).
Proof.
  intros Hr Ht Hne Ha. unfold replaceAll, replaceAllWith.
  apply (@scan_avoids r tok isDigit Hr (forallb_outside _ _ Ht) Hne
           eightDigits eightDigits_chars (length s) s None (le_n _)).
  intros a m rest E Hm. destruct (Ha a m rest E Hm).
Qed.

Lemma avoids_part (L : jsstring -> Prop) pre s suf :
  avoids L (pre ++ s ++ suf) -> avoids L s.
Proof.
  intros H a m rest E Hm. apply (H (pre ++ a) m (rest ++ suf)); [|exact Hm].
  rewrite E. now rewrite <- !app_assoc.
Qed.

Lemma redacted_summary_avoids text_ :
  avoids eightDigits (redactSensitiveSummary text_).
Proof.
  unfold redactSensitiveSummary. destruct (negb (nonEmpty text_)) eqn:E.
  - destruct text_; [|discriminate]. intros a m rest Hs [Hl _].
    symmetry in Hs. apply app_eq_nil in Hs. destruct Hs as [_ Hs].
    apply app_eq_nil in Hs. destruct Hs as [-> _]. discriminate.
  - cbv zeta.
    assert (Hp : avoids eightDigits
                   (replaceAll reSummaryPhone TEL_NR
                      (replaceAll reSummaryEmail EL_PASTAS text_))).
    { unfold replaceAll at 1. unfold replaceAllWith.
      apply (@scan_avoids reSummaryPhone TEL_NR isDigit eq_refl)
        with (n := length (replaceAll reSummaryEmail EL_PASTAS text_)).
      - apply forallb_outside. reflexivity.
      - discriminate.
      - exact eightDigits_chars.
      - apply le_n.
      - intros a m rest _ Hm. apply exec_complete; [reflexivity|].
        now apply eightDigits_phone. }
    destruct (trim_shape
                (replaceAll reSpaces (js " ")
                   (replaceAll reSummaryName VARDAS_PAVARDE
                      (replaceAll reSummaryIban IBAN
                         (replaceAll reSummaryCode ASMENS_KODAS
                            (replaceAll reSummaryPhone TEL_NR
                               (replaceAll reSummaryEmail EL_PASTAS text_)))))))
      as (pre & suf & Es & _).
    apply avoids_part with (pre := pre) (suf := suf). rewrite <- Es.
    do 4 (apply eightDigits_kept; [reflexivity | reflexivity | discriminate | ]).
    exact Hp.
Qed.

(** X24.  No result of [redactSensitiveSummary] contains eight consecutive
    decimal digits: the phone rule replaces every such run and no later
    rule brings a digit in. *)
Theorem no_eight_digits_survive_redaction (text_ : jsstring) :
  hasDigitRun 8 (redactSensitiveSummary text_) = false.
Proof.
  destruct (hasDigitRun 8 (redactSensitiveSummary text_)) eqn:E; [|reflexivity].
  exfalso. apply hasDigitRun_factor in E. destruct E as (a & d & rest & E & Hd & Hn).
  apply (@redacted_summary_avoids text_ a (firstn 8 d) (skipn 8 d ++ rest)).
  - rewrite E. f_equal. now rewrite (app_assoc (firstn 8 d)), firstn_skipn.
  - split; [rewrite length_firstn; lia|].
    rewrite <- (firstn_skipn 8 d) in Hd. apply Forall_app in Hd. exact (proj1 Hd).
Qed.
